(** * Knowledge graph store, query engine, traversal and inference cache

    A shallow embedding of [agent/knowledge/knowledge_graph.py] and
    [agent/knowledge/reasoning_engine.py].

    Conventions of the embedding:
    - a Python [dict] whose iteration order is observable (the Entity map,
      the Relation map, attribute maps, the adjacency maps of the
      multigraph) is an insertion-ordered association list, see [Dict];
    - the two secondary indexes are finite maps into finite sets
      ([gmap], [gset]): Python sets carry no iteration order of their own;
    - a Python [float] is the rational number it denotes; the arithmetic
      that decides an outcome (relevance scores, eviction keys) rounds as
      binary64 does, see [F64]; the strength of a traversal result, which
      decides nothing, is kept exact;
    - an instant is the number of microseconds since the epoch; every
      operation that reads the clock takes the instant read as an argument;
    - writing the three files to disk does not touch the in-memory state
      (failures are caught and logged); what is written is
      [_save_knowledge_graph] of the store an operation leaves, and a new
      store starts from what [_load_knowledge_graph] reads back. *)

From Stdlib Require Import ZArith QArith Qreduction Ascii String List Bool Lia.
From Stdlib Require Import DecimalString Sorted Permutation SpecFloat.
From Stdlib Require DecimalZ DecimalPos.
From stdpp Require Import base option gmap sets list strings fin_maps.

Local Open Scope string_scope.
Local Open Scope list_scope.
Local Open Scope Z_scope.

(** ** Strings: [str.lower] and the [in] substring test

    A [str] is the text of its UTF-8 encoding; one text is a substring of
    another exactly when its encoding is.  [str.lower] applies the case
    mapping of Unicode, whose tables are not part of this development: every
    definition and theorem takes the mapping as [lower], of which only
    [lower("") = ""] is used.  On ASCII text the mapping changes the letters
    A to Z only; [ascii_text] is that mapping, for the sample stores. *)

Class CaseMapping : Type := {
  lower : string → string;
  lower_empty : lower "" = ""
}.

Definition lower_ascii (c : ascii) : ascii :=
  let n := N_of_ascii c in
  if (65 <=? n)%N && (n <=? 90)%N then ascii_of_N (n + 32) else c.

Fixpoint ascii_lower (s : string) : string :=
  match s with
  | EmptyString => EmptyString
  | String c s' => String (lower_ascii c) (ascii_lower s')
  end.

Definition ascii_text : CaseMapping :=
  {| lower := ascii_lower; lower_empty := eq_refl |}.

(** [contains needle hay] is Python's [needle in hay]. *)
Fixpoint contains (needle hay : string) : bool :=
  String.prefix needle hay ||
  match hay with
  | EmptyString => false
  | String _ hay' => contains needle hay'
  end.

(** ** Insertion-ordered dictionaries *)

Module Dict.

Definition t (V : Type) : Type := list (string * V).

Section Ops.
Context {V : Type}.

Fixpoint get (k : string) (d : t V) : option V :=
  match d with
  | [] => None
  | (k', v) :: d' => if String.eqb k k' then Some v else get k d'
  end.

Definition mem (k : string) (d : t V) : bool :=
  match get k d with Some _ => true | None => false end.

(** [d[k] = v]: an existing key keeps its position, a new key goes last. *)
Fixpoint set (k : string) (v : V) (d : t V) : t V :=
  match d with
  | [] => [(k, v)]
  | (k', v') :: d' =>
      if String.eqb k k' then (k', v) :: d' else (k', v') :: set k v d'
  end.

(** [del d[k]]: the entry of [k] goes, the others keep their order. *)
Fixpoint del (k : string) (d : t V) : t V :=
  match d with
  | [] => []
  | (k', v') :: d' =>
      if String.eqb k k' then del k d' else (k', v') :: del k d'
  end.

Definition keys (d : t V) : list string := map fst d.
Definition values (d : t V) : list V := map snd d.

(** Keys of a dictionary are pairwise distinct. *)
Definition wf (d : t V) : Prop := NoDup (keys d).
End Ops.

End Dict.

(** ** Data model *)

Definition datetime : Type := Z.

(** A timestamp field of a record holds a [datetime], as the operations of
    the store write it, or a [str], as [json.load] leaves it in a store read
    back from disk.  An instant used where a field is expected is the field
    holding that instant. *)
Inductive stamp : Type :=
| Instant (t : Z)
| Text (s : string).

Coercion Instant : Z >-> stamp.

Definition attrs : Type := Dict.t string.

Record entity : Type := mk_entity {
  e_id : string;
  e_name : string;
  e_type : string;
  e_attributes : attrs;
  e_description : string;
  e_importance : Q;
  e_created_at : stamp;
  e_last_accessed : stamp;
  e_access_count : Z;
  e_confidence : Q
}.

Record relation : Type := mk_relation {
  r_id : string;
  r_source : string;
  r_target : string;
  r_type : string;
  r_attributes : attrs;
  r_importance : Q;
  r_confidence : Q;
  r_created_at : stamp;
  r_bidirectional : bool
}.

(** Payloads are dictionaries read with [.get(key, default)]: every key may
    be missing. *)
Record entity_payload : Type := mk_entity_payload {
  ep_id : option string;
  ep_name : option string;
  ep_type : option string;
  ep_attributes : option attrs;
  ep_description : option string;
  ep_importance : option Q;
  ep_confidence : option Q
}.

Record relation_payload : Type := mk_relation_payload {
  rp_source : option string;
  rp_target : option string;
  rp_type : option string;
  rp_attributes : option attrs;
  rp_importance : option Q;
  rp_confidence : option Q;
  rp_bidirectional : option bool
}.

(** ** The directed multigraph ([networkx.MultiDiGraph])

    [adj[u][v][key]] is the data of the edge [u -> v] keyed [key]; the nodes
    are the keys of the outer dictionary.  Node attributes are copies of the
    entity records and are never read back, they are left out. *)

Module Graph.

Definition t : Type := Dict.t (Dict.t (Dict.t relation)).

Definition empty : t := [].

Definition has_node (n : string) (g : t) : bool := Dict.mem n g.

Definition add_node (n : string) (g : t) : t :=
  if Dict.mem n g then g else Dict.set n [] g.

Definition add_edge (u v key : string) (data : relation) (g : t) : t :=
  let g := add_node u g in
  let g := add_node v g in
  let nbrs := default [] (Dict.get u g) in
  let keydict := default [] (Dict.get v nbrs) in
  Dict.set u (Dict.set v (Dict.set key data keydict) nbrs) g.

Definition has_edge (u v key : string) (g : t) : bool :=
  match Dict.get u g with
  | Some nbrs =>
      match Dict.get v nbrs with
      | Some keydict => Dict.mem key keydict
      | None => false
      end
  | None => false
  end.

(** Only called under [has_edge]. The neighbour entry disappears with its
    last parallel edge. *)
Definition remove_edge (u v key : string) (g : t) : t :=
  match Dict.get u g with
  | Some nbrs =>
      match Dict.get v nbrs with
      | Some keydict =>
          let keydict' := Dict.del key keydict in
          let nbrs' :=
            match keydict' with
            | [] => Dict.del v nbrs
            | _ => Dict.set v keydict' nbrs
            end in
          Dict.set u nbrs' g
      | None => g
      end
  | None => g
  end.

Definition remove_node (n : string) (g : t) : t :=
  map (fun '(u, nbrs) => (u, Dict.del n nbrs)) (Dict.del n g).

Definition successors (u : string) (g : t) : list string :=
  Dict.keys (default [] (Dict.get u g)).

Definition edge (u v key : string) (g : t) : option relation :=
  nbrs ← Dict.get u g; keydict ← Dict.get v nbrs; Dict.get key keydict.

(** Breadth-first levels, as [single_source_shortest_path_length] lists
    them: [expand] visits the neighbours of one level in adjacency order. *)
Fixpoint expand_node (ws : list string) (level : nat)
    (seen : list string) : list (string * nat) * list string :=
  match ws with
  | [] => ([], seen)
  | w :: ws' =>
      if bool_decide (w ∈ seen) then expand_node ws' level seen
      else
        let '(found, seen') := expand_node ws' level (seen ++ [w]) in
        ((w, level) :: found, seen')
  end.

Fixpoint expand_level (g : t) (thislevel : list string) (level : nat)
    (seen : list string) : list (string * nat) * list string :=
  match thislevel with
  | [] => ([], seen)
  | v :: rest =>
      let '(found, seen1) := expand_node (successors v g) level seen in
      let '(found', seen2) := expand_level g rest level seen1 in
      (found ++ found', seen2)
  end.

Fixpoint bfs (g : t) (depth : nat) (thislevel : list string) (level : nat)
    (seen : list string) : list (string * nat) :=
  match depth with
  | O => []
  | S depth' =>
      match thislevel with
      | [] => []
      | _ =>
          let '(found, seen') := expand_level g thislevel (S level) seen in
          found ++ bfs g depth' (map fst found) (S level) seen'
      end
  end.

(** [dict(single_source_shortest_path_length(g, source, cutoff))], in
    discovery order; [None] when the source is not a node
    (networkx raises [NodeNotFound]). *)
Definition single_source_shortest_path_length
    (g : t) (source : string) (cutoff : Z) : option (list (string * nat)) :=
  if has_node source g
  then Some ((source, O) :: bfs g (Z.to_nat cutoff) [source] O [source])
  else None.

End Graph.

(** ** Binary64 arithmetic on rationals

    A float is modelled by the rational it denotes, and a rational that is
    no binary64 value stands for the nearest one (as a decimal literal
    does).  [round] is round-to-nearest-even into binary64, by the Standard
    Library's [binary_normalize]: the rational is first cut to a multiple of
    2^-1101, a grid that holds every binary64 value and every midpoint of
    two neighbours, with a sticky last bit for what the cut drops.  A sum or
    a product is the exact result of the rounded operands, rounded once, as
    IEEE 754 defines it.  An overflowing result, an infinity, is the
    rational 2^1024, above every finite value; NaN does not arise from
    finite operands under [add] and [mul] short of an overflow. *)

Module F64.

Definition prec : Z := 53.
Definition emax : Z := 1024.
Definition guard : Z := 1100.

Definition to_spec (q : Q) : spec_float :=
  let scaled := Z.abs (Qnum q) * 2 ^ guard in
  let d := Zpos (Qden q) in
  let m := 2 * (scaled / d) + (if scaled mod d =? 0 then 0 else 1) in
  binary_normalize prec emax (if Qnum q <? 0 then - m else m) (- (guard + 1)) false.

Definition of_spec (f : spec_float) : Q :=
  match f with
  | S754_zero _ => 0%Q
  | S754_finite s m e =>
      Qred ((if s then -1 else 1) * (inject_Z (Zpos m) * Qpower 2 e))%Q
  | S754_infinity s => ((if s then -1 else 1) * Qpower 2 emax)%Q
  | S754_nan => 0%Q
  end.

Definition round (q : Q) : Q := of_spec (to_spec q).

Definition add (x y : Q) : Q := round (round x + round y).

Definition mul (x y : Q) : Q := round (round x * round y).

End F64.

(** ** Built-ins: comparisons on scores, [min], [list.sort], slicing *)

Definition Qlt_bool (x y : Q) : bool := negb (Qle_bool y x).

(** [min(xs, key=key)]: the first element whose key is minimal. *)
Fixpoint min_by {A : Type} (key : A → Q) (best : A) (xs : list A) : A :=
  match xs with
  | [] => best
  | x :: xs' => min_by key (if Qlt_bool (key x) (key best) then x else best) xs'
  end.

Definition py_min {A : Type} (key : A → Q) (xs : list A) : option A :=
  match xs with
  | [] => None
  | x :: xs' => Some (min_by key x xs')
  end.

(** [xs.sort(key=key, reverse=True)]: descending and stable, elements with
    equal keys keep their relative order. *)
Fixpoint insert_desc {A : Type} (key : A → Q) (x : A) (xs : list A) : list A :=
  match xs with
  | [] => [x]
  | y :: xs' =>
      if Qlt_bool (key x) (key y) then y :: insert_desc key x xs'
      else x :: y :: xs'
  end.

Definition sort_desc {A : Type} (key : A → Q) (xs : list A) : list A :=
  foldr (insert_desc key) [] xs.

(** Descending order on a key. *)
Definition descending {A : Type} (key : A → Q) (xs : list A) : Prop :=
  StronglySorted (λ x y, (key y <= key x)%Q) xs.

(** [xs[:limit]] for an [int] limit: a negative limit counts from the end. *)
Definition py_slice_to {A : Type} (limit : Z) (xs : list A) : list A :=
  if 0 <=? limit then take (Z.to_nat limit) xs
  else take (Z.to_nat (Z.of_nat (length xs) + limit)) xs.

(** ** The store *)

Record config : Type := mk_config {
  max_entities : Z;
  max_relations : Z
}.

Record store : Type := mk_store {
  cfg : config;
  entities : Dict.t entity;
  relations : Dict.t relation;
  graph : Graph.t;
  type_index : gmap string (gset string);
  attribute_index : gmap string (gmap string (gset string));
  creation_time : datetime;
  last_updated : datetime
}.

Definition with_entities (d : Dict.t entity) (s : store) : store :=
  mk_store (cfg s) d (relations s) (graph s) (type_index s)
           (attribute_index s) (creation_time s) (last_updated s).

Definition with_relations (d : Dict.t relation) (s : store) : store :=
  mk_store (cfg s) (entities s) d (graph s) (type_index s)
           (attribute_index s) (creation_time s) (last_updated s).

Definition with_graph (g : Graph.t) (s : store) : store :=
  mk_store (cfg s) (entities s) (relations s) g (type_index s)
           (attribute_index s) (creation_time s) (last_updated s).

Definition with_type_index (ti : gmap string (gset string)) (s : store) : store :=
  mk_store (cfg s) (entities s) (relations s) (graph s) ti
           (attribute_index s) (creation_time s) (last_updated s).

Definition with_attribute_index
    (ai : gmap string (gmap string (gset string))) (s : store) : store :=
  mk_store (cfg s) (entities s) (relations s) (graph s) (type_index s)
           ai (creation_time s) (last_updated s).

Definition with_last_updated (now : datetime) (s : store) : store :=
  mk_store (cfg s) (entities s) (relations s) (graph s) (type_index s)
           (attribute_index s) (creation_time s) now.

(** The store of a fresh [KnowledgeGraph] with nothing on disk. *)
Definition empty_store (c : config) (now : datetime) : store :=
  mk_store c [] [] Graph.empty ∅ ∅ now now.

(** Exceptions that leave a call. *)
Inductive exn : Type :=
| ValueError
| TypeError
| AttributeError
| NodeNotFound.

Inductive outcome (A : Type) : Type :=
| Returned (a : A)
| Raised (e : exn).
Arguments Returned {A} a.
Arguments Raised {A} e.

(** ** Index maintenance *)

Definition index_add_type (ty eid : string)
    (ti : gmap string (gset string)) : gmap string (gset string) :=
  <[ty := default ∅ (ti !! ty) ∪ {[eid]}]> ti.

Definition index_add_attr (eid : string) (ai : gmap string (gmap string (gset string)))
    (item : string * string) : gmap string (gmap string (gset string)) :=
  let '(attr_name, attr_value) := item in
  let by_value := default ∅ (ai !! attr_name) in
  <[attr_name := <[attr_value := default ∅ (by_value !! attr_value) ∪ {[eid]}]> by_value]> ai.

Definition _update_entity_indexes (entity_id : string) (e : entity) (s : store) : store :=
  let s := with_type_index (index_add_type (e_type e) entity_id (type_index s)) s in
  with_attribute_index
    (foldl (index_add_attr entity_id) (attribute_index s) (e_attributes e)) s.

Definition index_discard_type (ty eid : string)
    (ti : gmap string (gset string)) : gmap string (gset string) :=
  match ti !! ty with
  | Some ids => <[ty := ids ∖ {[eid]}]> ti
  | None => ti
  end.

Definition index_discard_attr (eid : string) (ai : gmap string (gmap string (gset string)))
    (item : string * string) : gmap string (gmap string (gset string)) :=
  let '(attr_name, attr_value) := item in
  match ai !! attr_name with
  | Some by_value =>
      match by_value !! attr_value with
      | Some ids => <[attr_name := <[attr_value := ids ∖ {[eid]}]> by_value]> ai
      | None => ai
      end
  | None => ai
  end.

(** ** Removal *)

Definition remove_relation (relation_id : string) (now : datetime) (s : store)
    : bool * store :=
  match Dict.get relation_id (relations s) with
  | None => (false, s)
  | Some rel =>
      let g := graph s in
      let g :=
        if Graph.has_edge (r_source rel) (r_target rel) relation_id g
        then Graph.remove_edge (r_source rel) (r_target rel) relation_id g
        else g in
      let reverse_id := ("reverse_" ++ relation_id)%string in
      let g :=
        if Graph.has_edge (r_target rel) (r_source rel) reverse_id g
        then Graph.remove_edge (r_target rel) (r_source rel) reverse_id g
        else g in
      (true,
       with_last_updated now
         (with_relations (Dict.del relation_id (relations s)) (with_graph g s)))
  end.

Definition incident (entity_id : string) (item : string * relation) : bool :=
  String.eqb (r_source item.2) entity_id || String.eqb (r_target item.2) entity_id.

Definition remove_entity (entity_id : string) (now : datetime) (s : store)
    : bool * store :=
  match Dict.get entity_id (entities s) with
  | None => (false, s)
  | Some e =>
      let s := with_type_index
                 (index_discard_type (e_type e) entity_id (type_index s)) s in
      let s := with_attribute_index
                 (foldl (index_discard_attr entity_id) (attribute_index s)
                        (e_attributes e)) s in
      let relations_to_remove :=
        Dict.keys (filter (fun item => incident entity_id item) (relations s)) in
      let s := foldl (fun s rid => (remove_relation rid now s).2) s
                     relations_to_remove in
      let s := if Graph.has_node entity_id (graph s)
               then with_graph (Graph.remove_node entity_id (graph s)) s
               else s in
      (true, with_last_updated now
               (with_entities (Dict.del entity_id (entities s)) s))
  end.

(** ** Eviction *)

(** [importance * (1 + access_count * 0.1)], evaluated in binary64; the
    access count is converted as Python converts an [int] below 2^1024. *)
Definition eviction_score (e : entity) : Q :=
  F64.mul (e_importance e)
          (F64.add 1 (F64.mul (inject_Z (e_access_count e)) (1 # 10))).

Definition entity_key (s : store) (eid : string) : Q :=
  match Dict.get eid (entities s) with
  | Some e => eviction_score e
  | None => 0%Q
  end.

Definition relation_key (s : store) (rid : string) : Q :=
  match Dict.get rid (relations s) with
  | Some r => r_importance r
  | None => 0%Q
  end.

Definition _remove_least_important_entity (now : datetime) (s : store) : store :=
  match py_min (entity_key s) (Dict.keys (entities s)) with
  | None => s
  | Some least_important_id => (remove_entity least_important_id now s).2
  end.

Definition _remove_least_important_relation (now : datetime) (s : store) : store :=
  match py_min (relation_key s) (Dict.keys (relations s)) with
  | None => s
  | Some least_important_id => (remove_relation least_important_id now s).2
  end.

(** ** Results handed back to callers *)

(** An entity result of [query]: the entity's items with ["type"] and
    ["relevance"] written over them. *)
Record entity_result : Type := mk_entity_result {
  er_id : string;
  er_name : string;
  er_type : string;
  er_attributes : attrs;
  er_description : string;
  er_importance : Q;
  er_created_at : stamp;
  er_last_accessed : stamp;
  er_access_count : Z;
  er_confidence : Q;
  er_relevance : Q
}.

Record relation_result : Type := mk_relation_result {
  rr_id : string;
  rr_source : string;
  rr_target : string;
  rr_type : string;
  rr_attributes : attrs;
  rr_importance : Q;
  rr_confidence : Q;
  rr_created_at : stamp;
  rr_bidirectional : bool;
  rr_source_name : string;
  rr_target_name : string;
  rr_relevance : Q
}.

Inductive query_result : Type :=
| EntityResult (r : entity_result)
| RelationResult (r : relation_result).

Definition relevance (r : query_result) : Q :=
  match r with
  | EntityResult r => er_relevance r
  | RelationResult r => rr_relevance r
  end.

(** The value under the key ["type"] of a result. *)
Definition result_type (r : query_result) : string :=
  match r with
  | EntityResult r => er_type r
  | RelationResult r => rr_type r
  end.

Definition result_id (r : query_result) : string :=
  match r with
  | EntityResult r => er_id r
  | RelationResult r => rr_id r
  end.

(** An entity copy returned by [find_related_entities]. *)
Record related_entity : Type := mk_related_entity {
  re_entity : entity;
  relationship_distance : nat;
  relationship_strength : Q
}.

(** ** Reads *)

Definition touch (now : datetime) (e : entity) : entity :=
  mk_entity (e_id e) (e_name e) (e_type e) (e_attributes e) (e_description e)
            (e_importance e) (e_created_at e) now (e_access_count e + 1)
            (e_confidence e).

Definition get_entity (entity_id : string) (now : datetime) (s : store)
    : option entity * store :=
  match Dict.get entity_id (entities s) with
  | Some e =>
      let e' := touch now e in
      (Some e', with_entities (Dict.set entity_id e' (entities s)) s)
  | None => (None, s)
  end.

Definition get_relation (relation_id : string) (s : store) : option relation :=
  Dict.get relation_id (relations s).

(** ** Query engine *)

(** [if hit: relevance += weight], a binary64 addition. *)
Definition bump (hit : bool) (weight : Q) (relevance : Q) : Q :=
  if hit then F64.add relevance weight else relevance.

Definition entity_relevance {L : CaseMapping}
    (query_lower : string) (e : entity) : Q :=
  let relevance := 0%Q in
  let relevance := bump (contains query_lower (lower (e_name e))) 1 relevance in
  let relevance :=
    bump (contains query_lower (lower (e_description e))) (8 # 10) relevance in
  let relevance :=
    foldl (fun rel attr_value =>
             bump (contains query_lower (lower attr_value)) (5 # 10) rel)
          relevance (Dict.values (e_attributes e)) in
  let relevance := bump (contains query_lower (lower (e_type e))) (3 # 10) relevance in
  F64.add relevance (F64.mul (e_importance e) (3 # 10)).

Definition relation_relevance {L : CaseMapping}
    (query_lower : string) (r : relation) : Q :=
  let relevance := 0%Q in
  let relevance := bump (contains query_lower (lower (r_type r))) (8 # 10) relevance in
  F64.add relevance (F64.mul (r_importance r) (2 # 10)).

(** [{**entity, "type": "entity", "relevance": relevance}] *)
Definition entity_hit (e : entity) (rel : Q) : entity_result :=
  mk_entity_result (e_id e) (e_name e) "entity" (e_attributes e)
    (e_description e) (e_importance e) (e_created_at e) (e_last_accessed e)
    (e_access_count e) (e_confidence e) rel.

Definition endpoint_name (s : store) (eid : string) : string :=
  match Dict.get eid (entities s) with
  | Some e => e_name e
  | None => "Unknown"
  end.

(** [{**relation, "type": "relation", "source_name": .., "target_name": ..,
      "relevance": relevance}] *)
Definition relation_hit (s : store) (r : relation) (rel : Q) : relation_result :=
  mk_relation_result (r_id r) (r_source r) (r_target r) "relation"
    (r_attributes r) (r_importance r) (r_confidence r) (r_created_at r)
    (r_bidirectional r) (endpoint_name s (r_source r))
    (endpoint_name s (r_target r)) rel.

Definition search_entities {L : CaseMapping}
    (query_lower : string) (s : store) : list query_result :=
  flat_map (fun e =>
              let rel := entity_relevance query_lower e in
              if Qlt_bool 0 rel then [EntityResult (entity_hit e rel)] else [])
           (Dict.values (entities s)).

Definition search_relations {L : CaseMapping}
    (query_lower : string) (s : store) : list query_result :=
  flat_map (fun r =>
              let rel := relation_relevance query_lower r in
              if Qlt_bool 0 rel then [RelationResult (relation_hit s r rel)] else [])
           (Dict.values (relations s)).

Definition query {L : CaseMapping}
    (query_text : string) (limit : Z) (s : store) : list query_result :=
  let query_lower := lower query_text in
  let results := search_entities query_lower s ++ search_relations query_lower s in
  py_slice_to limit (sort_desc relevance results).

(** ** Traversal engine *)

(** [relation_types] is truthy when it is a non-empty list. *)
Definition truthy {A : Type} (o : option (list A)) : bool :=
  match o with
  | Some (_ :: _) => true
  | _ => false
  end.

(** The loop over the distance map.  A target is skipped when it is the
    source or not an entity.  [nx.shortest_path] to a target at distance
    [d >= 1] has [d + 1 >= 2] nodes.  With a relation-type filter the edge
    lookup indexes the path, a list, with the target id, a string, and the
    call leaves with [TypeError] at the first target that is not skipped. *)
Fixpoint collect_related (entity_id : string) (filtered : bool) (now : datetime)
    (targets : list (string * nat)) (s : store)
    : outcome (list related_entity) * store :=
  match targets with
  | [] => (Returned [], s)
  | (target_id, path_info) :: rest =>
      if String.eqb target_id entity_id || negb (Dict.mem target_id (entities s))
      then collect_related entity_id filtered now rest s
      else if (S path_info <? 2)%nat
      then collect_related entity_id filtered now rest s
      else if filtered then (Raised TypeError, s)
      else
        match get_entity target_id now s with
        | (Some e, s') =>
            let r := mk_related_entity e path_info
                       (1 / inject_Z (Z.of_nat path_info + 1))%Q in
            match collect_related entity_id filtered now rest s' with
            | (Returned rs, s'') => (Returned (r :: rs), s'')
            | (Raised x, s'') => (Raised x, s'')
            end
        | (None, s') => collect_related entity_id filtered now rest s'
        end
  end.

Definition find_related_entities (entity_id : string)
    (relation_types : option (list string)) (max_depth : Z)
    (now : datetime) (s : store) : outcome (list related_entity) * store :=
  if negb (Dict.mem entity_id (entities s)) then (Returned [], s)
  else
    match Graph.single_source_shortest_path_length (graph s) entity_id max_depth with
    | None => (Raised NodeNotFound, s)
    | Some targets =>
        match collect_related entity_id (truthy relation_types) now targets s with
        | (Returned rs, s') => (Returned (sort_desc relationship_strength rs), s')
        | (Raised x, s') => (Raised x, s')
        end
    end.

(** The loop [for entity_id in ids: entity = self.get_entity(entity_id) ...]. *)
Fixpoint fetch_all (ids : list string) (now : datetime) (s : store)
    : list entity * store :=
  match ids with
  | [] => ([], s)
  | entity_id :: rest =>
      match get_entity entity_id now s with
      | (Some e, s') =>
          let '(es, s'') := fetch_all rest now s' in (e :: es, s'')
      | (None, s') => fetch_all rest now s'
      end
  end.

Definition find_entities_by_type (entity_type : string) (limit : Z)
    (now : datetime) (s : store) : list entity * store :=
  match type_index s !! entity_type with
  | None => ([], s)
  | Some ids =>
      let '(es, s') := fetch_all (elements ids) now s in
      (py_slice_to limit (sort_desc e_importance es), s')
  end.

Definition find_entities_by_attribute (attribute_name attribute_value : string)
    (limit : Z) (now : datetime) (s : store) : list entity * store :=
  match attribute_index s !! attribute_name with
  | None => ([], s)
  | Some by_value =>
      match by_value !! attribute_value with
      | None => ([], s)
      | Some ids =>
          let '(es, s') := fetch_all (elements ids) now s in
          (py_slice_to limit (sort_desc e_importance es), s')
      end
  end.

(** ** Operations that format the clock

    [timestamp_str now] is [str(now.timestamp())], the text that store-generated
    ids are made of; [isoformat] and [fromisoformat] are the methods of
    [datetime] ([fromisoformat] is [None] where Python raises [ValueError]);
    [str_datetime] is [str] on a [datetime], which [json.dump] is given as
    [default]. *)

Section Clock.

Variable timestamp_str : datetime → string.
Variable isoformat : datetime → string.
Variable fromisoformat : string → option datetime.
Variable str_datetime : datetime → string.

(** [entity_data.get("id") or f"entity_{...}"]: a missing or empty id is
    replaced. *)
Definition entity_id_of (payload : entity_payload) (now : datetime) : string :=
  match ep_id payload with
  | Some (String c rest) => String c rest
  | _ => ("entity_" ++ timestamp_str now)%string
  end.

Definition add_entity (payload : entity_payload) (now : datetime) (s : store)
    : string * store :=
  let s :=
    if Z.of_nat (length (entities s)) >=? max_entities (cfg s)
    then _remove_least_important_entity now s
    else s in
  let entity_id := entity_id_of payload now in
  let e :=
    mk_entity entity_id
      (default "" (ep_name payload))
      (default "unknown" (ep_type payload))
      (default [] (ep_attributes payload))
      (default "" (ep_description payload))
      (default (5 # 10)%Q (ep_importance payload))
      now now 0
      (default 1%Q (ep_confidence payload)) in
  let s := with_entities (Dict.set entity_id e (entities s)) s in
  let s := with_graph (Graph.add_node entity_id (graph s)) s in
  let s := _update_entity_indexes entity_id e s in
  (entity_id, with_last_updated now s).

Definition is_entity (o : option string) (s : store) : bool :=
  match o with
  | Some eid => Dict.mem eid (entities s)
  | None => false
  end.

Definition add_relation (payload : relation_payload) (now : datetime) (s : store)
    : outcome string * store :=
  let s :=
    if Z.of_nat (length (relations s)) >=? max_relations (cfg s)
    then _remove_least_important_relation now s
    else s in
  match rp_source payload, rp_target payload with
  | Some source_id, Some target_id =>
      if negb (Dict.mem source_id (entities s))
         || negb (Dict.mem target_id (entities s))
      then (Raised ValueError, s)
      else
        let relation_id := ("rel_" ++ timestamp_str now)%string in
        let rel :=
          mk_relation relation_id source_id target_id
            (default "related_to" (rp_type payload))
            (default [] (rp_attributes payload))
            (default (5 # 10)%Q (rp_importance payload))
            (default 1%Q (rp_confidence payload))
            now
            (default false (rp_bidirectional payload)) in
        let s := with_relations (Dict.set relation_id rel (relations s)) s in
        let s := with_graph
                   (Graph.add_edge source_id target_id relation_id rel (graph s)) s in
        let s :=
          if r_bidirectional rel then
            let reverse_id := ("reverse_" ++ relation_id)%string in
            let reverse_relation :=
              mk_relation reverse_id target_id source_id (r_type rel)
                (r_attributes rel) (r_importance rel) (r_confidence rel)
                (r_created_at rel) (r_bidirectional rel) in
            with_graph
              (Graph.add_edge target_id source_id reverse_id reverse_relation
                              (graph s)) s
          else s in
        (Returned relation_id, with_last_updated now s)
  | _, _ => (Raised ValueError, s)
  end.

(** *** Export and import *)

Record entity_json : Type := mk_entity_json {
  ej_id : string;
  ej_name : string;
  ej_type : string;
  ej_attributes : attrs;
  ej_description : string;
  ej_importance : Q;
  ej_created_at : string;
  ej_last_accessed : string;
  ej_access_count : Z;
  ej_confidence : Q
}.

Record relation_json : Type := mk_relation_json {
  rj_id : string;
  rj_source : string;
  rj_target : string;
  rj_type : string;
  rj_attributes : attrs;
  rj_importance : Q;
  rj_confidence : Q;
  rj_created_at : string;
  rj_bidirectional : bool
}.

Record statistics : Type := mk_statistics {
  total_entities : nat;
  total_relations : nat;
  graph_nodes : nat;
  graph_edges : nat;
  entity_types : nat;
  indexed_attributes : nat;
  stat_creation_time : string;
  stat_last_updated : string;
  average_entity_importance : Q;
  average_relation_importance : Q
}.

(** The exported dictionary; [from_dict] reads each key with
    [data.get(key, {})]. *)
Record export : Type := mk_export {
  x_entities : option (Dict.t entity_json);
  x_relations : option (Dict.t relation_json);
  x_type_index : option (gmap string (list string));
  x_attribute_index : option (gmap string (gmap string (list string)));
  x_statistics : option statistics
}.

Definition mean (xs : list Q) : Q :=
  match xs with
  | [] => 0%Q
  | _ => (foldr Qplus 0 xs / inject_Z (Z.of_nat (length xs)))%Q
  end.

Definition number_of_edges (g : Graph.t) : nat :=
  foldr (fun nbrs n =>
           foldr (fun keydict m => length keydict + m)%nat n (Dict.values nbrs))
        O (Dict.values g).

Definition get_statistics (s : store) : statistics :=
  mk_statistics (length (entities s)) (length (relations s))
    (length (graph s)) (number_of_edges (graph s))
    (size (type_index s)) (size (attribute_index s))
    (isoformat (creation_time s)) (isoformat (last_updated s))
    (mean (map e_importance (Dict.values (entities s))))
    (mean (map r_importance (Dict.values (relations s)))).

(** [entity["created_at"].isoformat()] and the same for ["last_accessed"]:
    a [str] has no such method. *)
Definition entity_to_json (e : entity) : outcome entity_json :=
  match e_created_at e, e_last_accessed e with
  | Instant created, Instant accessed =>
      Returned (mk_entity_json (e_id e) (e_name e) (e_type e) (e_attributes e)
                  (e_description e) (e_importance e) (isoformat created)
                  (isoformat accessed) (e_access_count e) (e_confidence e))
  | _, _ => Raised AttributeError
  end.

Definition relation_to_json (r : relation) : outcome relation_json :=
  match r_created_at r with
  | Instant created =>
      Returned (mk_relation_json (r_id r) (r_source r) (r_target r) (r_type r)
                  (r_attributes r) (r_importance r) (r_confidence r)
                  (isoformat created) (r_bidirectional r))
  | Text _ => Raised AttributeError
  end.

(** The two loops of [to_dict]: the items rendered in order, up to the first
    one that raises. *)
Fixpoint dump_items {V J : Type} (render : V → outcome J) (items : Dict.t V)
    : outcome (Dict.t J) :=
  match items with
  | [] => Returned []
  | (k, v) :: rest =>
      match render v with
      | Raised x => Raised x
      | Returned j =>
          match dump_items render rest with
          | Raised x => Raised x
          | Returned js => Returned ((k, j) :: js)
          end
      end
  end.

Definition to_dict (s : store) : outcome export :=
  match dump_items entity_to_json (entities s) with
  | Raised x => Raised x
  | Returned serializable_entities =>
      match dump_items relation_to_json (relations s) with
      | Raised x => Raised x
      | Returned serializable_relations =>
          Returned
            (mk_export
               (Some serializable_entities)
               (Some serializable_relations)
               (Some (elements <$> type_index s))
               (Some ((λ by_value : gmap string (gset string), elements <$> by_value)
                        <$> attribute_index s))
               (Some (get_statistics s)))
      end
  end.

Definition entity_of_json (j : entity_json) : option entity :=
  created ← fromisoformat (ej_created_at j);
  accessed ← fromisoformat (ej_last_accessed j);
  Some (mk_entity (ej_id j) (ej_name j) (ej_type j) (ej_attributes j)
          (ej_description j) (ej_importance j) (Instant created)
          (Instant accessed) (ej_access_count j) (ej_confidence j)).

Definition relation_of_json (j : relation_json) : option relation :=
  created ← fromisoformat (rj_created_at j);
  Some (mk_relation (rj_id j) (rj_source j) (rj_target j) (rj_type j)
          (rj_attributes j) (rj_importance j) (rj_confidence j)
          (Instant created) (rj_bidirectional j)).

(** The two loading loops: the dictionary filled so far and whether a
    timestamp failed to parse. *)
Fixpoint load_items {J V : Type} (parse : J → option V)
    (items : Dict.t J) (acc : Dict.t V) : bool * Dict.t V :=
  match items with
  | [] => (true, acc)
  | (k, j) :: rest =>
      match parse j with
      | Some v => load_items parse rest (Dict.set k v acc)
      | None => (false, acc)
      end
  end.

Definition rebuild_graph (s : store) : Graph.t :=
  let g := foldl (fun g k => Graph.add_node k g) Graph.empty
                 (Dict.keys (entities s)) in
  foldl (fun g r => Graph.add_edge (r_source r) (r_target r) (r_id r) r g) g
        (Dict.values (relations s)).

Definition from_dict (data : export) (s : store) : outcome unit * store :=
  match load_items entity_of_json (default [] (x_entities data)) [] with
  | (false, es) => (Raised ValueError, with_entities es s)
  | (true, es) =>
      let s := with_entities es s in
      match load_items relation_of_json (default [] (x_relations data)) [] with
      | (false, rs) => (Raised ValueError, with_relations rs s)
      | (true, rs) =>
          let s := with_relations rs s in
          let s := with_type_index
                     (list_to_set <$> default ∅ (x_type_index data)) s in
          let s := with_attribute_index
                     ((λ by_value : gmap string (list string), list_to_set <$> by_value)
                        <$> default ∅ (x_attribute_index data)) s in
          (Returned tt, with_graph (rebuild_graph s) s)
      end
  end.

(** *** The files on disk

    [json.dump(..., default=str)] writes a [datetime] as [str] renders it and
    [json.load] reads that text back as a [str]: [written] is a timestamp
    field after the two.  The graph file holds the nodes and the keyed edges
    in adjacency order, and [node_link_graph] rebuilds the same adjacency
    from it; edge data is read by no operation of the store.  The Relation
    map is in none of the three files.  The three files are taken to be
    there together and well formed, as a save that succeeded leaves them. *)

Definition written (x : stamp) : stamp :=
  match x with
  | Instant t => Text (str_datetime t)
  | Text text => Text text
  end.

Definition entity_written (e : entity) : entity :=
  mk_entity (e_id e) (e_name e) (e_type e) (e_attributes e) (e_description e)
            (e_importance e) (written (e_created_at e))
            (written (e_last_accessed e)) (e_access_count e) (e_confidence e).

Definition relation_written (r : relation) : relation :=
  mk_relation (r_id r) (r_source r) (r_target r) (r_type r) (r_attributes r)
              (r_importance r) (r_confidence r) (written (r_created_at r))
              (r_bidirectional r).

(** What [json.load] and [node_link_graph] give for the three files. *)
Record files : Type := mk_files {
  f_graph : Graph.t;
  f_entities : Dict.t entity;
  f_type_index : gmap string (list string);
  f_attribute_index : gmap string (gmap string (list string))
}.

Definition _save_knowledge_graph (s : store) : files :=
  mk_files
    (map (fun '(u, nbrs) =>
            (u, map (fun '(v, keydict) =>
                       (v, map (fun '(key, r) => (key, relation_written r))
                               keydict))
                    nbrs))
         (graph s))
    (map (fun '(k, e) => (k, entity_written e)) (entities s))
    (elements <$> type_index s)
    ((λ by_value : gmap string (gset string), elements <$> by_value)
       <$> attribute_index s).

(** [disk] is [None] when there is no graph file. *)
Definition _load_knowledge_graph (disk : option files) (s : store) : store :=
  match disk with
  | None => s
  | Some f =>
      let s := with_graph (f_graph f) s in
      let s := with_entities (f_entities f) s in
      let s := with_type_index (list_to_set <$> f_type_index f) s in
      with_attribute_index
        ((λ by_value : gmap string (list string), list_to_set <$> by_value)
           <$> f_attribute_index f) s
  end.

(** [KnowledgeGraph(config, memory_path)]: an empty store, then the load. *)
Definition new_store (c : config) (now : datetime) (disk : option files) : store :=
  _load_knowledge_graph disk (empty_store c now).

End Clock.

(** ** Reasoning engine *)

Record rule : Type := mk_rule {
  rule_id : string;
  rule_name : string;
  rule_premises : list string;
  rule_conclusion : string;
  rule_confidence : Q;
  rule_type : string
}.

Record rule_payload : Type := mk_rule_payload {
  lp_id : option string;
  lp_name : option string;
  lp_premises : option (list string);
  lp_conclusion : option string;
  lp_confidence : option Q;
  lp_type : option string
}.

Record rule_inference : Type := mk_rule_inference {
  ri_id : string;
  ri_type : string;
  ri_content : string;
  ri_rule_applied : string;
  ri_confidence : Q;
  ri_relevance : Q;
  ri_reasoning_type : string
}.

Record graph_inference : Type := mk_graph_inference {
  gi_id : string;
  gi_type : string;
  gi_content : string;
  gi_source_entity : string;
  gi_target_entity : string;
  gi_relationship_strength : Q;
  gi_relationship_distance : nat;
  gi_confidence : Q;
  gi_relevance : Q;
  gi_reasoning_type : string
}.

Inductive inference : Type :=
| Direct (r : query_result)
| ByRule (r : rule_inference)
| ByGraph (r : graph_inference).

(** [result.get("id", str(result))]: every record carries an id. *)
Definition inference_id (r : inference) : string :=
  match r with
  | Direct r => result_id r
  | ByRule r => ri_id r
  | ByGraph r => gi_id r
  end.

(** [x.get("relevance", 0)] *)
Definition inference_relevance (r : inference) : Q :=
  match r with
  | Direct r => relevance r
  | ByRule r => ri_relevance r
  | ByGraph r => gi_relevance r
  end.

Record engine : Type := mk_engine {
  knowledge_graph : store;
  reasoning_rules : list rule;
  inference_cache : gmap string (list inference)
}.

Definition new_engine (kg : store) : engine := mk_engine kg [] ∅.

(** [str(n)] for an [int]. *)
Definition str_int (n : Z) : string := NilZero.string_of_int (Z.to_int n).

Definition cache_key (query_text : string) (max_depth : Z) : string :=
  (query_text ++ "_" ++ str_int max_depth)%string.

Definition _apply_rules {L : CaseMapping}
    (query_text : string) (rules : list rule) : list inference :=
  let query_lower := lower query_text in
  flat_map (fun rl =>
              if existsb (fun premise => contains (lower premise) query_lower)
                         (rule_premises rl)
              then [ByRule (mk_rule_inference
                              ("inference_" ++ rule_id rl)%string "inference"
                              (rule_conclusion rl) (rule_name rl)
                              (rule_confidence rl) (7 # 10) "rule_based")]
              else [])
           rules.

Definition graph_inference_of (source : entity_result) (related : related_entity)
    : inference :=
  let target := re_entity related in
  ByGraph (mk_graph_inference
             ("graph_inference_" ++ er_id source ++ "_" ++ e_id target)%string
             "graph_inference"
             (er_name source ++ " is related to " ++ e_name target)%string
             (er_name source) (e_name target)
             (relationship_strength related) (relationship_distance related)
             (relationship_strength related)
             (relationship_strength related * (8 # 10))%Q
             "graph_based").

(** The loop of [_graph_reasoning] over the query results. *)
Fixpoint reason_over {L : CaseMapping}
    (query_results : list query_result) (max_depth : Z)
    (now : datetime) (kg : store) : outcome (list inference) * store :=
  match query_results with
  | [] => (Returned [], kg)
  | entity_result :: rest =>
      if String.eqb (result_type entity_result) "entity" then
        match find_related_entities (result_id entity_result) None max_depth now kg with
        | (Raised x, kg') => (Raised x, kg')
        | (Returned related_entities, kg') =>
            let here :=
              match entity_result with
              | EntityResult src => map (graph_inference_of src) related_entities
              | RelationResult _ => []
              end in
            match reason_over rest max_depth now kg' with
            | (Returned more, kg'') => (Returned (here ++ more), kg'')
            | (Raised x, kg'') => (Raised x, kg'')
            end
        end
      else reason_over rest max_depth now kg
  end.

Definition _graph_reasoning {L : CaseMapping}
    (query_text : string) (max_depth : Z)
    (now : datetime) (kg : store) : outcome (list inference) * store :=
  let query_lower := lower query_text in
  reason_over (query query_lower 10 kg) max_depth now kg.

Fixpoint unique_by_id (seen_ids : gset string) (results : list inference)
    : list inference :=
  match results with
  | [] => []
  | r :: rest =>
      if bool_decide (inference_id r ∈ seen_ids) then unique_by_id seen_ids rest
      else r :: unique_by_id (seen_ids ∪ {[inference_id r]}) rest
  end.

Definition infer {L : CaseMapping}
    (query_text : string) (max_depth : Z) (now : datetime)
    (en : engine) : outcome (list inference) * engine :=
  let key := cache_key query_text max_depth in
  match inference_cache en !! key with
  | Some cached => (Returned cached, en)
  | None =>
      let kg := knowledge_graph en in
      let direct_results := map Direct (query query_text 10 kg) in
      let rule_results := _apply_rules query_text (reasoning_rules en) in
      match _graph_reasoning query_text max_depth now kg with
      | (Raised x, kg') =>
          (Raised x, mk_engine kg' (reasoning_rules en) (inference_cache en))
      | (Returned graph_results, kg') =>
          let results := direct_results ++ rule_results ++ graph_results in
          let unique_results :=
            sort_desc inference_relevance (unique_by_id ∅ results) in
          let top := py_slice_to 10 unique_results in
          (Returned top,
           mk_engine kg' (reasoning_rules en) (<[key := top]> (inference_cache en)))
      end
  end.

Section Rules.

Variable timestamp_str : datetime → string.

Definition add_rule (payload : rule_payload) (now : datetime) (en : engine)
    : engine :=
  let rule_data :=
    mk_rule (default ("rule_" ++ timestamp_str now)%string (lp_id payload))
            (default "" (lp_name payload))
            (default [] (lp_premises payload))
            (default "" (lp_conclusion payload))
            (default 1%Q (lp_confidence payload))
            (default "forward" (lp_type payload)) in
  mk_engine (knowledge_graph en) (reasoning_rules en ++ [rule_data])
            (inference_cache en).

End Rules.

(** ** A concrete clock format and sample stores

    Instants are rendered and parsed in decimal. *)

Definition decimal_stamp (t : datetime) : string := str_int t.

Definition decimal_parse (text : string) : option datetime :=
  Z.of_int <$> NilZero.int_of_string text.

(** ** The relevance formula in the words of the specification *)

#[global] Instance Qlt_decision (x y : Q) : Decision (x < y)%Q :=
  match Qlt_le_dec x y with
  | left H => left H
  | right H => right (Qle_not_lt _ _ H)
  end.

(** A term of a score: [weight] when the test holds, no term otherwise. *)
Definition term (hit : bool) (weight : Q) : list Q := if hit then [weight] else [].

(** The binary64 sum of the terms, added from the left to 0.0. *)
Definition fsum (terms : list Q) : Q := foldl F64.add 0%Q terms.

(** [text] is a case-insensitive substring of [field]. *)
Definition matches {L : CaseMapping} (text field : string) : bool :=
  contains (lower text) (lower field).

(** 1.0 for the name, 0.8 for the description, 0.5 per attribute value,
    0.3 for the type, plus importance times 0.3. *)
Definition spec_entity_score {L : CaseMapping}
    (text : string) (e : entity) : Q :=
  fsum (term (matches text (e_name e)) 1
        ++ term (matches text (e_description e)) (8 # 10)
        ++ flat_map (λ v, term (matches text v) (5 # 10))
                    (Dict.values (e_attributes e))
        ++ term (matches text (e_type e)) (3 # 10)
        ++ [F64.mul (e_importance e) (3 # 10)]).

(** 0.8 for the type, plus importance times 0.2. *)
Definition spec_relation_score {L : CaseMapping}
    (text : string) (r : relation) : Q :=
  fsum (term (matches text (r_type r)) (8 # 10)
        ++ [F64.mul (r_importance r) (2 # 10)]).

(** Every live entity and every relation with a positive score, each with
    its result record. *)
Definition matching {L : CaseMapping}
    (text : string) (s : store) : list query_result :=
  map (λ e, EntityResult (entity_hit e (entity_relevance (lower text) e)))
      (filter (λ e, (0 < spec_entity_score text e)%Q) (Dict.values (entities s)))
  ++ map (λ r, RelationResult (relation_hit s r (relation_relevance (lower text) r)))
         (filter (λ r, (0 < spec_relation_score text r)%Q) (Dict.values (relations s))).

(** The stored type tag replaced. *)
Definition retag_entity (tag : string) (e : entity) : entity :=
  mk_entity (e_id e) (e_name e) tag (e_attributes e) (e_description e)
            (e_importance e) (e_created_at e) (e_last_accessed e)
            (e_access_count e) (e_confidence e).

Definition retag_relation (tag : string) (r : relation) : relation :=
  mk_relation (r_id r) (r_source r) (r_target r) tag (r_attributes r)
              (r_importance r) (r_confidence r) (r_created_at r)
              (r_bidirectional r).

(** ** Index consistency *)

(** Every stored entity is listed under its type and under each of its
    attribute items. *)
Definition index_complete (s : store) : Prop :=
  ∀ k e, Dict.get k (entities s) = Some e →
    e_id e ∈ default ∅ (type_index s !! e_type e)
    ∧ ∀ a v, (a, v) ∈ e_attributes e →
        e_id e ∈ default ∅ (default ∅ (attribute_index s !! a) !! v).

(** Every id listed in an index is the id of a stored entity. *)
Definition index_sound (s : store) : Prop :=
  (∀ ty ids x, type_index s !! ty = Some ids → x ∈ ids →
     Dict.mem x (entities s) = true)
  ∧ (∀ a by_value v ids x,
       attribute_index s !! a = Some by_value → by_value !! v = Some ids →
       x ∈ ids → Dict.mem x (entities s) = true).

(** ** Sample payloads and stores *)

Definition entity_named (id name type : string) (importance : Q) : entity_payload :=
  mk_entity_payload (Some id) (Some name) (Some type) None None
                    (Some importance) None.

Definition relation_between (source target type : string) (bidirectional : bool)
    : relation_payload :=
  mk_relation_payload (Some source) (Some target) (Some type) None None None
                      (Some bidirectional).

(** Two entities and one bidirectional relation, in a store with room for
    two entities and one relation. *)
Definition store_empty : store := empty_store (mk_config 2 1) 0.

Definition store_a : store :=
  (add_entity decimal_stamp (entity_named "a" "A" "person" (1 # 10)) 1 store_empty).2.

Definition store_ab : store :=
  (add_entity decimal_stamp (entity_named "b" "B" "person" (9 # 10)) 2 store_a).2.

Definition store_owns : store :=
  (add_relation decimal_stamp (relation_between "a" "b" "owns" true) 3 store_ab).2.

(** Three entities exported and imported into a store configured for two. *)
Definition store_abc : store :=
  (add_entity decimal_stamp (entity_named "c" "C" "place" (5 # 10)) 3
     (add_entity decimal_stamp (entity_named "b" "B" "person" (9 # 10)) 2
        (add_entity decimal_stamp (entity_named "a" "A" "person" (1 # 10)) 1
           (empty_store (mk_config 3 3) 0)).2).2).2.

(** The dictionary that [to_dict] returns, empty when it raises. *)
Definition exported (s : store) : export :=
  match to_dict decimal_stamp s with
  | Returned data => data
  | Raised _ => mk_export None None None None None
  end.

Definition store_imported : store :=
  (from_dict decimal_parse (exported store_abc) store_empty).2.

(** An id inserted twice with two type tags, then removed. *)
Definition store_retyped : store :=
  (add_entity decimal_stamp (entity_named "a" "A" "place" (1 # 10)) 2 store_a).2.

Definition store_retyped_removed : store := (remove_entity "a" 3 store_retyped).2.

(** Stores on which rounding decides the outcome.  [store_xy]: [x] with
    importance 0.9 never read, then [y] with importance 0.6 read five times;
    the keys are 0.9 and 0.8999999999999999.  [store_ba]: [B] with
    importance 0.8500000000000001 never read, then [A] with importance 0.5
    read seven times; both keys are 0.8500000000000001.  [store_tie]: two
    entities named "x" with importance 0 and 1e-17; both relevances are 1.0.
    [store_er]: two entities with importance 0.6 and a relation with
    importance 0.9; the relevances are 0.18 and 0.18000000000000002.
    [store_tiny]: one entity with the least positive importance, whose
    product with 0.3 is 0.0. *)
Fixpoint read_times (n : nat) (entity_id : string) (now : datetime) (s : store)
    : store :=
  match n with
  | O => s
  | S n' => read_times n' entity_id now (get_entity entity_id now s).2
  end.

Definition store_xy : store :=
  read_times 5 "y" 3
    (add_entity decimal_stamp (entity_named "y" "Y" "thing" (6 # 10)) 2
       (add_entity decimal_stamp (entity_named "x" "X" "thing" (9 # 10)) 1
          (empty_store (mk_config 2 5) 0)).2).2.

Definition store_ba : store :=
  read_times 7 "A" 3
    (add_entity decimal_stamp (entity_named "A" "A" "thing" (5 # 10)) 2
       (add_entity decimal_stamp
          (entity_named "B" "B" "thing" (8500000000000001 # 10000000000000000)) 1
          (empty_store (mk_config 2 5) 0)).2).2.

Definition store_tie : store :=
  (add_entity decimal_stamp
     (entity_named "e2" "x" "thing" (1 # 100000000000000000)) 2
     (add_entity decimal_stamp (entity_named "e1" "x" "thing" 0) 1
        (empty_store (mk_config 5 5) 0)).2).2.

Definition store_er : store :=
  (add_relation decimal_stamp
     (mk_relation_payload (Some "e") (Some "f") (Some "knows") None
                          (Some (9 # 10)) None None) 3
     (add_entity decimal_stamp (entity_named "f" "F" "thing" (6 # 10)) 2
        (add_entity decimal_stamp (entity_named "e" "E" "thing" (6 # 10)) 1
           (empty_store (mk_config 5 5) 0)).2).2).2.

Definition store_tiny : store :=
  (add_entity decimal_stamp (entity_named "e" "E" "thing" (Qpower 2 (-1074))) 1
     (empty_store (mk_config 5 5) 0)).2.

(** ** What a read may change *)

(** [e] is [e0] after one successful read at [now]. *)
Definition read_once (now : datetime) (e0 e : entity) : Prop :=
  e_access_count e = e_access_count e0 + 1
  ∧ e_last_accessed e = now
  ∧ e_id e = e_id e0 ∧ e_name e = e_name e0 ∧ e_type e = e_type e0
  ∧ e_attributes e = e_attributes e0 ∧ e_description e = e_description e0
  ∧ e_importance e = e_importance e0 ∧ e_created_at e = e_created_at e0
  ∧ e_confidence e = e_confidence e0.

(** The effect of a read-style call that returned the copies [returned]:
    only the Entity map differs, it has the same keys, every stored entity
    is as before or read once, and every returned copy is the stored record
    of an entity read once. *)
Definition reads_only (now : datetime) (s s' : store) (returned : list entity) : Prop :=
  s' = with_entities (entities s') s
  ∧ Dict.keys (entities s') = Dict.keys (entities s)
  ∧ (∀ k e, Dict.get k (entities s') = Some e →
       ∃ e0, Dict.get k (entities s) = Some e0 ∧ (e = e0 ∨ read_once now e0 e))
  ∧ (∀ e, e ∈ returned →
       ∃ k e0, Dict.get k (entities s) = Some e0
               ∧ Dict.get k (entities s') = Some e
               ∧ read_once now e0 e).

(** The state reached by a run of reads over pairwise distinct keys. *)
Definition read_trace (now : datetime) (ks : list string) (s s' : store) : Prop :=
  s' = with_entities (entities s') s
  ∧ Dict.keys (entities s') = Dict.keys (entities s)
  ∧ ∀ k, Dict.get k (entities s')
         = if bool_decide (k ∈ ks) then touch now <$> Dict.get k (entities s)
           else Dict.get k (entities s).

(** The record built for a target at distance [d]. *)
Definition related_at (now : datetime) (e0 : entity) (d : nat) : related_entity :=
  mk_related_entity (touch now e0) d (1 / inject_Z (Z.of_nat d + 1))%Q.

(** ** Later events at the reasoning engine *)




(** ** Sequences of store operations *)

Inductive kg_op : Type :=
| InsertEntity (payload : entity_payload) (now : datetime)
| InsertRelation (payload : relation_payload) (now : datetime)
| RemoveEntity (entity_id : string) (now : datetime)
| RemoveRelation (relation_id : string) (now : datetime)
| EvictEntity (now : datetime)
| EvictRelation (now : datetime).

Definition run_op (timestamp_str : datetime → string) (op : kg_op) (s : store)
    : store :=
  match op with
  | InsertEntity payload now => (add_entity timestamp_str payload now s).2
  | InsertRelation payload now => (add_relation timestamp_str payload now s).2
  | RemoveEntity entity_id now => (remove_entity entity_id now s).2
  | RemoveRelation relation_id now => (remove_relation relation_id now s).2
  | EvictEntity now => _remove_least_important_entity now s
  | EvictRelation now => _remove_least_important_relation now s
  end.

Definition run_ops (timestamp_str : datetime → string) (ops : list kg_op)
    (s : store) : store :=
  foldl (λ s op, run_op timestamp_str op s) s ops.

(** Every entity is stored under its own id. *)
Definition keyed (s : store) : Prop :=
  ∀ k e, Dict.get k (entities s) = Some e → e_id e = k.

(** ** Structural consistency of a store *)

(** Both endpoints of every relation are stored entities, and every relation
    is stored under its own id. *)
Definition references_live (s : store) : Prop :=
  ∀ k r, Dict.get k (relations s) = Some r →
    r_id r = k
    ∧ Dict.mem (r_source r) (entities s) = true
    ∧ Dict.mem (r_target r) (entities s) = true.

(** The nodes of the graph are the stored entity ids. *)
Definition nodes_are_entities (s : store) : Prop :=
  ∀ k, Graph.has_node k (graph s) = Dict.mem k (entities s).

(** The store on which an insertion works after its capacity check. *)
Definition after_entity_capacity_check (now : datetime) (s : store) : store :=
  if Z.of_nat (length (entities s)) >=? max_entities (cfg s)
  then _remove_least_important_entity now s
  else s.

Definition after_relation_capacity_check (now : datetime) (s : store) : store :=
  if Z.of_nat (length (relations s)) >=? max_relations (cfg s)
  then _remove_least_important_relation now s
  else s.

(** The records that the two insertions build. *)
Definition entity_of_payload (timestamp_str : datetime → string)
    (payload : entity_payload) (now : datetime) : entity :=
  mk_entity (entity_id_of timestamp_str payload now)
    (default "" (ep_name payload))
    (default "unknown" (ep_type payload))
    (default [] (ep_attributes payload))
    (default "" (ep_description payload))
    (default (5 # 10)%Q (ep_importance payload))
    now now 0
    (default 1%Q (ep_confidence payload)).

Definition relation_of_payload (timestamp_str : datetime → string)
    (payload : relation_payload) (now : datetime) (source_id target_id : string)
    : relation :=
  mk_relation ("rel_" ++ timestamp_str now)%string source_id target_id
    (default "related_to" (rp_type payload))
    (default [] (rp_attributes payload))
    (default (5 # 10)%Q (rp_importance payload))
    (default 1%Q (rp_confidence payload))
    now
    (default false (rp_bidirectional payload)).

Definition reverse_of (rel : relation) : relation :=
  mk_relation ("reverse_" ++ r_id rel)%string (r_target rel) (r_source rel)
    (r_type rel) (r_attributes rel) (r_importance rel) (r_confidence rel)
    (r_created_at rel) (r_bidirectional rel).

(** Every id listed in an index is stored with that type, or with that
    attribute item. *)
Definition index_exact (s : store) : Prop :=
  (∀ ty x, x ∈ default ∅ (type_index s !! ty) →
     ∃ e, Dict.get x (entities s) = Some e ∧ e_type e = ty)
  ∧ (∀ a v x, x ∈ default ∅ (default ∅ (attribute_index s !! a) !! v) →
       ∃ e, Dict.get x (entities s) = Some e ∧ (a, v) ∈ e_attributes e).

(** No entity is inserted under an id that is stored at that moment. *)
Definition fresh_op (timestamp_str : datetime → string) (op : kg_op) (s : store)
    : Prop :=
  match op with
  | InsertEntity payload now =>
      Dict.mem (entity_id_of timestamp_str payload now) (entities s) = false
  | _ => True
  end.

Fixpoint fresh_run (timestamp_str : datetime → string) (ops : list kg_op)
    (s : store) : Prop :=
  match ops with
  | [] => True
  | op :: rest =>
      fresh_op timestamp_str op s
      ∧ fresh_run timestamp_str rest (run_op timestamp_str op s)
  end.

(** An engine over [store_owns] with one rule about "a". *)
Definition engine_with_rule : engine :=
  add_rule decimal_stamp
    (mk_rule_payload (Some "r1") (Some "letter") (Some ["a"]) (Some "A is a letter")
                     None None)
    4 (new_engine store_owns).

(** What [_graph_reasoning] synthesizes from one related entity. *)
Definition weak_graph_inference (i : inference) : Prop :=
  ∃ g, i = ByGraph g
       ∧ gi_confidence g = gi_relationship_strength g
       ∧ (0 < gi_confidence g)%Q ∧ (gi_confidence g <= 1 # 2)%Q
       ∧ (gi_relevance g <= 4 # 10)%Q
       ∧ gi_reasoning_type g = "graph_based".

(** ** Timestamps of a store *)

(** Every timestamp field of the two maps holds a [datetime]. *)
Definition timestamps_are_instants (s : store) : Prop :=
  (∀ k e, (k, e) ∈ entities s →
     ∃ created accessed : datetime,
       e_created_at e = Instant created ∧ e_last_accessed e = Instant accessed)
  ∧ (∀ k r, (k, r) ∈ relations s →
       ∃ created : datetime, r_created_at r = Instant created).

(** ** Distinct keys and capacity *)

(** The three dictionaries of a store have pairwise distinct keys, as Python
    dictionaries do. *)
Definition distinct_keys (s : store) : Prop :=
  Dict.wf (entities s) ∧ Dict.wf (relations s) ∧ Dict.wf (graph s).

(** Both maps hold at most their configured number of items; a limit below
    one counts as one. *)
Definition within_capacity (s : store) : Prop :=
  Z.of_nat (length (entities s)) ≤ Z.max 1 (max_entities (cfg s))
  ∧ Z.of_nat (length (relations s)) ≤ Z.max 1 (max_relations (cfg s)).

(** ** Maintenance sweep *)

Definition negligible_entity (item : string * entity) : bool :=
  Qlt_bool (e_importance item.2) (1 # 10) && (e_access_count item.2 =? 0).

Definition negligible_relation (item : string * relation) : bool :=
  Qlt_bool (r_importance item.2) (1 # 10).

(** [cleanup]: both lists are collected before the removals of their sweep;
    the relation list is collected after the entity sweep. *)
Definition cleanup (now : datetime) (s : store) : store :=
  let entities_to_remove :=
    Dict.keys (filter (λ item, negligible_entity item) (entities s)) in
  let s := foldl (λ s eid, (remove_entity eid now s).2) s entities_to_remove in
  let relations_to_remove :=
    Dict.keys (filter (λ item, negligible_relation item) (relations s)) in
  foldl (λ s rid, (remove_relation rid now s).2) s relations_to_remove.

(** ** Confidence commentary of the reasoning engine *)

(** [inference.get("confidence", 0)] *)
Definition inference_confidence (r : inference) : Q :=
  match r with
  | Direct (EntityResult r) => er_confidence r
  | Direct (RelationResult r) => rr_confidence r
  | ByRule r => ri_confidence r
  | ByGraph r => gi_confidence r
  end.

(** [inference.get("reasoning_type", "")]: stored records carry no such key. *)
Definition inference_reasoning_type (r : inference) : string :=
  match r with
  | Direct _ => ""
  | ByRule r => ri_reasoning_type r
  | ByGraph r => gi_reasoning_type r
  end.

Definition _analyze_confidence_factors (r : inference) : list string :=
  let confidence := inference_confidence r in
  let factors :=
    if Qlt_bool (8 # 10) confidence
    then ["High confidence based on strong evidence"]
    else if Qlt_bool (6 # 10) confidence
    then ["Moderate confidence based on available evidence"]
    else ["Lower confidence due to limited evidence"] in
  let reasoning_type := inference_reasoning_type r in
  if String.eqb reasoning_type "rule_based"
  then factors ++ ["Based on established reasoning rules"]
  else if String.eqb reasoning_type "graph_based"
  then factors ++ ["Based on knowledge graph relationships"]
  else factors.

(** ** Walks in the multigraph *)

(** [walk g a b n]: [n] edges of [g] lead from [a] to [b]. *)
Inductive walk (g : Graph.t) : string → string → nat → Prop :=
| walk_here (a : string) : walk g a a 0
| walk_step (a b c : string) (n : nat) :
    walk g a b n → c ∈ Graph.successors b g → walk g a c (S n).

(** * Properties *)

(** ** Dictionaries *)

Module DictFacts.
Import Dict.

Section Facts.
Context {V : Type}.
Implicit Types (k : string) (v : V) (d : t V).

Lemma get_set_eq k v d : get k (set k v d) = Some v.
Proof.
  induction d as [|[k' v'] d IH]; simpl.
  - by rewrite String.eqb_refl.
  - destruct (String.eqb_spec k k') as [->|Hne]; simpl.
    + by rewrite String.eqb_refl.
    + by destruct (String.eqb_spec k k').
Qed.

Lemma get_set_ne k k' v d : k ≠ k' → get k' (set k v d) = get k' d.
Proof.
  intros Hne. induction d as [|[k0 v0] d IH]; simpl.
  - by destruct (String.eqb_spec k' k) as [->|].
  - destruct (String.eqb_spec k k0) as [->|Hk]; simpl.
    + by destruct (String.eqb_spec k' k0) as [->|].
    + by rewrite IH.
Qed.

Lemma get_set k k' v d :
  get k' (set k v d) = if String.eqb k k' then Some v else get k' d.
Proof.
  destruct (String.eqb_spec k k') as [->|Hne].
  - apply get_set_eq.
  - by apply get_set_ne.
Qed.

Lemma get_del_eq k d : get k (del k d) = None.
Proof.
  induction d as [|[k' v'] d IH]; simpl; [done|].
  destruct (String.eqb_spec k k') as [->|Hne]; simpl; [done|].
  by destruct (String.eqb_spec k k').
Qed.

Lemma get_del_ne k k' d : k ≠ k' → get k' (del k d) = get k' d.
Proof.
  intros Hne. induction d as [|[k0 v0] d IH]; simpl; [done|].
  destruct (String.eqb_spec k k0) as [->|Hk]; simpl.
  - by destruct (String.eqb_spec k' k0) as [->|].
  - by rewrite IH.
Qed.

Lemma get_None_notin k d : get k d = None ↔ k ∉ keys d.
Proof.
  induction d as [|[k' v'] d IH]; simpl.
  - split; [intros _; apply not_elem_of_nil|done].
  - rewrite not_elem_of_cons.
    destruct (String.eqb_spec k k') as [->|Hne]; [intuition congruence|].
    rewrite IH. intuition congruence.
Qed.

Lemma mem_true k d : mem k d = true ↔ k ∈ keys d.
Proof.
  unfold mem. destruct (get k d) eqn:E.
  - split; [intros _|done].
    destruct (decide (k ∈ keys d)) as [|Hn]; [done|].
    apply get_None_notin in Hn. congruence.
  - split; [done|]. intros Hin. by apply get_None_notin in E.
Qed.

Lemma mem_false k d : mem k d = false ↔ get k d = None.
Proof. unfold mem. destruct (get k d); naive_solver. Qed.

Lemma get_Some_elem k v d : get k d = Some v → (k, v) ∈ d.
Proof.
  induction d as [|[k' v'] d IH]; simpl; [done|].
  destruct (String.eqb_spec k k') as [->|Hne].
  - intros [= ->]. apply list_elem_of_here.
  - intros H. apply list_elem_of_further. auto.
Qed.

Lemma elem_get k v d : wf d → (k, v) ∈ d → get k d = Some v.
Proof.
  unfold wf. induction d as [|[k' v'] d IH]; simpl.
  - intros _ H. by apply elem_of_nil in H.
  - rewrite NoDup_cons. intros [Hnotin Hnd] Hin.
    apply elem_of_cons in Hin as [[= -> ->]|Hin].
    + by rewrite String.eqb_refl.
    + destruct (String.eqb_spec k k') as [->|Hne]; [|auto].
      exfalso. apply Hnotin. unfold keys.
      apply (list_elem_of_fmap_2 fst) in Hin. done.
Qed.

Lemma del_absent k d : get k d = None → del k d = d.
Proof.
  induction d as [|[k' v'] d IH]; simpl; [done|].
  destruct (String.eqb_spec k k') as [->|Hne]; [done|].
  intros H. by rewrite IH.
Qed.

Lemma keys_set k v d :
  keys (set k v d) = if mem k d then keys d else keys d ++ [k].
Proof.
  unfold mem. induction d as [|[k' v'] d IH]; simpl; [done|].
  destruct (String.eqb_spec k k') as [->|Hne]; simpl; [done|].
  rewrite IH. by destruct (get k d).
Qed.

Lemma length_set k v d :
  length (set k v d) = if mem k d then length d else S (length d).
Proof.
  unfold mem. induction d as [|[k' v'] d IH]; simpl; [done|].
  destruct (String.eqb_spec k k') as [->|Hne]; simpl; [done|].
  rewrite IH. by destruct (get k d).
Qed.

Lemma keys_del k d : keys (del k d) = filter (λ k', k' ≠ k) (keys d).
Proof.
  induction d as [|[k' v'] d IH]; simpl; [done|].
  destruct (String.eqb_spec k k') as [->|Hne].
  - rewrite filter_cons_False by naive_solver. done.
  - rewrite filter_cons_True by naive_solver. simpl. by rewrite IH.
Qed.

Lemma wf_nil : wf ([] : t V).
Proof. apply NoDup_nil_2. Qed.

Lemma wf_set k v d : wf d → wf (set k v d).
Proof.
  unfold wf. rewrite keys_set. intros Hnd.
  destruct (mem k d) eqn:E; [done|].
  apply NoDup_app. split_and!; [done| |apply NoDup_singleton].
  intros x Hx ->%list_elem_of_singleton.
  apply mem_false, get_None_notin in E. done.
Qed.

Lemma wf_del k d : wf d → wf (del k d).
Proof. unfold wf. rewrite keys_del. apply NoDup_filter. Qed.

Lemma length_del k d :
  wf d → mem k d = true → S (length (del k d)) = length d.
Proof.
  unfold wf. induction d as [|[k' v'] d IH]; simpl.
  - intros _. unfold mem. simpl. done.
  - rewrite NoDup_cons. intros [Hnotin Hnd]. unfold mem. simpl.
    destruct (String.eqb_spec k k') as [->|Hne].
    + intros _. rewrite del_absent; [done|]. by apply get_None_notin.
    + intros Hm. simpl. f_equal. apply IH; [done|].
      unfold mem. done.
Qed.

Lemma elem_values_get v d : v ∈ values d → ∃ k, (k, v) ∈ d.
Proof.
  unfold values. intros ([k v'] & -> & Hin)%list_elem_of_fmap. eauto.
Qed.

End Facts.
End DictFacts.

(** Projections of updated stores. *)
Ltac store_simpl :=
  cbn [cfg entities relations graph type_index attribute_index creation_time
       last_updated with_entities with_relations with_graph with_type_index
       with_attribute_index with_last_updated fst snd].

Tactic Notation "store_simpl" "in" hyp(H) :=
  cbn [cfg entities relations graph type_index attribute_index creation_time
       last_updated with_entities with_relations with_graph with_type_index
       with_attribute_index with_last_updated fst snd] in H.

(** ** Comparisons, sorting and slicing *)

Lemma Qlt_bool_true (x y : Q) : Qlt_bool x y = true ↔ (x < y)%Q.
Proof.
  unfold Qlt_bool. rewrite negb_true_iff. split.
  - intros H. apply Qnot_le_lt. intros Hle. apply Qle_bool_iff in Hle. congruence.
  - intros Hlt. destruct (Qle_bool y x) eqn:E; [|done].
    apply Qle_bool_iff in E. exfalso. by apply (Qlt_not_le x y).
Qed.

Lemma Qlt_bool_false (x y : Q) : Qlt_bool x y = false ↔ (y <= x)%Q.
Proof.
  unfold Qlt_bool. rewrite negb_false_iff. apply Qle_bool_iff.
Qed.

Lemma elem_of_take_inv {A : Type} (n : nat) (x : A) (xs : list A) :
  x ∈ take n xs → x ∈ xs.
Proof.
  intros H. rewrite <-(take_drop n xs). apply elem_of_app. by left.
Qed.

Section Sorting.
Context {A : Type} (key : A → Q).

Lemma insert_desc_perm (x : A) (xs : list A) : insert_desc key x xs ≡ₚ x :: xs.
Proof.
  induction xs as [|y xs IH]; simpl; [done|].
  destruct (Qlt_bool (key x) (key y)); [|done].
  rewrite IH. apply Permutation_swap.
Qed.

Lemma sort_desc_perm (xs : list A) : sort_desc key xs ≡ₚ xs.
Proof.
  induction xs as [|x xs IH]; simpl; [done|].
  rewrite insert_desc_perm. by rewrite IH.
Qed.

Lemma elem_of_sort_desc (x : A) (xs : list A) : x ∈ sort_desc key xs ↔ x ∈ xs.
Proof. by rewrite sort_desc_perm. Qed.

Lemma length_sort_desc (xs : list A) : length (sort_desc key xs) = length xs.
Proof. by rewrite sort_desc_perm. Qed.

Lemma insert_desc_descending (x : A) (xs : list A) :
  descending key xs → descending key (insert_desc key x xs).
Proof.
  unfold descending. induction xs as [|y xs IH]; simpl; intros Hs.
  - repeat constructor.
  - apply StronglySorted_inv in Hs as [Hs Hall].
    destruct (Qlt_bool (key x) (key y)) eqn:E.
    + constructor; [auto|].
      rewrite insert_desc_perm. constructor; [|done].
      apply Qlt_bool_true in E. by apply Qlt_le_weak.
    + apply Qlt_bool_false in E.
      constructor; [by constructor|].
      constructor; [done|].
      eapply Forall_impl; [exact Hall|]. simpl. intros z Hz.
      by apply Qle_trans with (key y).
Qed.

Lemma sort_desc_descending (xs : list A) : descending key (sort_desc key xs).
Proof.
  induction xs as [|x xs IH]; simpl; [constructor|].
  by apply insert_desc_descending.
Qed.

Lemma descending_take (n : nat) (xs : list A) :
  descending key xs → descending key (take n xs).
Proof.
  unfold descending. intros Hs. revert n.
  induction Hs as [|x xs Hs IH Hall]; intros [|n]; simpl; try constructor.
  - apply IH.
  - apply Forall_forall. intros y Hy.
    rewrite Forall_forall in Hall. apply Hall.
    by eapply elem_of_take_inv.
Qed.

End Sorting.

Lemma py_slice_to_take {A : Type} (limit : Z) (xs : list A) :
  ∃ n, py_slice_to limit xs = take n xs.
Proof. unfold py_slice_to. destruct (0 <=? limit); eauto. Qed.

Lemma py_slice_to_nonneg {A : Type} (limit : Z) (xs : list A) :
  0 ≤ limit → py_slice_to limit xs = take (Z.to_nat limit) xs.
Proof.
  intros H. unfold py_slice_to. by destruct (Z.leb_spec 0 limit); [|lia].
Qed.

Lemma elem_of_py_slice_to {A : Type} (limit : Z) (x : A) (xs : list A) :
  x ∈ py_slice_to limit xs → x ∈ xs.
Proof.
  destruct (py_slice_to_take limit xs) as [n ->]. apply elem_of_take_inv.
Qed.

(** ** Query engine: relevance and ranking *)

Lemma bump_term (hit : bool) (w r : Q) : bump hit w r = foldl F64.add r (term hit w).
Proof. by destruct hit. Qed.

Lemma attribute_loop {L : CaseMapping}
    (q : string) (vs : list string) (r0 : Q) :
  foldl (λ rel v, bump (contains q (lower v)) (5 # 10) rel) r0 vs
  = foldl F64.add r0 (flat_map (λ v, term (contains q (lower v)) (5 # 10)) vs).
Proof.
  revert r0. induction vs as [|v vs IH]; intros r0; cbn [foldl flat_map]; [done|].
  by rewrite IH, foldl_app, bump_term.
Qed.

Lemma entity_relevance_spec {L : CaseMapping} (text : string) (e : entity) :
  entity_relevance (lower text) e = spec_entity_score text e.
Proof.
  unfold entity_relevance, spec_entity_score, fsum, matches.
  rewrite !foldl_app. cbn [foldl].
  by rewrite !bump_term, attribute_loop.
Qed.

Lemma relation_relevance_spec {L : CaseMapping} (text : string) (r : relation) :
  relation_relevance (lower text) r = spec_relation_score text r.
Proof.
  unfold relation_relevance, spec_relation_score, fsum, matches.
  rewrite foldl_app. cbn [foldl]. by rewrite bump_term.
Qed.

Lemma flat_map_guard {A B : Type} (P : A → Prop) `{!∀ x, Decision (P x)}
    (guard : A → bool) (f : A → B) (xs : list A) :
  (∀ x, guard x = true ↔ P x) →
  flat_map (λ x, if guard x then [f x] else []) xs = map f (filter P xs).
Proof.
  intros Hg. induction xs as [|x xs IH]; simpl; [done|].
  destruct (guard x) eqn:E.
  - rewrite filter_cons_True by (by apply Hg). simpl. by rewrite IH.
  - rewrite filter_cons_False; [done|]. rewrite <-Hg. congruence.
Qed.

Lemma search_matching {L : CaseMapping} (text : string) (s : store) :
  search_entities (lower text) s ++ search_relations (lower text) s = matching text s.
Proof.
  unfold search_entities, search_relations, matching. f_equal.
  - apply (flat_map_guard (λ e, (0 < spec_entity_score text e)%Q)
             (λ e, Qlt_bool 0 (entity_relevance (lower text) e))).
    intros e. rewrite entity_relevance_spec. apply Qlt_bool_true.
  - apply (flat_map_guard (λ r, (0 < spec_relation_score text r)%Q)
             (λ r, Qlt_bool 0 (relation_relevance (lower text) r))).
    intros r. rewrite relation_relevance_spec. apply Qlt_bool_true.
Qed.

(** C5. [query] scores every live entity 1.0 for a name match, 0.8 for a
    description match, 0.5 per matching attribute value, 0.3 for a type
    match, plus importance times 0.3, and every relation 0.8 for a type match
    plus importance times 0.2 (matches are case-insensitive substring
    tests, a score is the binary64 sum of its terms in this order); it keeps
    the records with a positive score, entities and relations together,
    sorts them by descending relevance and returns the slice
    [ranked[:limit]], which for a limit of zero or more is the first [limit]
    records. *)
Theorem query_ranks_matching {L : CaseMapping}
    (text : string) (limit : Z) (s : store) :
  ∃ ranked : list query_result,
    ranked ≡ₚ matching text s
    ∧ descending relevance ranked
    ∧ query text limit s = py_slice_to limit ranked
    ∧ (0 ≤ limit →
       query text limit s = take (Z.to_nat limit) ranked
       ∧ (length (query text limit s) ≤ Z.to_nat limit)%nat)
    ∧ (∀ e, entity_relevance (lower text) e = spec_entity_score text e)
    ∧ (∀ r, relation_relevance (lower text) r = spec_relation_score text r).
Proof.
  exists (sort_desc relevance (matching text s)).
  assert (query text limit s
          = py_slice_to limit (sort_desc relevance (matching text s))) as Hq.
  { unfold query. by rewrite search_matching. }
  split_and!.
  - apply sort_desc_perm.
  - apply sort_desc_descending.
  - exact Hq.
  - intros Hl. rewrite Hq, py_slice_to_nonneg by done. split; [done|].
    rewrite length_take. lia.
  - apply entity_relevance_spec.
  - apply relation_relevance_spec.
Qed.

(** Rounding in the scores: equal relevances keep the order of the Entity
    map, a relation can outrank an entity by the last bit, and a product
    that rounds to 0.0 gives no result. *)
Lemma relevance_is_rounded :
  map result_id (query (L := ascii_text) "x" 1 store_tie) = ["e1"]
  ∧ map result_id (query (L := ascii_text) "zzz" 10 store_er) = ["rel_3"; "e"; "f"]
  ∧ query (L := ascii_text) "zzz" 10 store_tiny = [].
Proof. vm_compute. done. Qed.

(** ** Query engine: the type field of a result *)

Lemma entity_hit_retag (tag : string) (e : entity) (rel : Q) :
  entity_hit (retag_entity tag e) rel = entity_hit e rel.
Proof. reflexivity. Qed.

Lemma relation_hit_retag (tag : string) (s : store) (r : relation) (rel : Q) :
  relation_hit s (retag_relation tag r) rel = relation_hit s r rel.
Proof. reflexivity. Qed.

Lemma elem_of_query {L : CaseMapping}
    (text : string) (limit : Z) (s : store) (r : query_result) :
  r ∈ query text limit s →
  (∃ e, e ∈ Dict.values (entities s)
        ∧ r = EntityResult (entity_hit e (entity_relevance (lower text) e)))
  ∨ (∃ rl, rl ∈ Dict.values (relations s)
           ∧ r = RelationResult (relation_hit s rl (relation_relevance (lower text) rl))).
Proof.
  unfold query. intros H%elem_of_py_slice_to%elem_of_sort_desc.
  rewrite search_matching in H. unfold matching in H.
  apply elem_of_app in H as [H|H]; apply list_elem_of_fmap in H as (x & -> & Hx);
    apply list_elem_of_filter in Hx as [_ Hx]; eauto.
Qed.

(** C10. In every list returned by [query] the type field of an entity
    result is the text "entity" and that of a relation result is the text
    "relation": the record is built from a live entity (or a relation) with
    the stored type written over, so the same record comes out whatever the
    stored type tag was, although the relevance it carries was computed from
    that tag. *)
Theorem query_result_type_overwritten {L : CaseMapping}
    (text : string) (limit : Z) (s : store) (r : query_result) :
  r ∈ query text limit s →
  match r with
  | EntityResult er =>
      er_type er = "entity"
      ∧ ∃ e, e ∈ Dict.values (entities s)
             ∧ er_relevance er = entity_relevance (lower text) e
             ∧ ∀ tag, er = entity_hit (retag_entity tag e) (er_relevance er)
  | RelationResult rr =>
      rr_type rr = "relation"
      ∧ ∃ rl, rl ∈ Dict.values (relations s)
              ∧ rr_relevance rr = relation_relevance (lower text) rl
              ∧ ∀ tag, rr = relation_hit s (retag_relation tag rl) (rr_relevance rr)
  end.
Proof.
  intros [(e & He & ->)|(rl & Hrl & ->)]%elem_of_query.
  - split; [done|]. exists e. split_and!; done.
  - split; [done|]. exists rl. split_and!; done.
Qed.

Lemma query_result_type_overwritten_witness :
  ∃ r, r ∈ query (L := ascii_text) "b" 10 store_owns ∧ result_type r = "entity".
Proof.
  pose (b := mk_entity "b" "B" "person" [] "" (9 # 10) 2 2 0 1).
  pose (r := EntityResult
               (entity_hit b (entity_relevance (L := ascii_text)
                                               (ascii_lower "b") b))).
  assert (r ∈ query (L := ascii_text) "b" 10 store_owns) as Hin.
  { vm_compute. apply list_elem_of_here. }
  exists r. split; [exact Hin|].
  exact (proj1 (query_result_type_overwritten "b" 10 store_owns r Hin)).
Defined.

(** ** Relation insertion with a dangling endpoint *)

Lemma length_string_app (a b : string) :
  String.length (a ++ b)%string = (String.length a + String.length b)%nat.
Proof. induction a as [|c a IH]; simpl; [done|]. by rewrite IH. Qed.

Lemma reverse_id_neq (rid : string) : ("reverse_" ++ rid)%string ≠ rid.
Proof.
  intros H. apply (f_equal String.length) in H.
  rewrite length_string_app in H. simpl in H. lia.
Qed.

Section AddRelation.
Variable timestamp_str : datetime → string.

(** Below capacity a rejected payload leaves the store as it was. *)
Lemma add_relation_rejected_below_capacity
    (payload : relation_payload) (now : datetime) (s : store) :
  Z.of_nat (length (relations s)) < max_relations (cfg s) →
  is_entity (rp_source payload) s && is_entity (rp_target payload) s = false →
  add_relation timestamp_str payload now s = (Raised ValueError, s).
Proof.
  intros Hroom Hbad. unfold add_relation.
  destruct (Z.geb_spec (Z.of_nat (length (relations s))) (max_relations (cfg s)));
    [lia|].
  unfold is_entity in Hbad.
  destruct (rp_source payload) as [src|], (rp_target payload) as [tgt|];
    try done.
  destruct (Dict.mem src (entities s)), (Dict.mem tgt (entities s)); done.
Qed.
End AddRelation.

(** C1. A relation payload whose source is not a live entity is rejected with
    [ValueError], but in a store that holds [max_relations] relations the
    capacity check has already evicted one: here the only relation of
    [store_owns] and both of its graph edges are gone after the failed
    call. *)
Theorem add_relation_rejected_at_capacity_evicts :
  let rejected :=
    add_relation decimal_stamp (relation_between "ghost" "b" "owns" false) 4 store_owns in
  Dict.mem "ghost" (entities store_owns) = false
  ∧ Z.of_nat (length (relations store_owns)) = max_relations (cfg store_owns)
  ∧ rejected.1 = Raised ValueError
  ∧ length (relations store_owns) = 1%nat
  ∧ length (relations rejected.2) = 0%nat
  ∧ Graph.has_edge "a" "b" "rel_3" (graph store_owns) = true
  ∧ Graph.has_edge "a" "b" "rel_3" (graph rejected.2) = false.
Proof. vm_compute. repeat split. Qed.

(** ** Index consistency under re-insertion of an id *)

(** C4. Inserting the id "a" with type "person", inserting it again with type
    "place" and removing it leaves "a" listed under "person" in the type
    index although the Entity map is empty: an id in an index that belongs
    to no entity. *)
Theorem stale_type_index_after_reinsert :
  entities store_retyped_removed = []
  ∧ "a" ∈ default ∅ (type_index store_retyped_removed !! "person")
  ∧ ¬ index_sound store_retyped_removed.
Proof.
  assert ("a" ∈ default ∅ (type_index store_retyped_removed !! "person")) as Hin.
  { apply (bool_decide_unpack _). vm_compute. exact I. }
  split_and!; [done|exact Hin|].
  intros [Hty _].
  destruct (type_index store_retyped_removed !! "person") as [ids|] eqn:E.
  - specialize (Hty "person" ids "a" E Hin). vm_compute in Hty. done.
  - simpl in Hin. by apply not_elem_of_empty in Hin.
Qed.

(** ** The multigraph *)

Module GraphFacts.
Import DictFacts.

Implicit Types (u v k n : string) (g : Graph.t) (d : relation).

Lemma edge_alt u v k g :
  Graph.edge u v k g
  = Dict.get k (default [] (Dict.get v (default [] (Dict.get u g)))).
Proof.
  unfold Graph.edge. destruct (Dict.get u g) as [nbrs|]; simpl; [|done].
  by destruct (Dict.get v nbrs).
Qed.

Lemma has_edge_edge u v k g :
  Graph.has_edge u v k g = bool_decide (is_Some (Graph.edge u v k g)).
Proof.
  unfold Graph.has_edge, Graph.edge, Dict.mem.
  destruct (Dict.get u g) as [nbrs|]; simpl; [|done].
  destruct (Dict.get v nbrs) as [keydict|]; simpl; [|done].
  by destruct (Dict.get k keydict).
Qed.

Lemma has_edge_false u v k g :
  Graph.edge u v k g = None → Graph.has_edge u v k g = false.
Proof.
  intros H. rewrite has_edge_edge, H. apply bool_decide_eq_false.
  by intros [? ?].
Qed.

Lemma has_edge_true u v k d g :
  Graph.edge u v k g = Some d → Graph.has_edge u v k g = true.
Proof.
  intros H. rewrite has_edge_edge, H. by apply bool_decide_eq_true.
Qed.

Lemma adjacency_add_node u n g :
  default [] (Dict.get u (Graph.add_node n g)) = default [] (Dict.get u g).
Proof.
  unfold Graph.add_node. destruct (Dict.mem n g) eqn:E; [done|].
  apply mem_false in E. rewrite get_set.
  destruct (String.eqb_spec n u) as [->|]; [|done]. by rewrite E.
Qed.

Lemma edge_add_node u v k n g :
  Graph.edge u v k (Graph.add_node n g) = Graph.edge u v k g.
Proof. by rewrite !edge_alt, adjacency_add_node. Qed.

Lemma has_node_add_node n g : Graph.has_node n (Graph.add_node n g) = true.
Proof.
  unfold Graph.has_node, Graph.add_node.
  destruct (Dict.mem n g) eqn:E; [done|].
  unfold Dict.mem. by rewrite get_set_eq.
Qed.

Lemma edge_add_edge_eq u v k d g :
  Graph.edge u v k (Graph.add_edge u v k d g) = Some d.
Proof.
  rewrite edge_alt. unfold Graph.add_edge.
  rewrite get_set_eq. simpl. rewrite get_set_eq. simpl. apply get_set_eq.
Qed.

Lemma edge_add_edge_ne u v k u' v' k' d g :
  (u, v, k) ≠ (u', v', k') →
  Graph.edge u' v' k' (Graph.add_edge u v k d g) = Graph.edge u' v' k' g.
Proof.
  intros Hne. rewrite edge_alt. unfold Graph.add_edge.
  set (g2 := Graph.add_node v (Graph.add_node u g)).
  rewrite <-(edge_add_node u' v' k' u g), <-(edge_add_node u' v' k' v _).
  fold g2. rewrite edge_alt.
  rewrite get_set. destruct (String.eqb_spec u u') as [->|Hu]; [|done].
  simpl. rewrite get_set. destruct (String.eqb_spec v v') as [->|Hv]; [|done].
  simpl. rewrite get_set_ne; [done|]. congruence.
Qed.

Lemma edge_remove_edge_eq u v k g :
  Graph.edge u v k (Graph.remove_edge u v k g) = None.
Proof.
  unfold Graph.remove_edge.
  destruct (Dict.get u g) as [nbrs|] eqn:Eu.
  - destruct (Dict.get v nbrs) as [keydict|] eqn:Ev.
    + rewrite edge_alt, get_set_eq. cbn [default].
      destruct (Dict.del k keydict) as [|item rest] eqn:Ed; cbv beta iota zeta delta [id].
      * by rewrite get_del_eq.
      * rewrite get_set_eq. cbn [default]. rewrite <-Ed. apply get_del_eq.
    + by rewrite edge_alt, Eu; simpl; rewrite Ev.
  - by rewrite edge_alt, Eu.
Qed.

Lemma edge_remove_edge_ne u v k u' v' k' g :
  (u, v, k) ≠ (u', v', k') →
  Graph.edge u' v' k' (Graph.remove_edge u v k g) = Graph.edge u' v' k' g.
Proof.
  intros Hne. unfold Graph.remove_edge.
  destruct (Dict.get u g) as [nbrs|] eqn:Eu; [|done].
  destruct (Dict.get v nbrs) as [keydict|] eqn:Ev; [|done].
  rewrite !edge_alt, get_set.
  destruct (String.eqb_spec u u') as [->|Hu]; [|done].
  rewrite Eu. cbn [default].
  destruct (Dict.del k keydict) as [|item rest] eqn:Ed; cbv beta iota zeta delta [id].
  - destruct (decide (v = v')) as [->|Hv].
    + rewrite get_del_eq, Ev. cbn [default].
      rewrite <-(get_del_ne k k' keydict) by congruence. by rewrite Ed.
    + by rewrite get_del_ne.
  - rewrite get_set. destruct (String.eqb_spec v v') as [->|Hv]; [|done].
    rewrite Ev. cbn [default]. rewrite <-Ed. apply get_del_ne. congruence.
Qed.

End GraphFacts.

(** ** Bidirectional relations *)

Lemma get_del_None {V : Type} (j k : string) (d : Dict.t V) :
  Dict.get k d = None → Dict.get k (Dict.del j d) = None.
Proof.
  intros H. destruct (decide (j = k)) as [->|Hne].
  - apply DictFacts.get_del_eq.
  - by rewrite DictFacts.get_del_ne.
Qed.

Lemma remove_relation_absent (rid : string) (now : datetime) (s : store) :
  Dict.get rid (relations s) = None → remove_relation rid now s = (false, s).
Proof. intros H. unfold remove_relation. by rewrite H. Qed.

Lemma relations_remove_relation (rid : string) (now : datetime) (s : store) :
  relations (remove_relation rid now s).2 = Dict.del rid (relations s).
Proof.
  unfold remove_relation. destruct (Dict.get rid (relations s)) eqn:E; simpl; [done|].
  by rewrite DictFacts.del_absent.
Qed.

Lemma entities_remove_relation (rid : string) (now : datetime) (s : store) :
  entities (remove_relation rid now s).2 = entities s.
Proof. unfold remove_relation. by destruct (Dict.get rid (relations s)). Qed.

Lemma evicted_relation_absent (k : string) (now : datetime) (s : store) :
  Dict.get k (relations s) = None →
  Dict.get k (relations (_remove_least_important_relation now s)) = None.
Proof.
  intros H. unfold _remove_least_important_relation.
  destruct (py_min _ _); [|done].
  rewrite relations_remove_relation. by apply get_del_None.
Qed.

(** C2 (counterexample). After the bidirectional relation "rel_3" is inserted
    the Relation map holds one record and none under "reverse_rel_3", and
    [remove_relation] on the reverse id returns [False] and removes
    nothing. *)
Lemma reverse_record_not_stored :
  r_bidirectional <$> Dict.get "rel_3" (relations store_owns) = Some true
  ∧ Dict.get "reverse_rel_3" (relations store_owns) = None
  ∧ length (relations store_owns) = 1%nat
  ∧ remove_relation "reverse_rel_3" 4 store_owns = (false, store_owns)
  ∧ Dict.mem "rel_3" (relations (remove_relation "reverse_rel_3" 4 store_owns).2) = true.
Proof.
  assert (Dict.get "reverse_rel_3" (relations store_owns) = None) as Habs
    by (vm_compute; reflexivity).
  rewrite (remove_relation_absent _ _ _ Habs).
  split_and!; try done; vm_compute; reflexivity.
Qed.

Section Bidirectional.
Variable timestamp_str : datetime → string.
Import DictFacts GraphFacts.

(** C2 (amended). A bidirectional insert stores the forward record only;
    the reverse direction is a graph edge keyed [reverse_<rid>] with
    swapped endpoints and the other fields shared.  [remove_relation rid]
    removes the record and both edges; the reverse id names no record of
    its own, so [remove_relation] on it returns [False] and changes
    nothing. *)
Theorem bidirectional_relation_is_one_record
    (payload : relation_payload) (now : datetime) (s s' : store) (rid : string) :
  rp_bidirectional payload = Some true →
  add_relation timestamp_str payload now s = (Returned rid, s') →
  let reverse_id := ("reverse_" ++ rid)%string in
  ∃ src tgt fwd rev,
    rp_source payload = Some src ∧ rp_target payload = Some tgt
    ∧ rid = ("rel_" ++ timestamp_str now)%string
    ∧ Dict.get rid (relations s') = Some fwd
    ∧ r_id fwd = rid ∧ r_source fwd = src ∧ r_target fwd = tgt
    ∧ Graph.edge src tgt rid (graph s') = Some fwd
    ∧ Graph.edge tgt src reverse_id (graph s') = Some rev
    ∧ rev = mk_relation reverse_id tgt src (r_type fwd) (r_attributes fwd)
              (r_importance fwd) (r_confidence fwd) (r_created_at fwd)
              (r_bidirectional fwd)
    ∧ (Dict.get reverse_id (relations s) = None →
       Dict.get reverse_id (relations s') = None
       ∧ ∀ now', remove_relation reverse_id now' s' = (false, s'))
    ∧ ∀ now',
        let removed := remove_relation rid now' s' in
        removed.1 = true
        ∧ Dict.get rid (relations removed.2) = None
        ∧ Graph.edge src tgt rid (graph removed.2) = None
        ∧ Graph.edge tgt src reverse_id (graph removed.2) = None.
Proof.
  intros Hbi Hadd reverse_id. unfold add_relation in Hadd.
  set (q := if Z.of_nat (length (relations s)) >=? max_relations (cfg s)
            then _remove_least_important_relation now s else s) in Hadd.
  destruct (rp_source payload) as [src|]; [|done].
  destruct (rp_target payload) as [tgt|]; [|done].
  destruct (negb (Dict.mem src (entities q)) || negb (Dict.mem tgt (entities q)));
    [done|].
  rewrite Hbi in Hadd. cbn [default r_bidirectional] in Hadd.
  injection Hadd as <- <-.
  set (rid := ("rel_" ++ timestamp_str now)%string) in *.
  set (fwd := mk_relation rid src tgt _ _ _ _ now true).
  set (rev := mk_relation _ tgt src _ _ _ _ _ _).
  assert ((tgt, src, reverse_id) ≠ (src, tgt, rid)) as Hne.
  { intros H. assert (reverse_id = rid) as H3 by congruence.
    by apply reverse_id_neq in H3. }
  assert ((src, tgt, rid) ≠ (tgt, src, reverse_id)) as Hne' by congruence.
  exists src, tgt, fwd, rev. store_simpl.
  split_and!; try done.
  - apply get_set_eq.
  - rewrite edge_add_edge_ne by done. apply edge_add_edge_eq.
  - apply edge_add_edge_eq.
  - intros Habs.
    assert (Dict.get reverse_id (Dict.set rid fwd (relations q)) = None) as Hnone.
    { rewrite get_set_ne by (intros H; symmetry in H; by apply reverse_id_neq in H).
      unfold q. destruct (_ >=? _); [|done]. by apply evicted_relation_absent. }
    split; [done|]. intros now'. by apply remove_relation_absent.
  - intros now'. unfold remove_relation. store_simpl. rewrite get_set_eq.
    cbn [r_source r_target fwd]. store_simpl.
    rewrite (has_edge_true src tgt rid fwd)
      by (rewrite edge_add_edge_ne by done; apply edge_add_edge_eq).
    rewrite (has_edge_true tgt src _ rev)
      by (rewrite edge_remove_edge_ne by done; apply edge_add_edge_eq).
    store_simpl. split_and!; [done|apply get_del_eq| |apply edge_remove_edge_eq].
    rewrite edge_remove_edge_ne by done. apply edge_remove_edge_eq.
Qed.
End Bidirectional.

Lemma bidirectional_relation_is_one_record_witness :
  ∃ fwd, Dict.get "rel_3" (relations store_owns) = Some fwd ∧ r_target fwd = "b".
Proof.
  destruct (bidirectional_relation_is_one_record decimal_stamp
              (relation_between "a" "b" "owns" true) 3 store_ab store_owns "rel_3")
    as (src & tgt & fwd & rev & Hsrc & Htgt & _ & Hget & _ & _ & Hfwd & _).
  - reflexivity.
  - vm_compute. reflexivity.
  - exists fwd. split; [exact Hget|]. rewrite Hfwd.
    injection Htgt as <-. reflexivity.
Defined.

(** ** Eviction on entity insertion *)

Lemma min_by_spec {A : Type} (key : A → Q) (best : A) (xs : list A) :
  min_by key best xs ∈ best :: xs
  ∧ ∀ x, x ∈ best :: xs → (key (min_by key best xs) <= key x)%Q.
Proof.
  revert best. induction xs as [|y xs IH]; intros best; simpl.
  - split; [apply list_elem_of_here|].
    intros x ->%list_elem_of_singleton. apply Qle_refl.
  - set (best' := if Qlt_bool (key y) (key best) then y else best).
    destruct (IH best') as [Hin Hle].
    assert ((key best' <= key best)%Q ∧ (key best' <= key y)%Q) as [Hb Hy].
    { unfold best'. destruct (Qlt_bool (key y) (key best)) eqn:E.
      - apply Qlt_bool_true in E. split; [by apply Qlt_le_weak|apply Qle_refl].
      - apply Qlt_bool_false in E. split; [apply Qle_refl|done]. }
    split.
    + apply elem_of_cons in Hin as [->|Hin].
      * unfold best'. destruct (Qlt_bool _ _).
        -- apply list_elem_of_further, list_elem_of_here.
        -- apply list_elem_of_here.
      * by do 2 apply list_elem_of_further.
    + intros x Hx.
      assert ((key (min_by key best' xs) <= key best')%Q) as Hm
        by (apply Hle, list_elem_of_here).
      apply elem_of_cons in Hx as [->|Hx]; [by eapply Qle_trans|].
      apply elem_of_cons in Hx as [->|Hx]; [by eapply Qle_trans|].
      by apply Hle, list_elem_of_further.
Qed.

Lemma py_min_spec {A : Type} (key : A → Q) (xs : list A) (m : A) :
  py_min key xs = Some m → m ∈ xs ∧ ∀ x, x ∈ xs → (key m <= key x)%Q.
Proof.
  destruct xs as [|x xs]; simpl; [done|]. intros [= <-]. apply min_by_spec.
Qed.

Lemma entities_remove_relations (rids : list string) (now : datetime) (s : store) :
  entities (foldl (λ s rid, (remove_relation rid now s).2) s rids) = entities s.
Proof.
  revert s. induction rids as [|rid rids IH]; intros s; simpl; [done|].
  by rewrite IH, entities_remove_relation.
Qed.

Lemma entities_remove_entity (eid : string) (now : datetime) (s : store) :
  entities (remove_entity eid now s).2 = Dict.del eid (entities s).
Proof.
  unfold remove_entity. destruct (Dict.get eid (entities s)) as [e|] eqn:E.
  - store_simpl.
    match goal with |- context [Graph.has_node ?n ?g] =>
      destruct (Graph.has_node n g) end;
      store_simpl; by rewrite entities_remove_relations.
  - simpl. by rewrite DictFacts.del_absent.
Qed.

Lemma cfg_remove_relations (rids : list string) (now : datetime) (s : store) :
  cfg (foldl (λ s rid, (remove_relation rid now s).2) s rids) = cfg s.
Proof.
  revert s. induction rids as [|rid rids IH]; intros s; simpl; [done|].
  rewrite IH. unfold remove_relation. by destruct (Dict.get rid (relations s)).
Qed.

(** C3 (counterexample). [store_imported] holds three entities under
    [max_entities = 2]; inserting a fourth evicts one and inserts one, so
    the count is three again and not [max_entities]. *)
Lemma add_entity_over_capacity_keeps_count :
  let s := store_imported in
  let s' := (add_entity decimal_stamp (entity_named "d" "D" "place" (5 # 10)) 9 s).2 in
  max_entities (cfg s) = 2
  ∧ length (entities s) = 3%nat
  ∧ Dict.keys (entities s') = ["b"; "c"; "d"]
  ∧ Z.of_nat (length (entities s')) ≠ max_entities (cfg s).
Proof. vm_compute. split_and!; done. Qed.

(** Rounding in the eviction key: [y] is evicted although its exact product
    equals the key of [x], and [B], stored first, is evicted on a tie that
    only rounding makes. *)
Lemma eviction_key_is_rounded :
  Dict.keys (entities (_remove_least_important_entity 9 store_xy)) = ["x"]
  ∧ Dict.keys (entities (_remove_least_important_entity 9 store_ba)) = ["A"].
Proof. vm_compute. done. Qed.

Section AddEntity.
Variable timestamp_str : datetime → string.
Import DictFacts.

(** C3 (amended). In a non-empty store whose entity count is at least
    [max_entities], [add_entity] first evicts exactly one entity, one whose
    score [importance * (1 + 0.1 * access_count)], as binary64 arithmetic
    gives it, is minimal among the stored entities, and then inserts; when
    the inserted id is not the id of a surviving entity the count after the
    call equals the count before it, hence [max_entities] when the store
    held exactly that many. *)
Theorem add_entity_at_capacity_evicts_minimum
    (payload : entity_payload) (now : datetime) (s : store) :
  Dict.wf (entities s) →
  entities s ≠ [] →
  max_entities (cfg s) ≤ Z.of_nat (length (entities s)) →
  let new_id := (add_entity timestamp_str payload now s).1 in
  let s' := (add_entity timestamp_str payload now s).2 in
  ∃ victim evicted inserted,
    Dict.get victim (entities s) = Some evicted
    ∧ (∀ k e, Dict.get k (entities s) = Some e →
         (eviction_score evicted <= eviction_score e)%Q)
    ∧ S (length (Dict.del victim (entities s))) = length (entities s)
    ∧ entities s' = Dict.set new_id inserted (Dict.del victim (entities s))
    ∧ (Dict.get new_id (Dict.del victim (entities s)) = None →
       length (entities s') = length (entities s)
       ∧ (Z.of_nat (length (entities s)) = max_entities (cfg s) →
          Z.of_nat (length (entities s')) = max_entities (cfg s))).
Proof.
  intros Hwf Hne Hcap new_id s'.
  destruct (py_min (entity_key s) (Dict.keys (entities s))) as [victim|] eqn:Emin.
  2:{ destruct (entities s); [done|discriminate]. }
  destruct (py_min_spec _ _ _ Emin) as [Hin Hmin].
  destruct (Dict.get victim (entities s)) as [evicted|] eqn:Ev.
  2:{ by apply get_None_notin in Ev. }
  assert (S (length (Dict.del victim (entities s))) = length (entities s)) as Hlen.
  { apply length_del; [done|]. by apply mem_true. }
  assert (∃ inserted,
            entities s' = Dict.set new_id inserted (Dict.del victim (entities s)))
    as [inserted Hs'].
  { unfold s', new_id, add_entity.
    destruct (Z.geb_spec (Z.of_nat (length (entities s))) (max_entities (cfg s)));
      [|lia].
    unfold _remove_least_important_entity. rewrite Emin.
    unfold _update_entity_indexes. store_simpl.
    rewrite entities_remove_entity. eauto. }
  exists victim, evicted, inserted. split_and!; [done| |done|done|].
  - intros k e Hk.
    assert (k ∈ Dict.keys (entities s)) as Hkin.
    { destruct (decide (k ∈ Dict.keys (entities s))) as [|Hn]; [done|].
      apply get_None_notin in Hn. congruence. }
    specialize (Hmin k Hkin). unfold entity_key in Hmin.
    by rewrite Ev, Hk in Hmin.
  - intros Hfresh.
    assert (length (entities s') = length (entities s)) as Hcount.
    { rewrite Hs', length_set.
      by destruct (Dict.mem new_id (Dict.del victim (entities s))) eqn:E;
        [apply mem_true, get_None_notin in E|]. }
    split; [done|]. intros Hfull. by rewrite Hcount.
Qed.
End AddEntity.

Lemma add_entity_at_capacity_evicts_minimum_witness :
  ∃ victim evicted,
    Dict.get victim (entities store_ab) = Some evicted
    ∧ S (length (Dict.del victim (entities store_ab))) = length (entities store_ab).
Proof.
  destruct (add_entity_at_capacity_evicts_minimum decimal_stamp
              (entity_named "c" "C" "place" (5 # 10)) 3 store_ab)
    as (victim & evicted & inserted & Hget & _ & Hlen & _).
  - apply (bool_decide_unpack _). vm_compute. exact I.
  - vm_compute. discriminate.
  - vm_compute. discriminate.
  - exists victim, evicted. split; [exact Hget|exact Hlen].
Defined.

(** ** Breadth-first distances *)

Module BfsFacts.

Lemma expand_node_spec (ws : list string) (level : nat) (seen : list string)
    (found : list (string * nat)) (seen' : list string) :
  Graph.expand_node ws level seen = (found, seen') →
  seen' = seen ++ map fst found
  ∧ NoDup (map fst found)
  ∧ (∀ w, w ∈ map fst found → (w ∉ seen) ∧ w ∈ ws)
  ∧ (∀ w l, (w, l) ∈ found → l = level)
  ∧ (∀ w, w ∈ ws → w ∉ seen → (w, level) ∈ found).
Proof.
  revert seen found seen'.
  induction ws as [|w ws IH]; intros seen found seen'; simpl.
  - intros [= <- <-]. rewrite app_nil_r. split_and!; try done.
    + apply NoDup_nil_2.
    + intros w H. by apply elem_of_nil in H.
    + intros w l H. by apply elem_of_nil in H.
    + intros w H. by apply elem_of_nil in H.
  - case_bool_decide as Hseen.
    + intros H. destruct (IH _ _ _ H) as (Hs & Hnd & Hin & Hl & Hall).
      split_and!; try done.
      * intros x Hx. destruct (Hin x Hx). split; [done|].
        by apply list_elem_of_further.
      * intros x [->|Hx]%elem_of_cons Hn; [done|]. by apply Hall.
    + destruct (Graph.expand_node ws level (seen ++ [w])) as [f sn] eqn:E.
      intros [= <- <-].
      destruct (IH _ _ _ E) as (Hs & Hnd & Hin & Hl & Hall).
      split_and!.
      * rewrite Hs. simpl. by rewrite <-app_assoc.
      * simpl. apply NoDup_cons. split; [|done].
        intros Hw. destruct (Hin w Hw) as [Hn _]. apply Hn.
        apply elem_of_app. right. apply list_elem_of_here.
      * simpl. intros x [->|Hx]%elem_of_cons.
        -- split; [done|apply list_elem_of_here].
        -- destruct (Hin x Hx) as [Hn Hm]. split.
           ++ intros Hxs. apply Hn, elem_of_app. by left.
           ++ by apply list_elem_of_further.
      * intros x l [[= -> ->]|Hx]%elem_of_cons; [done|]. by eapply Hl.
      * intros x [->|Hx]%elem_of_cons Hn; [apply list_elem_of_here|].
        destruct (decide (x = w)) as [->|Hne]; [apply list_elem_of_here|].
        apply list_elem_of_further, Hall; [done|].
        intros [?|?%list_elem_of_singleton]%elem_of_app; done.
Qed.

Lemma expand_level_spec (g : Graph.t) (thislevel : list string) (level : nat)
    (seen : list string) (found : list (string * nat)) (seen' : list string) :
  Graph.expand_level g thislevel level seen = (found, seen') →
  seen' = seen ++ map fst found
  ∧ NoDup (map fst found)
  ∧ (∀ w, w ∈ map fst found → w ∉ seen)
  ∧ (∀ w l, (w, l) ∈ found → l = level).
Proof.
  revert seen found seen'.
  induction thislevel as [|v rest IH]; intros seen found seen'; simpl.
  - intros [= <- <-]. rewrite app_nil_r. split_and!; try done.
    + apply NoDup_nil_2.
    + intros w H. by apply elem_of_nil in H.
    + intros w l H. by apply elem_of_nil in H.
  - destruct (Graph.expand_node (Graph.successors v g) level seen)
      as [f1 seen1] eqn:E1.
    destruct (Graph.expand_level g rest level seen1) as [f2 seen2] eqn:E2.
    intros [= <- <-].
    destruct (expand_node_spec _ _ _ _ _ E1) as (Hs1 & Hnd1 & Hin1 & Hl1 & _).
    destruct (IH _ _ _ E2) as (Hs2 & Hnd2 & Hin2 & Hl2).
    rewrite map_app. split_and!.
    + rewrite Hs2, Hs1. by rewrite <-app_assoc.
    + apply NoDup_app. split_and!; [done| |done].
      intros x Hx1 Hx2. apply (Hin2 x Hx2). rewrite Hs1.
      apply elem_of_app. by right.
    + intros x [Hx|Hx]%elem_of_app.
      * by apply Hin1.
      * intros Hxs. apply (Hin2 x Hx). rewrite Hs1. apply elem_of_app. by left.
    + intros x l [Hx|Hx]%elem_of_app; [by eapply Hl1|by eapply Hl2].
Qed.

Lemma bfs_spec (g : Graph.t) (depth : nat) (thislevel : list string)
    (level : nat) (seen : list string) :
  NoDup (map fst (Graph.bfs g depth thislevel level seen))
  ∧ (∀ w, w ∈ map fst (Graph.bfs g depth thislevel level seen) → w ∉ seen)
  ∧ (∀ w l, (w, l) ∈ Graph.bfs g depth thislevel level seen → (level < l)%nat).
Proof.
  revert thislevel level seen.
  induction depth as [|depth IH]; intros thislevel level seen; simpl.
  - split_and!; [apply NoDup_nil_2| |]; intros ? H; try intros H';
      first [by apply elem_of_nil in H | by apply elem_of_nil in H'].
  - destruct thislevel as [|v rest].
    { split_and!; [apply NoDup_nil_2| |]; intros ? H; try intros H';
        first [by apply elem_of_nil in H | by apply elem_of_nil in H']. }
    destruct (Graph.expand_level g (v :: rest) (S level) seen)
      as [found seen'] eqn:E.
    destruct (expand_level_spec _ _ _ _ _ _ E) as (Hs & Hnd & Hin & Hl).
    destruct (IH (map fst found) (S level) seen') as (Hnd' & Hin' & Hl').
    rewrite map_app. split_and!.
    + apply NoDup_app. split_and!; [done| |done].
      intros x Hx1 Hx2. apply (Hin' x Hx2). rewrite Hs.
      apply elem_of_app. by right.
    + intros x [Hx|Hx]%elem_of_app; [by apply Hin|].
      intros Hxs. apply (Hin' x Hx). rewrite Hs. apply elem_of_app. by left.
    + intros x l [Hx|Hx]%elem_of_app.
      * rewrite (Hl x l Hx). lia.
      * specialize (Hl' x l Hx). lia.
Qed.

(** The keys of the distance map are pairwise distinct and only the
    source is at distance zero. *)
Lemma distances_spec (g : Graph.t) (source : string) (cutoff : Z)
    (targets : list (string * nat)) :
  Graph.single_source_shortest_path_length g source cutoff = Some targets →
  NoDup (map fst targets)
  ∧ ∀ w l, (w, l) ∈ targets → w = source ∨ (1 ≤ l)%nat.
Proof.
  unfold Graph.single_source_shortest_path_length.
  destruct (Graph.has_node source g); [|done]. intros [= <-].
  destruct (bfs_spec g (Z.to_nat cutoff) [source] 0 [source]) as (Hnd & Hin & Hl).
  split.
  - simpl. apply NoDup_cons. split; [|done].
    intros H. apply (Hin source H). apply list_elem_of_here.
  - intros w l [[= -> ->]|H]%elem_of_cons; [by left|].
    right. specialize (Hl w l H). lia.
Qed.

(** With cutoff 1 the map lists the source and its successors. *)
Lemma distances_depth_one (g : Graph.t) (source : string)
    (targets : list (string * nat)) :
  Graph.single_source_shortest_path_length g source 1 = Some targets →
  (∀ w, w ∈ Graph.successors source g → w ≠ source → (w, 1%nat) ∈ targets)
  ∧ (∀ w l, (w, l) ∈ targets →
       (w = source ∧ l = 0%nat)
       ∨ (w ∈ Graph.successors source g ∧ w ≠ source ∧ l = 1%nat)).
Proof.
  unfold Graph.single_source_shortest_path_length.
  destruct (Graph.has_node source g); [|done]. intros [= <-].
  change (Z.to_nat 1) with 1%nat. simpl.
  destruct (Graph.expand_node (Graph.successors source g) 1 [source])
    as [found seen'] eqn:E.
  destruct (expand_node_spec _ _ _ _ _ E) as (_ & _ & Hin & Hl & Hall).
  rewrite !app_nil_r. split.
  - intros w Hw Hne. apply list_elem_of_further, Hall; [done|].
    by intros ->%list_elem_of_singleton.
  - intros w l [[= -> ->]|H]%elem_of_cons; [by left|]. right.
    assert (w ∈ map fst found) as Hw.
    { apply list_elem_of_fmap. by exists (w, l). }
    destruct (Hin w Hw) as [Hn Hs]. split_and!; [done| |by eapply Hl].
    intros ->. apply Hn, list_elem_of_here.
Qed.

End BfsFacts.

(** ** Reads and access tracking *)

Lemma read_once_touch (now : datetime) (e : entity) : read_once now e (touch now e).
Proof. unfold read_once. simpl. split_and!; done. Qed.

Lemma with_entities_idem (d d' : Dict.t entity) (s : store) :
  with_entities d (with_entities d' s) = with_entities d s.
Proof. reflexivity. Qed.

Lemma with_entities_self (s : store) : s = with_entities (entities s) s.
Proof. by destruct s. Qed.

Lemma get_entity_some (k : string) (now : datetime) (s : store) (e : entity) :
  Dict.get k (entities s) = Some e →
  get_entity k now s
  = (Some (touch now e), with_entities (Dict.set k (touch now e) (entities s)) s).
Proof. intros H. unfold get_entity. by rewrite H. Qed.

Lemma get_entity_none (k : string) (now : datetime) (s : store) :
  Dict.get k (entities s) = None → get_entity k now s = (None, s).
Proof. intros H. unfold get_entity. by rewrite H. Qed.

Lemma keys_set_present {V : Type} (k : string) (v v0 : V) (d : Dict.t V) :
  Dict.get k d = Some v0 → Dict.keys (Dict.set k v d) = Dict.keys d.
Proof.
  intros H. rewrite DictFacts.keys_set. unfold Dict.mem. by rewrite H.
Qed.

Lemma read_trace_nil (now : datetime) (s : store) : read_trace now [] s s.
Proof.
  split_and!; [apply with_entities_self|done|].
  intros k. by rewrite bool_decide_eq_false_2 by apply not_elem_of_nil.
Qed.

Lemma read_trace_skip (now : datetime) (k : string) (ks : list string) (s s' : store) :
  Dict.get k (entities s) = None →
  read_trace now ks s s' → read_trace now (k :: ks) s s'.
Proof.
  intros Hk (Hs & Hkeys & Hget). split_and!; [done|done|].
  intros k'. rewrite Hget.
  destruct (decide (k' = k)) as [->|Hne].
  - rewrite (bool_decide_eq_true_2 (k ∈ k :: ks)) by apply list_elem_of_here.
    rewrite Hk. by case_bool_decide.
  - do 2 case_bool_decide; try done.
    + exfalso. by apply H0, list_elem_of_further.
    + apply elem_of_cons in H0 as [?|?]; done.
Qed.

Lemma read_trace_step (now : datetime) (k : string) (ks : list string)
    (e : entity) (s s' : store) :
  k ∉ ks →
  Dict.get k (entities s) = Some e →
  read_trace now ks (with_entities (Dict.set k (touch now e) (entities s)) s) s' →
  read_trace now (k :: ks) s s'.
Proof.
  intros Hnotin Hk (Hs & Hkeys & Hget). store_simpl in Hkeys.
  split_and!.
  - rewrite Hs at 1. apply with_entities_idem.
  - rewrite Hkeys. by eapply keys_set_present.
  - intros k'. rewrite Hget. store_simpl. rewrite DictFacts.get_set.
    destruct (String.eqb_spec k k') as [<-|Hne].
    + rewrite bool_decide_eq_false_2 by done.
      rewrite (bool_decide_eq_true_2 (k ∈ k :: ks)) by apply list_elem_of_here.
      by rewrite Hk.
    + do 2 case_bool_decide; try done.
      * exfalso. by apply H0, list_elem_of_further.
      * apply elem_of_cons in H0 as [?|?]; done.
Qed.

Lemma read_trace_reads_only (now : datetime) (ks : list string) (s s' : store)
    (returned : list entity) :
  read_trace now ks s s' →
  (∀ e, e ∈ returned →
     ∃ k e0, k ∈ ks ∧ Dict.get k (entities s) = Some e0 ∧ e = touch now e0) →
  reads_only now s s' returned.
Proof.
  intros (Hs & Hkeys & Hget) Hret. split_and!; [done|done| |].
  - intros k e. rewrite Hget. case_bool_decide.
    + destruct (Dict.get k (entities s)) as [e0|]; [|done].
      intros [= <-]. exists e0. split; [done|]. right. apply read_once_touch.
    + intros He. exists e. by split; [|left].
  - intros e (k & e0 & Hk & He0 & ->)%Hret. exists k, e0. split_and!; [done| |].
    + rewrite Hget, bool_decide_eq_true_2 by done. by rewrite He0.
    + apply read_once_touch.
Qed.

Lemma fetch_all_spec (ids : list string) (now : datetime) (s s' : store)
    (es : list entity) :
  NoDup ids →
  fetch_all ids now s = (es, s') →
  read_trace now ids s s'
  ∧ ∀ e, e ∈ es →
      ∃ k e0, k ∈ ids ∧ Dict.get k (entities s) = Some e0 ∧ e = touch now e0.
Proof.
  revert s s' es. induction ids as [|k ids IH]; intros s s' es Hnd; simpl.
  - intros [= <- <-]. split; [apply read_trace_nil|].
    intros e H. by apply elem_of_nil in H.
  - apply NoDup_cons in Hnd as [Hk Hnd].
    destruct (Dict.get k (entities s)) as [e0|] eqn:E.
    + rewrite (get_entity_some _ _ _ _ E).
      destruct (fetch_all ids now _) as [es1 s1] eqn:F. intros [= <- <-].
      destruct (IH _ _ _ Hnd F) as [Htr Hes]. split.
      * by eapply read_trace_step.
      * intros e [->|He]%elem_of_cons.
        -- exists k, e0. split_and!; [apply list_elem_of_here|done|done].
        -- destruct (Hes e He) as (k' & e0' & Hk' & Hget & ->).
           exists k', e0'. split_and!; [by apply list_elem_of_further| |done].
           store_simpl in Hget. rewrite DictFacts.get_set_ne in Hget; [done|].
           by intros ->.
    + rewrite (get_entity_none _ _ _ E). intros F.
      destruct (IH _ _ _ Hnd F) as [Htr Hes]. split.
      * by apply read_trace_skip.
      * intros e (k' & e0' & Hk' & Hget & ->)%Hes.
        exists k', e0'. split_and!; [by apply list_elem_of_further|done|done].
Qed.

Lemma collect_related_spec (a : string) (filtered : bool) (now : datetime)
    (targets : list (string * nat)) (s s' : store)
    (out : outcome (list related_entity)) :
  NoDup (map fst targets) →
  collect_related a filtered now targets s = (out, s') →
  match out with
  | Raised x => s' = s ∧ x = TypeError ∧ filtered = true
  | Returned rs =>
      filtered = false
      ∧ ∃ ks, ks ⊆ map fst targets
        ∧ read_trace now ks s s'
        ∧ (∀ r, r ∈ rs →
             ∃ t d e0, (t, d) ∈ targets ∧ t ∈ ks ∧ t ≠ a ∧ (1 ≤ d)%nat
                       ∧ Dict.get t (entities s) = Some e0
                       ∧ r = related_at now e0 d)
        ∧ (∀ t d e0, (t, d) ∈ targets → t ≠ a → (1 ≤ d)%nat →
             Dict.get t (entities s) = Some e0 → related_at now e0 d ∈ rs)
  end ∨ (out = Returned [] ∧ s' = s ∧ filtered = true).
Proof.
  revert s s' out.
  induction targets as [|[t d] targets IH]; intros s s' out Hnd; simpl.
  - intros [= <- <-]. destruct filtered; [by right|]. left.
    split; [done|]. exists []. split_and!; [done|apply read_trace_nil| |].
    + intros r H. by apply elem_of_nil in H.
    + intros t d e0 H. by apply elem_of_nil in H.
  - simpl in Hnd. apply NoDup_cons in Hnd as [Ht Hnd].
    assert (∀ t' d', (t', d') ∈ targets → t' ≠ t) as Hdiff.
    { intros t' d' Hin ->. apply Ht. apply list_elem_of_fmap. by exists (t, d'). }
    (* a skipped target: the state and the results are those of the rest *)
    assert (∀ out s',
              (String.eqb t a || negb (Dict.mem t (entities s)) = true
               ∨ (S d <? 2)%nat = true) →
              collect_related a filtered now targets s = (out, s') →
              match out with
              | Raised x => s' = s ∧ x = TypeError ∧ filtered = true
              | Returned rs =>
                  filtered = false
                  ∧ ∃ ks, ks ⊆ map fst ((t, d) :: targets)
                    ∧ read_trace now ks s s'
                    ∧ (∀ r, r ∈ rs →
                         ∃ t0 d0 e0, (t0, d0) ∈ (t, d) :: targets ∧ t0 ∈ ks
                           ∧ t0 ≠ a ∧ (1 ≤ d0)%nat
                           ∧ Dict.get t0 (entities s) = Some e0
                           ∧ r = related_at now e0 d0)
                    ∧ (∀ t0 d0 e0, (t0, d0) ∈ (t, d) :: targets → t0 ≠ a →
                         (1 ≤ d0)%nat → Dict.get t0 (entities s) = Some e0 →
                         related_at now e0 d0 ∈ rs)
              end ∨ (out = Returned [] ∧ s' = s ∧ filtered = true)) as Hskip.
    { intros out0 s0 Hcond Hrest.
      destruct (IH _ _ _ Hnd Hrest) as [Hok|Hempty]; [|by right]. left.
      destruct out0 as [rs|x]; [|done].
      destruct Hok as (Hf & ks & Hsub & Htr & Hfrom & Hto).
      split; [done|]. exists ks. split_and!; [|done| |].
      - intros x Hx. simpl. apply list_elem_of_further. by apply Hsub.
      - intros r (t0 & d0 & e0 & Hin & Hrest')%Hfrom.
        exists t0, d0, e0. split; [by apply list_elem_of_further|done].
      - intros t0 d0 e0 [[= -> ->]|Hin]%elem_of_cons Hne Hd Hget; [|by eapply Hto].
        exfalso. destruct Hcond as [Hc|Hc].
        + apply orb_true_iff in Hc as [Hc|Hc].
          * by apply String.eqb_eq in Hc.
          * apply negb_true_iff, DictFacts.mem_false in Hc. congruence.
        + apply Nat.ltb_lt in Hc. lia. }
    destruct (String.eqb t a || negb (Dict.mem t (entities s))) eqn:Eskip.
    { intros H. apply Hskip; [by left|done]. }
    destruct (S d <? 2)%nat eqn:Elen.
    { intros H. apply Hskip; [by right|done]. }
    clear Hskip.
    apply orb_false_iff in Eskip as [Hta Hmem].
    apply String.eqb_neq in Hta. apply negb_false_iff in Hmem.
    apply Nat.ltb_ge in Elen.
    destruct filtered.
    { intros [= <- <-]. by left. }
    unfold Dict.mem in Hmem.
    destruct (Dict.get t (entities s)) as [e0|] eqn:Eget; [|done].
    rewrite (get_entity_some _ _ _ _ Eget).
    destruct (collect_related a false now targets _) as [out1 s1] eqn:Erest.
    destruct (IH _ _ _ Hnd Erest) as [Hok|(_ & _ & ?)]; [|done].
    destruct out1 as [rs|x]; [|by destruct Hok as (_ & _ & ?)].
    intros [= <- <-]. left.
    destruct Hok as (_ & ks & Hsub & Htr & Hfrom & Hto).
    split; [done|]. exists (t :: ks). split_and!.
    + intros x [->|Hx]%elem_of_cons; [apply list_elem_of_here|].
      apply list_elem_of_further. by apply Hsub.
    + eapply read_trace_step; [|done|done]. intros Hin. by apply Ht, Hsub.
    + intros r [->|Hr]%elem_of_cons.
      * exists t, d, e0.
        split_and!; [apply list_elem_of_here|apply list_elem_of_here| | | |];
          try done. lia.
      * destruct (Hfrom r Hr) as (t0 & d0 & e1 & Hin & Hks & Hne & Hd & Hget & ->).
        exists t0, d0, e1.
        split_and!; [by apply list_elem_of_further|by apply list_elem_of_further
                    |done|done| |done].
        store_simpl in Hget. rewrite DictFacts.get_set_ne in Hget; [done|].
        intros ->. by eapply Hdiff.
    + intros t0 d0 e1 [[= -> ->]|Hin]%elem_of_cons Hne Hd Hget.
      * rewrite Eget in Hget. injection Hget as <-. apply list_elem_of_here.
      * apply list_elem_of_further. eapply Hto; try done.
        store_simpl. rewrite DictFacts.get_set_ne; [done|].
        intros ->. by eapply Hdiff.
Qed.

Lemma reads_only_refl (now : datetime) (s : store) : reads_only now s s [].
Proof.
  apply (read_trace_reads_only now []); [apply read_trace_nil|].
  intros e H. by apply elem_of_nil in H.
Qed.

Lemma fetch_sorted_reads_only (ids : gset string) (limit : Z) (now : datetime)
    (s : store) :
  reads_only now s (fetch_all (elements ids) now s).2
    (py_slice_to limit (sort_desc e_importance (fetch_all (elements ids) now s).1)).
Proof.
  destruct (fetch_all (elements ids) now s) as [es s'] eqn:F.
  destruct (fetch_all_spec _ _ _ _ _ (NoDup_elements ids) F) as [Htr Hes].
  apply (read_trace_reads_only now (elements ids)); [done|].
  intros e He%elem_of_py_slice_to%elem_of_sort_desc. by apply Hes.
Qed.

Lemma find_related_entities_effect (a : string) (types : option (list string))
    (depth : Z) (now : datetime) (s : store) :
  match find_related_entities a types depth now s with
  | (Returned rs, s') => reads_only now s s' (map re_entity rs)
  | (Raised _, s') => s' = s
  end.
Proof.
  unfold find_related_entities.
  destruct (negb (Dict.mem a (entities s))); [apply reads_only_refl|].
  destruct (Graph.single_source_shortest_path_length (graph s) a depth)
    as [targets|] eqn:Edist; [|done].
  destruct (BfsFacts.distances_spec _ _ _ _ Edist) as [Hnd _].
  destruct (collect_related a (truthy types) now targets s) as [out s'] eqn:Ecol.
  destruct (collect_related_spec _ _ _ _ _ _ _ Hnd Ecol) as [Hok|(-> & -> & _)].
  2:{ apply reads_only_refl. }
  destruct out as [rs|x]; [|by destruct Hok].
  destruct Hok as (_ & ks & _ & Htr & Hfrom & _).
  apply (read_trace_reads_only now ks); [done|].
  intros e (r & -> & Hr%elem_of_sort_desc)%list_elem_of_fmap.
  destruct (Hfrom r Hr) as (t & d & e0 & _ & Hks & _ & _ & Hget & ->).
  by exists t, e0.
Qed.

(** C9. Every entity returned by [find_entities_by_type],
    [find_entities_by_attribute] or [find_related_entities] is the stored
    record of an entity whose [access_count] went up by one and whose
    [last_accessed] became the time of the call; every stored entity keeps
    all its other fields, the Entity map keeps its keys, and nothing else of
    the store (relations, graph, indexes) changes.  A call of
    [find_related_entities] that raises leaves the store as it was. *)
Theorem read_queries_touch_returned_entities (now : datetime) (s : store) :
  (∀ ty limit,
     reads_only now s (find_entities_by_type ty limit now s).2
                      (find_entities_by_type ty limit now s).1)
  ∧ (∀ name value limit,
       reads_only now s (find_entities_by_attribute name value limit now s).2
                        (find_entities_by_attribute name value limit now s).1)
  ∧ (∀ a types depth,
       match find_related_entities a types depth now s with
       | (Returned rs, s') => reads_only now s s' (map re_entity rs)
       | (Raised _, s') => s' = s
       end).
Proof.
  split_and!.
  - intros ty limit. unfold find_entities_by_type.
    destruct (type_index s !! ty) as [ids|]; [|apply reads_only_refl].
    pose proof (fetch_sorted_reads_only ids limit now s) as H.
    by destruct (fetch_all (elements ids) now s).
  - intros name value limit. unfold find_entities_by_attribute.
    destruct (attribute_index s !! name) as [by_value|]; [|apply reads_only_refl].
    destruct (by_value !! value) as [ids|]; [|apply reads_only_refl].
    pose proof (fetch_sorted_reads_only ids limit now s) as H.
    by destruct (fetch_all (elements ids) now s).
  - intros a types depth. apply find_related_entities_effect.
Qed.

(** ** Traversal at depth one *)

Lemma successors_has_node (a b : string) (g : Graph.t) :
  b ∈ Graph.successors a g → Graph.has_node a g = true.
Proof.
  unfold Graph.successors, Graph.has_node, Dict.mem.
  destruct (Dict.get a g); [done|]. simpl. intros H. by apply elem_of_nil in H.
Qed.

(** C6. When the graph has an edge from entity [a] to a different entity [b],
    [find_related_entities a] with no relation-type filter and
    [max_depth = 1] returns the copy of [b] with [relationship_distance] 1
    and [relationship_strength] exactly 1/2; every record it returns is at
    distance 1 with strength 1/2 and is the target of an edge leaving [a],
    so no entity whose shortest path from [a] is longer than one edge is
    returned. *)
Theorem find_related_depth_one
    (a b : string) (eb : entity) (now : datetime) (s : store) :
  a ≠ b →
  Dict.mem a (entities s) = true →
  Dict.get b (entities s) = Some eb →
  b ∈ Graph.successors a (graph s) →
  ∃ rs s',
    find_related_entities a None 1 now s = (Returned rs, s')
    ∧ mk_related_entity (touch now eb) 1 (1 # 2) ∈ rs
    ∧ ∀ r, r ∈ rs →
        relationship_distance r = 1%nat
        ∧ relationship_strength r = (1 # 2)%Q
        ∧ ∃ t e0, t ∈ Graph.successors a (graph s) ∧ t ≠ a
                  ∧ Dict.get t (entities s) = Some e0
                  ∧ re_entity r = touch now e0.
Proof.
  intros Hab Ha Hb Hedge. unfold find_related_entities. rewrite Ha. simpl negb.
  cbv iota.
  unfold Graph.single_source_shortest_path_length at 1.
  rewrite (successors_has_node a b _ Hedge).
  set (targets := (a, 0%nat) :: Graph.bfs (graph s) (Z.to_nat 1) [a] 0 [a]).
  assert (Graph.single_source_shortest_path_length (graph s) a 1 = Some targets)
    as Edist.
  { unfold Graph.single_source_shortest_path_length.
    by rewrite (successors_has_node a b _ Hedge). }
  destruct (BfsFacts.distances_spec _ _ _ _ Edist) as [Hnd _].
  destruct (BfsFacts.distances_depth_one _ _ _ Edist) as [Hsucc Honly].
  destruct (collect_related a (truthy None) now targets s) as [out s'] eqn:Ecol.
  destruct (collect_related_spec _ _ _ _ _ _ _ Hnd Ecol) as [Hok|(_ & _ & ?)];
    [|done].
  destruct out as [rs|x]; [|by destruct Hok as (_ & _ & ?)].
  destruct Hok as (_ & ks & _ & _ & Hfrom & Hto).
  exists (sort_desc relationship_strength rs), s'. split_and!; [done| |].
  - apply elem_of_sort_desc.
    apply (Hto b 1%nat eb); [|done|lia|done].
    apply Hsucc; [done|]. by intros ->.
  - intros r Hr%elem_of_sort_desc.
    destruct (Hfrom r Hr) as (t & d & e0 & Hin & _ & Hne & Hd & Hget & ->).
    destruct (Honly t d Hin) as [[-> _]|(Hts & _ & ->)]; [done|].
    split_and!; [done|done|]. by exists t, e0.
Qed.

Lemma find_related_depth_one_witness :
  ∃ rs, (find_related_entities "a" None 1 5 store_owns).1 = Returned rs
        ∧ ∃ r, r ∈ rs ∧ relationship_strength r = (1 # 2)%Q.
Proof.
  destruct (find_related_depth_one "a" "b"
              (mk_entity "b" "B" "person" [] "" (9 # 10) 2 2 0 1) 5 store_owns)
    as (rs & s' & Hcall & Hb & _).
  - discriminate.
  - vm_compute. reflexivity.
  - vm_compute. reflexivity.
  - vm_compute. apply list_elem_of_here.
  - exists rs. rewrite Hcall. split; [reflexivity|].
    eexists. split; [exact Hb|reflexivity].
Defined.

(** ** Export and import *)

Lemma decimal_roundtrip (t : datetime) : decimal_parse (decimal_stamp t) = Some t.
Proof.
  unfold decimal_parse, decimal_stamp, str_int.
  rewrite NilZero.isi.
  - simpl. f_equal. apply DecimalZ.of_to.
  - destruct t; simpl; [done| |done].
    intros [= H]. by apply DecimalPos.Unsigned.to_uint_nonnil in H.
  - destruct t; simpl; [done|done|].
    intros [= H]. by apply DecimalPos.Unsigned.to_uint_nonnil in H.
Qed.

Lemma set_fresh {V : Type} (k : string) (v : V) (d : Dict.t V) :
  k ∉ Dict.keys d → Dict.set k v d = d ++ [(k, v)].
Proof.
  induction d as [|[k' v'] d IH]; simpl; [done|].
  rewrite not_elem_of_cons. intros [Hne Hnotin].
  destruct (String.eqb_spec k k') as [->|_]; [done|]. by rewrite IH.
Qed.

Lemma dump_load_roundtrip {J V : Type} (parse : J → option V)
    (render : V → outcome J) (d acc : Dict.t V) (js : Dict.t J) :
  (∀ v j, render v = Returned j → parse j = Some v) →
  NoDup (Dict.keys acc ++ Dict.keys d) →
  dump_items render d = Returned js →
  load_items parse js acc = (true, acc ++ d).
Proof.
  intros Hparse. revert acc js.
  induction d as [|[k v] d IH]; intros acc js Hnd; simpl.
  - intros [= <-]. simpl. by rewrite app_nil_r.
  - destruct (render v) as [j|x] eqn:Ev; [|done].
    destruct (dump_items render d) as [js'|x] eqn:Ed; [|done].
    intros [= <-]. simpl. rewrite (Hparse v j Ev). simpl in Hnd.
    apply NoDup_app in Hnd as (Hacc & Hdisj & Hd).
    apply NoDup_cons in Hd as [Hk Hd].
    assert (k ∉ Dict.keys acc) as Hfresh.
    { intros Hin. apply (Hdisj k Hin). apply list_elem_of_here. }
    rewrite (set_fresh _ _ _ Hfresh), (IH _ js'); [by rewrite <-app_assoc| |done].
    unfold Dict.keys. rewrite map_app. simpl. rewrite <-app_assoc. simpl.
    apply NoDup_app. split_and!; [done| |by apply NoDup_cons].
    intros x Hx Hx'. apply (Hdisj x Hx). done.
Qed.

Lemma dump_items_returns {J V : Type} (render : V → outcome J) (d : Dict.t V) :
  (∀ k v, (k, v) ∈ d → ∃ j, render v = Returned j) →
  ∃ js, dump_items render d = Returned js.
Proof.
  induction d as [|[k v] d IH]; intros Hall; simpl; [by eexists|].
  destruct (Hall k v) as [j ->]; [apply list_elem_of_here|].
  destruct IH as [js ->]; [|by eexists].
  intros k' v' Hin. apply (Hall k'). by apply list_elem_of_further.
Qed.

Lemma index_sets_roundtrip (m : gmap string (gset string)) :
  list_to_set <$> (elements <$> m) = m.
Proof.
  apply map_eq. intros i. rewrite !lookup_fmap.
  destruct (m !! i) as [ids|]; simpl; [|done].
  f_equal. apply list_to_set_elements_L.
Qed.

Lemma attribute_index_roundtrip (m : gmap string (gmap string (gset string))) :
  (λ by_value : gmap string (list string), list_to_set <$> by_value)
    <$> ((λ by_value : gmap string (gset string), elements <$> by_value) <$> m)
  = m.
Proof.
  rewrite <-map_fmap_compose.
  transitivity (id <$> m); [|apply map_fmap_id].
  apply map_fmap_ext. intros i by_value _. apply index_sets_roundtrip.
Qed.

Section Roundtrip.
Variable isoformat : datetime → string.
Variable fromisoformat : string → option datetime.
Hypothesis parse_isoformat : ∀ t, fromisoformat (isoformat t) = Some t.

Lemma entity_json_roundtrip (e : entity) (j : entity_json) :
  entity_to_json isoformat e = Returned j →
  entity_of_json fromisoformat j = Some e.
Proof.
  unfold entity_of_json, entity_to_json.
  destruct e as [? ? ? ? ? ? [created|?] [accessed|?] ? ?]; simpl; try done.
  intros [= <-]. simpl. by rewrite !parse_isoformat.
Qed.

Lemma relation_json_roundtrip (r : relation) (j : relation_json) :
  relation_to_json isoformat r = Returned j →
  relation_of_json fromisoformat j = Some r.
Proof.
  unfold relation_of_json, relation_to_json.
  destruct r as [? ? ? ? ? ? ? [created|?] ?]; simpl; try done.
  intros [= <-]. simpl. by rewrite !parse_isoformat.
Qed.

(** Round trip of a store whose timestamps are instants, as the operations
    of the store write them: [to_dict] returns, [from_dict] loads what it
    returned, and the two maps and the two indexes are those exported. *)
Lemma from_dict_to_dict (s s0 : store) :
  Dict.wf (entities s) → Dict.wf (relations s) →
  timestamps_are_instants s →
  ∃ data s',
    to_dict isoformat s = Returned data
    ∧ from_dict fromisoformat data s0 = (Returned tt, s')
    ∧ entities s' = entities s
    ∧ relations s' = relations s
    ∧ type_index s' = type_index s
    ∧ attribute_index s' = attribute_index s
    ∧ cfg s' = cfg s0.
Proof.
  intros Hwe Hwr [Hes Hrs]. unfold to_dict.
  destruct (dump_items_returns (entity_to_json isoformat) (entities s))
    as [es Hdump_e].
  { intros k e Hin. destruct (Hes k e Hin) as (created & accessed & Hc & Ha).
    unfold entity_to_json. rewrite Hc, Ha. by eexists. }
  destruct (dump_items_returns (relation_to_json isoformat) (relations s))
    as [rs Hdump_r].
  { intros k r Hin. destruct (Hrs k r Hin) as (created & Hc).
    unfold relation_to_json. rewrite Hc. by eexists. }
  rewrite Hdump_e, Hdump_r. do 2 eexists. split; [reflexivity|].
  unfold from_dict.
  cbn [x_entities x_relations x_type_index x_attribute_index default].
  cbv beta iota zeta delta [id].
  rewrite (dump_load_roundtrip _ _ (entities s) [] es entity_json_roundtrip)
    by done.
  rewrite (dump_load_roundtrip _ _ (relations s) [] rs relation_json_roundtrip)
    by done.
  split; [reflexivity|]. store_simpl.
  split_and!; try done.
  - apply index_sets_roundtrip.
  - apply attribute_index_roundtrip.
Qed.
End Roundtrip.

Lemma from_dict_to_dict_sample :
  ∃ data s',
    to_dict decimal_stamp store_owns = Returned data
    ∧ from_dict decimal_parse data store_empty = (Returned tt, s')
    ∧ entities s' = entities store_owns
    ∧ relations s' = relations store_owns.
Proof.
  destruct (from_dict_to_dict decimal_stamp decimal_parse decimal_roundtrip
              store_owns store_empty)
    as (data & s' & Hdump & Hload & He & Hr & _).
  - apply (bool_decide_unpack _). vm_compute. exact I.
  - apply (bool_decide_unpack _). vm_compute. exact I.
  - split.
    + intros k e. set (d := entities store_owns). vm_compute in d. subst d.
      intros Hin.
      repeat (apply elem_of_cons in Hin as [[= -> ->]|Hin]; [by do 2 eexists|]).
      by apply elem_of_nil in Hin.
    + intros k r. set (d := relations store_owns). vm_compute in d. subst d.
      intros Hin.
      repeat (apply elem_of_cons in Hin as [[= -> ->]|Hin]; [by eexists|]).
      by apply elem_of_nil in Hin.
  - by exists data, s'.
Qed.

(** ** Export of a store read back from disk *)

Lemma get_map_written {V : Type} (f : V → V) (k : string) (d : Dict.t V) :
  Dict.get k (map (λ '(k', v), (k', f v)) d) = f <$> Dict.get k d.
Proof.
  induction d as [|[k' v'] d IH]; simpl; [done|].
  by destruct (String.eqb k k').
Qed.

(** C8. A store that [_load_knowledge_graph] read back from the files that
    [_save_knowledge_graph] wrote for a store with at least one entity holds
    the same entity ids with every timestamp as a text, and [to_dict] raises
    [AttributeError] on it: there is no exported dictionary for [from_dict]
    to load. *)
Theorem to_dict_raises_after_reload
    (str_datetime isoformat : datetime → string)
    (c : config) (now : datetime) (s : store) :
  entities s ≠ [] →
  let reloaded := new_store c now (Some (_save_knowledge_graph str_datetime s)) in
  Dict.keys (entities reloaded) = Dict.keys (entities s)
  ∧ (∀ k, Dict.get k (entities reloaded)
          = entity_written str_datetime <$> Dict.get k (entities s))
  ∧ (∀ k e, Dict.get k (entities reloaded) = Some e →
       ∃ created accessed,
         e_created_at e = Text created ∧ e_last_accessed e = Text accessed)
  ∧ to_dict isoformat reloaded = Raised AttributeError.
Proof.
  intros Hne reloaded. unfold reloaded, new_store, _load_knowledge_graph.
  unfold _save_knowledge_graph. store_simpl. cbn [f_entities].
  split_and!.
  - unfold Dict.keys. rewrite map_map. apply map_ext. by intros [k e].
  - intros k. apply get_map_written.
  - intros k e. rewrite get_map_written.
    destruct (Dict.get k (entities s)) as [e0|]; [|done]. intros [= <-].
    unfold entity_written. cbn [e_created_at e_last_accessed].
    destruct (e_created_at e0), (e_last_accessed e0); by do 2 eexists.
  - unfold to_dict. store_simpl.
    destruct (entities s) as [|[k e] rest]; [done|]. cbn [map dump_items].
    unfold entity_to_json, entity_written. cbn [e_created_at e_last_accessed].
    by destruct (e_created_at e), (e_last_accessed e).
Qed.

Lemma to_dict_raises_after_reload_witness :
  let reloaded :=
    new_store (mk_config 2 1) 9
              (Some (_save_knowledge_graph decimal_stamp store_owns)) in
  Dict.keys (entities reloaded) = ["a"; "b"]
  ∧ to_dict decimal_stamp reloaded = Raised AttributeError.
Proof.
  intros reloaded.
  destruct (to_dict_raises_after_reload decimal_stamp decimal_stamp
              (mk_config 2 1) 9 store_owns)
    as (Hkeys & _ & _ & Hraise).
  - vm_compute. discriminate.
  - split; [exact Hkeys|exact Hraise].
Defined.

(** ** The inference cache *)





Lemma unique_by_id_subset (seen : gset string) (rs : list inference) (r : inference) :
  r ∈ unique_by_id seen rs → r ∈ rs.
Proof.
  revert seen. induction rs as [|x rs IH]; intros seen; simpl; [done|].
  case_bool_decide.
  - intros H'. apply list_elem_of_further. by eapply IH.
  - intros [->|H']%elem_of_cons; [apply list_elem_of_here|].
    apply list_elem_of_further. by eapply IH.
Qed.








Section Cache.
Context {L : CaseMapping}.
Variable timestamp_str : datetime → string.



End Cache.


(** ** Stored entities stay indexed *)

Lemma discard_type_keeps (ty0 eid ty x : string) (ti : gmap string (gset string)) :
  x ≠ eid →
  x ∈ default ∅ (ti !! ty) →
  x ∈ default ∅ (index_discard_type ty0 eid ti !! ty).
Proof.
  intros Hne Hin. unfold index_discard_type.
  destruct (ti !! ty0) as [ids|] eqn:E; [|done].
  destruct (decide (ty0 = ty)) as [->|Hty].
  - rewrite lookup_insert_eq. rewrite E in Hin. simpl in *.
    apply elem_of_difference. split; [done|]. by rewrite elem_of_singleton.
  - by rewrite lookup_insert_ne.
Qed.

Lemma discard_attr_keeps (eid a v x : string) (item : string * string)
    (ai : gmap string (gmap string (gset string))) :
  x ≠ eid →
  x ∈ default ∅ (default ∅ (ai !! a) !! v) →
  x ∈ default ∅ (default ∅ (index_discard_attr eid ai item !! a) !! v).
Proof.
  intros Hne Hin. destruct item as [a0 v0]. unfold index_discard_attr.
  destruct (ai !! a0) as [by_value|] eqn:Ea; [|done].
  destruct (by_value !! v0) as [ids|] eqn:Ev; [|done].
  destruct (decide (a0 = a)) as [->|Ha]; [|by rewrite lookup_insert_ne].
  rewrite lookup_insert_eq. rewrite Ea in Hin. simpl in *.
  destruct (decide (v0 = v)) as [->|Hv]; [|by rewrite lookup_insert_ne].
  rewrite lookup_insert_eq. rewrite Ev in Hin. simpl in *.
  apply elem_of_difference. split; [done|]. by rewrite elem_of_singleton.
Qed.

Lemma discard_attrs_keep (eid a v x : string) (items : attrs)
    (ai : gmap string (gmap string (gset string))) :
  x ≠ eid →
  x ∈ default ∅ (default ∅ (ai !! a) !! v) →
  x ∈ default ∅ (default ∅ (foldl (index_discard_attr eid) ai items !! a) !! v).
Proof.
  intros Hne. revert ai. induction items as [|item items IH]; intros ai Hin; [done|].
  simpl. apply IH. by apply discard_attr_keeps.
Qed.

Lemma add_type_keeps (ty0 eid ty x : string) (ti : gmap string (gset string)) :
  x ∈ default ∅ (ti !! ty) → x ∈ default ∅ (index_add_type ty0 eid ti !! ty).
Proof.
  intros Hin. unfold index_add_type.
  destruct (decide (ty0 = ty)) as [->|Hty]; [|by rewrite lookup_insert_ne].
  rewrite lookup_insert_eq. simpl. apply elem_of_union. by left.
Qed.

Lemma add_type_adds (ty eid : string) (ti : gmap string (gset string)) :
  eid ∈ default ∅ (index_add_type ty eid ti !! ty).
Proof.
  unfold index_add_type. rewrite lookup_insert_eq. simpl.
  apply elem_of_union. right. by apply elem_of_singleton.
Qed.

Lemma add_attr_keeps (eid a v x : string) (item : string * string)
    (ai : gmap string (gmap string (gset string))) :
  x ∈ default ∅ (default ∅ (ai !! a) !! v) →
  x ∈ default ∅ (default ∅ (index_add_attr eid ai item !! a) !! v).
Proof.
  intros Hin. destruct item as [a0 v0]. unfold index_add_attr.
  destruct (decide (a0 = a)) as [->|Ha]; [|by rewrite lookup_insert_ne].
  rewrite lookup_insert_eq. simpl.
  destruct (decide (v0 = v)) as [->|Hv]; [|by rewrite lookup_insert_ne].
  rewrite lookup_insert_eq. simpl. apply elem_of_union. by left.
Qed.

Lemma add_attr_adds (eid a v : string)
    (ai : gmap string (gmap string (gset string))) :
  eid ∈ default ∅ (default ∅ (index_add_attr eid ai (a, v) !! a) !! v).
Proof.
  unfold index_add_attr. rewrite lookup_insert_eq. simpl.
  rewrite lookup_insert_eq. simpl. apply elem_of_union. right.
  by apply elem_of_singleton.
Qed.

Lemma add_attrs_keep (eid a v x : string) (items : attrs)
    (ai : gmap string (gmap string (gset string))) :
  x ∈ default ∅ (default ∅ (ai !! a) !! v) →
  x ∈ default ∅ (default ∅ (foldl (index_add_attr eid) ai items !! a) !! v).
Proof.
  revert ai. induction items as [|item items IH]; intros ai Hin; [done|].
  simpl. apply IH. by apply add_attr_keeps.
Qed.

Lemma add_attrs_add (eid a v : string) (items : attrs)
    (ai : gmap string (gmap string (gset string))) :
  (a, v) ∈ items →
  eid ∈ default ∅ (default ∅ (foldl (index_add_attr eid) ai items !! a) !! v).
Proof.
  revert ai. induction items as [|item items IH]; intros ai Hin.
  - by apply elem_of_nil in Hin.
  - simpl. apply elem_of_cons in Hin as [<-|Hin]; [|by apply IH].
    apply add_attrs_keep, add_attr_adds.
Qed.

Lemma indexes_remove_relation (rid : string) (now : datetime) (s : store) :
  type_index (remove_relation rid now s).2 = type_index s
  ∧ attribute_index (remove_relation rid now s).2 = attribute_index s.
Proof. unfold remove_relation. by destruct (Dict.get rid (relations s)). Qed.

Lemma indexes_remove_relations (rids : list string) (now : datetime) (s : store) :
  type_index (foldl (λ s rid, (remove_relation rid now s).2) s rids) = type_index s
  ∧ attribute_index (foldl (λ s rid, (remove_relation rid now s).2) s rids)
    = attribute_index s.
Proof.
  revert s. induction rids as [|rid rids IH]; intros s; simpl; [done|].
  destruct (IH (remove_relation rid now s).2) as [-> ->].
  apply indexes_remove_relation.
Qed.

Lemma indexes_remove_entity (eid : string) (now : datetime) (s : store) (e : entity) :
  Dict.get eid (entities s) = Some e →
  type_index (remove_entity eid now s).2
  = index_discard_type (e_type e) eid (type_index s)
  ∧ attribute_index (remove_entity eid now s).2
    = foldl (index_discard_attr eid) (attribute_index s) (e_attributes e).
Proof.
  intros Hget. unfold remove_entity. rewrite Hget. store_simpl.
  match goal with |- context [Graph.has_node ?n ?g] =>
    destruct (Graph.has_node n g) end;
    store_simpl;
    match goal with |- context [foldl ?f ?s0 ?l] =>
      destruct (indexes_remove_relations l now s0) as [-> ->] end;
    done.
Qed.

(** The two properties read the Entity map and the indexes only. *)
Lemma index_invariant_transfer (s s' : store) :
  entities s' = entities s →
  type_index s' = type_index s →
  attribute_index s' = attribute_index s →
  keyed s ∧ index_complete s → keyed s' ∧ index_complete s'.
Proof.
  unfold keyed, index_complete. intros -> -> ->. done.
Qed.

Lemma remove_relation_invariant (rid : string) (now : datetime) (s : store) :
  keyed s ∧ index_complete s →
  keyed (remove_relation rid now s).2 ∧ index_complete (remove_relation rid now s).2.
Proof.
  apply index_invariant_transfer;
    [apply entities_remove_relation|apply indexes_remove_relation..].
Qed.

Lemma remove_entity_invariant (eid : string) (now : datetime) (s : store) :
  keyed s ∧ index_complete s →
  keyed (remove_entity eid now s).2 ∧ index_complete (remove_entity eid now s).2.
Proof.
  intros [Hkeyed Hcomplete].
  destruct (Dict.get eid (entities s)) as [e|] eqn:Hget.
  2:{ unfold remove_entity. by rewrite Hget. }
  destruct (indexes_remove_entity eid now s e Hget) as [Hti Hai].
  assert (∀ k e', Dict.get k (entities (remove_entity eid now s).2) = Some e' →
            k ≠ eid ∧ Dict.get k (entities s) = Some e') as Hold.
  { intros k e'. rewrite entities_remove_entity.
    destruct (decide (eid = k)) as [->|Hne].
    - by rewrite DictFacts.get_del_eq.
    - rewrite DictFacts.get_del_ne by done. by split; [intros ->|]. }
  split.
  - intros k e' [_ Hk]%Hold. by apply Hkeyed.
  - intros k e' [Hne Hk]%Hold. rewrite Hti, Hai.
    destruct (Hcomplete k e' Hk) as [Hty Hattrs].
    assert (e_id e' ≠ eid) as Hid by (by rewrite (Hkeyed k e' Hk)).
    split.
    + by apply discard_type_keeps.
    + intros a v Hav. apply discard_attrs_keep; [done|]. by apply Hattrs.
Qed.

Lemma evict_entity_invariant (now : datetime) (s : store) :
  keyed s ∧ index_complete s →
  keyed (_remove_least_important_entity now s)
  ∧ index_complete (_remove_least_important_entity now s).
Proof.
  unfold _remove_least_important_entity.
  destruct (py_min _ _); [apply remove_entity_invariant|done].
Qed.

Lemma evict_relation_invariant (now : datetime) (s : store) :
  keyed s ∧ index_complete s →
  keyed (_remove_least_important_relation now s)
  ∧ index_complete (_remove_least_important_relation now s).
Proof.
  unfold _remove_least_important_relation.
  destruct (py_min _ _); [apply remove_relation_invariant|done].
Qed.

Section Invariant.
Variable timestamp_str : datetime → string.

Lemma add_entity_invariant (payload : entity_payload) (now : datetime) (s : store) :
  keyed s ∧ index_complete s →
  keyed (add_entity timestamp_str payload now s).2
  ∧ index_complete (add_entity timestamp_str payload now s).2.
Proof.
  intros Hinv. unfold add_entity.
  set (s1 := if Z.of_nat (length (entities s)) >=? max_entities (cfg s)
             then _remove_least_important_entity now s else s).
  assert (keyed s1 ∧ index_complete s1) as [Hkeyed Hcomplete].
  { unfold s1. destruct (_ >=? _); [by apply evict_entity_invariant|done]. }
  set (eid := entity_id_of timestamp_str payload now).
  set (e := mk_entity eid _ _ _ _ _ _ _ _ _).
  unfold _update_entity_indexes, keyed, index_complete. store_simpl.
  unfold keyed, index_complete in Hkeyed, Hcomplete.
  split.
  - intros k e'. rewrite DictFacts.get_set.
    destruct (String.eqb_spec eid k) as [<-|Hne]; [by intros [= <-]|].
    apply Hkeyed.
  - intros k e'. rewrite DictFacts.get_set.
    destruct (String.eqb_spec eid k) as [<-|Hne].
    + intros [= <-]. split.
      * apply add_type_adds.
      * intros a v Hav. by apply add_attrs_add.
    + intros Hk. destruct (Hcomplete k e' Hk) as [Hty Hattrs]. split.
      * by apply add_type_keeps.
      * intros a v Hav. apply add_attrs_keep. by apply Hattrs.
Qed.

Lemma add_relation_invariant (payload : relation_payload) (now : datetime) (s : store) :
  keyed s ∧ index_complete s →
  keyed (add_relation timestamp_str payload now s).2
  ∧ index_complete (add_relation timestamp_str payload now s).2.
Proof.
  intros Hinv. unfold add_relation.
  set (s1 := if Z.of_nat (length (relations s)) >=? max_relations (cfg s)
             then _remove_least_important_relation now s else s).
  assert (keyed s1 ∧ index_complete s1) as Hinv1.
  { unfold s1. destruct (_ >=? _); [by apply evict_relation_invariant|done]. }
  destruct (rp_source payload) as [src|]; [|done].
  destruct (rp_target payload) as [tgt|]; [|done].
  destruct (negb (Dict.mem src (entities s1)) || negb (Dict.mem tgt (entities s1)));
    [done|].
  destruct (default false (rp_bidirectional payload)); exact Hinv1.
Qed.

Lemma run_op_invariant (op : kg_op) (s : store) :
  keyed s ∧ index_complete s →
  keyed (run_op timestamp_str op s) ∧ index_complete (run_op timestamp_str op s).
Proof.
  destruct op; simpl.
  - apply add_entity_invariant.
  - apply add_relation_invariant.
  - apply remove_entity_invariant.
  - apply remove_relation_invariant.
  - apply evict_entity_invariant.
  - apply evict_relation_invariant.
Qed.

(** After any sequence of insertions, removals and evictions on an empty
    store, every stored entity is listed under its type and under each of
    its attribute items. *)
Lemma stored_entities_are_indexed (c : config) (now : datetime) (ops : list kg_op) :
  index_complete (run_ops timestamp_str ops (empty_store c now)).
Proof.
  assert (keyed (empty_store c now) ∧ index_complete (empty_store c now)) as Hinit.
  { split; intros k e H; discriminate. }
  revert Hinit. generalize (empty_store c now). unfold run_ops.
  induction ops as [|op ops IH]; intros s Hinv; simpl; [apply Hinv|].
  apply IH. by apply run_op_invariant.
Qed.
End Invariant.

(** ** Cascading removal *)

Lemma relations_remove_relations (rids : list string) (now : datetime) (s : store) :
  relations (foldl (λ s rid, (remove_relation rid now s).2) s rids)
  = foldl (λ d rid, Dict.del rid d) (relations s) rids.
Proof.
  revert s. induction rids as [|rid rids IH]; intros s; simpl; [done|].
  by rewrite IH, relations_remove_relation.
Qed.

Lemma get_foldl_del {V : Type} (k : string) (rids : list string) (d : Dict.t V) :
  Dict.get k (foldl (λ d rid, Dict.del rid d) d rids)
  = if bool_decide (k ∈ rids) then None else Dict.get k d.
Proof.
  revert d. induction rids as [|rid rids IH]; intros d; cbn [foldl].
  - by rewrite bool_decide_eq_false_2 by apply not_elem_of_nil.
  - rewrite IH. destruct (decide (k = rid)) as [->|Hne].
    + rewrite (bool_decide_eq_true_2 (rid ∈ rid :: rids)) by apply list_elem_of_here.
      rewrite DictFacts.get_del_eq. by case_bool_decide.
    + rewrite DictFacts.get_del_ne by done.
      do 2 case_bool_decide; try done.
      * exfalso. by apply H0, list_elem_of_further.
      * apply elem_of_cons in H0 as [?|?]; done.
Qed.

Lemma relations_remove_entity (eid : string) (now : datetime) (s : store) (e : entity) :
  Dict.get eid (entities s) = Some e →
  relations (remove_entity eid now s).2
  = foldl (λ d rid, Dict.del rid d) (relations s)
          (Dict.keys (filter (λ item, incident eid item) (relations s))).
Proof.
  intros Hget. unfold remove_entity. rewrite Hget. store_simpl.
  match goal with |- context [Graph.has_node ?n ?g] =>
    destruct (Graph.has_node n g) end;
    store_simpl; by rewrite relations_remove_relations.
Qed.

Lemma get_map_values {V W : Type} (f : V → W) (k : string) (d : Dict.t V) :
  Dict.get k (map (λ '(u, x), (u, f x)) d) = f <$> Dict.get k d.
Proof.
  induction d as [|[k' v'] d IH]; simpl; [done|].
  by destruct (String.eqb k k').
Qed.

Lemma has_node_remove_node (n : string) (g : Graph.t) :
  Graph.has_node n (Graph.remove_node n g) = false.
Proof.
  unfold Graph.has_node, Graph.remove_node, Dict.mem.
  by rewrite get_map_values, DictFacts.get_del_eq.
Qed.

Lemma incident_spec (eid k : string) (r : relation) :
  incident eid (k, r) = true ↔ r_source r = eid ∨ r_target r = eid.
Proof.
  unfold incident. simpl. rewrite orb_true_iff, !String.eqb_eq. done.
Qed.

Lemma has_node_after_remove_entity (eid : string) (now : datetime) (s : store) :
  Graph.has_node eid (graph (remove_entity eid now s).2) = false
  ∨ Dict.get eid (entities s) = None.
Proof.
  unfold remove_entity. destruct (Dict.get eid (entities s)) as [e|]; [|by right].
  left. store_simpl.
  set (s2 := foldl (λ s rid, (remove_relation rid now s).2) _ _).
  destruct (Graph.has_node eid (graph s2)) eqn:E; store_simpl.
  - apply has_node_remove_node.
  - exact E.
Qed.

(** X1. Removing a stored entity returns [True], deletes its record and its
    graph node, and deletes every relation that has it as source or target:
    no relation left in the Relation map names the removed id, relations
    that do not name it are kept as they were, and the other entities are
    untouched. *)
Theorem remove_entity_cascades
    (eid : string) (now : datetime) (s : store) (e : entity) :
  Dict.get eid (entities s) = Some e →
  let s' := (remove_entity eid now s).2 in
  (remove_entity eid now s).1 = true
  ∧ Dict.get eid (entities s') = None
  ∧ (∀ k, k ≠ eid → Dict.get k (entities s') = Dict.get k (entities s))
  ∧ (∀ k r, Dict.get k (relations s') = Some r →
       Dict.get k (relations s) = Some r ∧ r_source r ≠ eid ∧ r_target r ≠ eid)
  ∧ (Dict.wf (relations s) →
     ∀ k r, Dict.get k (relations s) = Some r →
       r_source r ≠ eid → r_target r ≠ eid →
       Dict.get k (relations s') = Some r)
  ∧ Graph.has_node eid (graph s') = false.
Proof.
  intros Hget s'.
  assert (relations s'
          = foldl (λ d rid, Dict.del rid d) (relations s)
              (Dict.keys (filter (λ item, incident eid item) (relations s))))
    as Hrel by (by apply (relations_remove_entity eid now s e)).
  split_and!.
  - unfold remove_entity. by rewrite Hget.
  - unfold s'. rewrite entities_remove_entity. apply DictFacts.get_del_eq.
  - intros k Hne. unfold s'. rewrite entities_remove_entity.
    by apply DictFacts.get_del_ne.
  - intros k r. rewrite Hrel, get_foldl_del. case_bool_decide as Hin; [done|].
    intros Hk. split; [done|].
    assert (incident eid (k, r) = false) as Hinc.
    { destruct (incident eid (k, r)) eqn:E; [|done]. exfalso. apply Hin.
      apply (list_elem_of_fmap_2 fst _ (k, r)).
      apply list_elem_of_filter. split; [by rewrite E|].
      by apply DictFacts.get_Some_elem. }
    split; intros Heq; [assert (incident eid (k, r) = true) as Ht
                         by (apply incident_spec; by left)
                       |assert (incident eid (k, r) = true) as Ht
                         by (apply incident_spec; by right)];
      congruence.
  - intros Hwf k r Hk Hsrc Htgt. rewrite Hrel, get_foldl_del.
    rewrite bool_decide_eq_false_2; [done|].
    intros ([k' r'] & Hkk & Hin)%list_elem_of_fmap. simpl in Hkk. subst k'.
    apply list_elem_of_filter in Hin as [Hinc Hin].
    rewrite (DictFacts.elem_get _ _ _ Hwf Hin) in Hk. injection Hk as ->.
    apply Is_true_true, incident_spec in Hinc. by destruct Hinc.
  - destruct (has_node_after_remove_entity eid now s) as [H|H]; [done|congruence].
Qed.

Lemma remove_entity_cascades_witness :
  relations (remove_entity "a" 4 store_owns).2 = []
  ∧ Graph.has_node "a" (graph (remove_entity "a" 4 store_owns).2) = false.
Proof.
  destruct (remove_entity_cascades "a" 4 store_owns
              (mk_entity "a" "A" "person" [] "" (1 # 10) 1 1 0 1))
    as (_ & _ & _ & _ & _ & Hnode).
  - vm_compute. reflexivity.
  - split; [vm_compute; reflexivity|exact Hnode].
Defined.

(** ** Structural invariants of reachable stores *)

Lemma mem_set {V : Type} (k k' : string) (v : V) (d : Dict.t V) :
  Dict.mem k' (Dict.set k v d) = String.eqb k k' || Dict.mem k' d.
Proof.
  unfold Dict.mem. rewrite DictFacts.get_set. by destruct (String.eqb k k').
Qed.

Lemma mem_del {V : Type} (k k' : string) (d : Dict.t V) :
  Dict.mem k' (Dict.del k d) = negb (String.eqb k k') && Dict.mem k' d.
Proof.
  unfold Dict.mem. destruct (String.eqb_spec k k') as [->|Hne].
  - by rewrite DictFacts.get_del_eq.
  - by rewrite DictFacts.get_del_ne.
Qed.

Lemma has_node_add_node_iff (n k : string) (g : Graph.t) :
  Graph.has_node k (Graph.add_node n g) = String.eqb n k || Graph.has_node k g.
Proof.
  unfold Graph.has_node, Graph.add_node.
  destruct (Dict.mem n g) eqn:E; [|apply mem_set].
  destruct (String.eqb_spec n k) as [<-|]; [|done]. by rewrite E.
Qed.

Lemma mem_set_present {V : Type} (k k' : string) (v : V) (d : Dict.t V) :
  Dict.mem k d = true → Dict.mem k' (Dict.set k v d) = Dict.mem k' d.
Proof.
  intros H. rewrite mem_set. destruct (String.eqb_spec k k') as [<-|]; [|done].
  by rewrite H.
Qed.

Lemma has_node_add_edge (u v key k : string) (d : relation) (g : Graph.t) :
  Graph.has_node k (Graph.add_edge u v key d g)
  = String.eqb u k || String.eqb v k || Graph.has_node k g.
Proof.
  unfold Graph.add_edge.
  set (g2 := Graph.add_node v (Graph.add_node u g)).
  assert (Dict.mem u g2 = true) as Hu.
  { unfold g2. change (Dict.mem u ?x) with (Graph.has_node u x).
    rewrite !has_node_add_node_iff, String.eqb_refl. by rewrite orb_true_r. }
  unfold Graph.has_node at 1. rewrite (mem_set_present _ _ _ _ Hu).
  change (Dict.mem k g2) with (Graph.has_node k g2). unfold g2.
  rewrite !has_node_add_node_iff. by destruct (String.eqb u k), (String.eqb v k).
Qed.

Lemma has_node_remove_edge (u v key k : string) (g : Graph.t) :
  Graph.has_node k (Graph.remove_edge u v key g) = Graph.has_node k g.
Proof.
  unfold Graph.remove_edge.
  destruct (Dict.get u g) as [nbrs|] eqn:Eu; [|done].
  destruct (Dict.get v nbrs) as [keydict|]; [|done].
  unfold Graph.has_node. apply mem_set_present. unfold Dict.mem. by rewrite Eu.
Qed.

Lemma has_node_remove_node_iff (n k : string) (g : Graph.t) :
  Graph.has_node k (Graph.remove_node n g)
  = negb (String.eqb n k) && Graph.has_node k g.
Proof.
  unfold Graph.has_node, Graph.remove_node, Dict.mem.
  rewrite get_map_values.
  pose proof (mem_del n k g) as H. unfold Dict.mem in H.
  destruct (Dict.get k (Dict.del n g)); simpl; rewrite <-H; done.
Qed.

Lemma has_node_remove_relation (rid k : string) (now : datetime) (s : store) :
  Graph.has_node k (graph (remove_relation rid now s).2) = Graph.has_node k (graph s).
Proof.
  unfold remove_relation. destruct (Dict.get rid (relations s)) as [rel|]; [|done].
  store_simpl.
  repeat match goal with
         | |- context [if ?b then _ else _] => destruct b
         end; rewrite ?has_node_remove_edge; done.
Qed.

Lemma has_node_remove_relations (rids : list string) (k : string) (now : datetime)
    (s : store) :
  Graph.has_node k (graph (foldl (λ s rid, (remove_relation rid now s).2) s rids))
  = Graph.has_node k (graph s).
Proof.
  revert s. induction rids as [|rid rids IH]; intros s; simpl; [done|].
  by rewrite IH, has_node_remove_relation.
Qed.

Lemma graph_remove_entity (eid : string) (now : datetime) (s : store) (e : entity) :
  Dict.get eid (entities s) = Some e →
  ∀ k, Graph.has_node k (graph (remove_entity eid now s).2)
       = negb (String.eqb eid k) && Graph.has_node k (graph s).
Proof.
  intros Hget k. unfold remove_entity. rewrite Hget. store_simpl.
  set (s2 := foldl (λ s rid, (remove_relation rid now s).2) _ _).
  assert (∀ k, Graph.has_node k (graph s2) = Graph.has_node k (graph s)) as Hs2.
  { intros k'. unfold s2. by rewrite has_node_remove_relations. }
  destruct (Graph.has_node eid (graph s2)) eqn:E; store_simpl.
  - by rewrite has_node_remove_node_iff, Hs2.
  - rewrite Hs2. destruct (String.eqb_spec eid k) as [<-|]; [|done].
    by rewrite <-Hs2, E.
Qed.

Section Shapes.
Variable timestamp_str : datetime → string.

(** [add_entity] as one update of the store left by the capacity check. *)
Lemma add_entity_shape (payload : entity_payload) (now : datetime) (s : store) :
  let q := after_entity_capacity_check now s in
  let e := entity_of_payload timestamp_str payload now in
  add_entity timestamp_str payload now s
  = (e_id e,
     with_last_updated now
       (_update_entity_indexes (e_id e) e
          (with_graph (Graph.add_node (e_id e) (graph q))
             (with_entities (Dict.set (e_id e) e (entities q)) q)))).
Proof. reflexivity. Qed.

(** [add_relation] as one update of the store left by the capacity check. *)
Lemma add_relation_shape (payload : relation_payload) (now : datetime) (s : store) :
  let q := after_relation_capacity_check now s in
  match add_relation timestamp_str payload now s with
  | (Raised x, s') =>
      s' = q ∧ x = ValueError
      ∧ is_entity (rp_source payload) q && is_entity (rp_target payload) q = false
  | (Returned rid, s') =>
      ∃ src tgt,
        rp_source payload = Some src ∧ rp_target payload = Some tgt
        ∧ Dict.mem src (entities q) = true ∧ Dict.mem tgt (entities q) = true
        ∧ let rel := relation_of_payload timestamp_str payload now src tgt in
          rid = r_id rel
          ∧ s' = with_last_updated now
                   (with_graph
                      (if r_bidirectional rel
                       then Graph.add_edge tgt src (r_id (reverse_of rel))
                              (reverse_of rel)
                              (Graph.add_edge src tgt rid rel (graph q))
                       else Graph.add_edge src tgt rid rel (graph q))
                      (with_relations (Dict.set rid rel (relations q)) q))
  end.
Proof.
  intros q. unfold add_relation. fold (after_relation_capacity_check now s).
  fold q. unfold is_entity.
  destruct (rp_source payload) as [src|]; [|done].
  destruct (rp_target payload) as [tgt|]; [|by rewrite andb_false_r].
  destruct (Dict.mem src (entities q)) eqn:Es; [|done].
  destruct (Dict.mem tgt (entities q)) eqn:Et; [|done].
  simpl negb. cbv iota. cbn [orb].
  exists src, tgt.
  split; [done|]. split; [done|]. split; [done|]. split; [done|].
  cbn zeta. split; [reflexivity|].
  unfold relation_of_payload. cbn [r_bidirectional].
  destruct (default false (rp_bidirectional payload)); reflexivity.
Qed.
End Shapes.

Lemma remaining_after_remove_entity (eid k : string) (now : datetime) (s : store)
    (e : entity) (r : relation) :
  Dict.get eid (entities s) = Some e →
  Dict.get k (relations (remove_entity eid now s).2) = Some r →
  Dict.get k (relations s) = Some r ∧ r_source r ≠ eid ∧ r_target r ≠ eid.
Proof.
  intros Hget. rewrite (relations_remove_entity eid now s e Hget), get_foldl_del.
  case_bool_decide as Hin; [done|]. intros Hk. split; [done|].
  assert (incident eid (k, r) = false) as Hinc.
  { destruct (incident eid (k, r)) eqn:E; [|done]. exfalso. apply Hin.
    apply (list_elem_of_fmap_2 fst _ (k, r)).
    apply list_elem_of_filter. split; [by rewrite E|].
    by apply DictFacts.get_Some_elem. }
  split; intros Heq.
  - assert (incident eid (k, r) = true) as Ht by (apply incident_spec; by left).
    congruence.
  - assert (incident eid (k, r) = true) as Ht by (apply incident_spec; by right).
    congruence.
Qed.

Lemma remove_relation_structure (rid : string) (now : datetime) (s : store) :
  references_live s ∧ nodes_are_entities s →
  references_live (remove_relation rid now s).2
  ∧ nodes_are_entities (remove_relation rid now s).2.
Proof.
  intros [Hlive Hnodes]. split.
  - intros k r. rewrite relations_remove_relation, entities_remove_relation.
    destruct (decide (rid = k)) as [->|Hne].
    + by rewrite DictFacts.get_del_eq.
    + rewrite DictFacts.get_del_ne by done. apply Hlive.
  - intros k. rewrite has_node_remove_relation, entities_remove_relation.
    apply Hnodes.
Qed.

Lemma remove_entity_structure (eid : string) (now : datetime) (s : store) :
  references_live s ∧ nodes_are_entities s →
  references_live (remove_entity eid now s).2
  ∧ nodes_are_entities (remove_entity eid now s).2.
Proof.
  intros [Hlive Hnodes].
  destruct (Dict.get eid (entities s)) as [e|] eqn:Hget.
  2:{ unfold remove_entity. by rewrite Hget. }
  split.
  - intros k r Hk.
    destruct (remaining_after_remove_entity _ _ _ _ _ _ Hget Hk)
      as (Hold & Hsrc & Htgt).
    destruct (Hlive k r Hold) as (Hid & Hs & Ht).
    rewrite entities_remove_entity, !mem_del, Hs, Ht.
    split; [done|].
    destruct (String.eqb_spec eid (r_source r)), (String.eqb_spec eid (r_target r));
      done.
  - intros k. rewrite (graph_remove_entity eid now s e Hget).
    rewrite entities_remove_entity, mem_del. by rewrite Hnodes.
Qed.

Lemma evict_entity_structure (now : datetime) (s : store) :
  references_live s ∧ nodes_are_entities s →
  references_live (_remove_least_important_entity now s)
  ∧ nodes_are_entities (_remove_least_important_entity now s).
Proof.
  unfold _remove_least_important_entity.
  destruct (py_min _ _); [apply remove_entity_structure|done].
Qed.

Lemma evict_relation_structure (now : datetime) (s : store) :
  references_live s ∧ nodes_are_entities s →
  references_live (_remove_least_important_relation now s)
  ∧ nodes_are_entities (_remove_least_important_relation now s).
Proof.
  unfold _remove_least_important_relation.
  destruct (py_min _ _); [apply remove_relation_structure|done].
Qed.

Lemma absorb_endpoint {V : Type} (u k : string) (b : bool) (d : Dict.t V) :
  Dict.mem u d = true → b = Dict.mem k d → String.eqb u k || b = Dict.mem k d.
Proof.
  intros Hu ->. destruct (String.eqb_spec u k) as [->|]; [by rewrite Hu|done].
Qed.

Section Structure.
Variable timestamp_str : datetime → string.

Lemma add_entity_structure (payload : entity_payload) (now : datetime) (s : store) :
  references_live s ∧ nodes_are_entities s →
  references_live (add_entity timestamp_str payload now s).2
  ∧ nodes_are_entities (add_entity timestamp_str payload now s).2.
Proof.
  intros Hinv. rewrite add_entity_shape.
  set (q := after_entity_capacity_check now s).
  assert (references_live q ∧ nodes_are_entities q) as [Hlive Hnodes].
  { unfold q, after_entity_capacity_check.
    destruct (_ >=? _); [by apply evict_entity_structure|done]. }
  set (e := entity_of_payload timestamp_str payload now).
  unfold _update_entity_indexes, references_live, nodes_are_entities.
  store_simpl. split.
  - intros k r Hk. destruct (Hlive k r Hk) as (Hid & Hs & Ht).
    rewrite !mem_set, Hs, Ht, !orb_true_r. done.
  - intros k. by rewrite has_node_add_node_iff, mem_set, Hnodes.
Qed.

Lemma add_relation_structure (payload : relation_payload) (now : datetime)
    (s : store) :
  references_live s ∧ nodes_are_entities s →
  references_live (add_relation timestamp_str payload now s).2
  ∧ nodes_are_entities (add_relation timestamp_str payload now s).2.
Proof.
  intros Hinv.
  pose proof (add_relation_shape timestamp_str payload now s) as Hshape.
  set (q := after_relation_capacity_check now s) in *.
  assert (references_live q ∧ nodes_are_entities q) as [Hlive Hnodes].
  { unfold q, after_relation_capacity_check.
    destruct (_ >=? _); [by apply evict_relation_structure|done]. }
  destruct (add_relation timestamp_str payload now s) as [[rid|x] s'];
    cbv zeta in Hshape.
  2:{ destruct Hshape as (-> & _). done. }
  destruct Hshape as (src & tgt & _ & _ & Hs & Ht & -> & ->).
  set (rel := relation_of_payload timestamp_str payload now src tgt).
  unfold references_live, nodes_are_entities. store_simpl. split.
  - intros k r. rewrite DictFacts.get_set.
    destruct (String.eqb_spec (r_id rel) k) as [<-|Hne]; [|exact (Hlive k r)].
    intros [= <-]. by split_and!.
  - intros k.
    assert (∀ key d, Graph.has_node k (Graph.add_edge src tgt key d (graph q))
                     = Dict.mem k (entities q)) as Hfwd.
    { intros key d. rewrite has_node_add_edge, <-orb_assoc.
      apply absorb_endpoint; [done|]. apply absorb_endpoint; [done|].
      apply Hnodes. }
    destruct (r_bidirectional rel); [|apply Hfwd].
    rewrite has_node_add_edge, <-orb_assoc.
    apply absorb_endpoint; [done|]. apply absorb_endpoint; [done|]. apply Hfwd.
Qed.

Lemma run_op_structure (op : kg_op) (s : store) :
  references_live s ∧ nodes_are_entities s →
  references_live (run_op timestamp_str op s)
  ∧ nodes_are_entities (run_op timestamp_str op s).
Proof.
  destruct op; simpl.
  - apply add_entity_structure.
  - apply add_relation_structure.
  - apply remove_entity_structure.
  - apply remove_relation_structure.
  - apply evict_entity_structure.
  - apply evict_relation_structure.
Qed.

Lemma reachable_structure (c : config) (now : datetime) (ops : list kg_op) :
  references_live (run_ops timestamp_str ops (empty_store c now))
  ∧ nodes_are_entities (run_ops timestamp_str ops (empty_store c now)).
Proof.
  assert (references_live (empty_store c now)
          ∧ nodes_are_entities (empty_store c now)) as Hinit.
  { split; [intros k r H; discriminate|intros k; reflexivity]. }
  revert Hinit. generalize (empty_store c now). unfold run_ops.
  induction ops as [|op ops IH]; intros s Hinv; simpl; [apply Hinv|].
  apply IH. by apply run_op_structure.
Qed.

(** X2. Referential integrity: after any sequence of insertions, removals
    and evictions on an empty store, every relation in the Relation map is
    stored under its own id and both its source and its target are stored
    entities. *)
Theorem relations_reference_live_entities
    (c : config) (now : datetime) (ops : list kg_op) :
  references_live (run_ops timestamp_str ops (empty_store c now)).
Proof. apply reachable_structure. Qed.

(** X3. After any sequence of insertions, removals and evictions on an empty
    store the graph has exactly the stored entity ids as nodes, so
    [find_related_entities] without a relation-type filter never raises: it
    returns a list for every entity id, depth and time. *)
Theorem find_related_entities_returns
    (c : config) (now : datetime) (ops : list kg_op)
    (a : string) (depth : Z) (now' : datetime) :
  let s := run_ops timestamp_str ops (empty_store c now) in
  nodes_are_entities s
  ∧ ∃ rs, (find_related_entities a None depth now' s).1 = Returned rs.
Proof.
  intros s.
  destruct (reachable_structure c now ops) as [_ Hnodes]. fold s in Hnodes.
  split; [done|]. unfold find_related_entities.
  destruct (Dict.mem a (entities s)) eqn:Ha; simpl negb; cbv iota; [|by eexists].
  unfold Graph.single_source_shortest_path_length. rewrite Hnodes, Ha.
  set (targets := (a, 0%nat) :: _).
  assert (NoDup (map fst targets)) as Hnd.
  { apply (BfsFacts.distances_spec (graph s) a depth).
    unfold Graph.single_source_shortest_path_length. by rewrite Hnodes, Ha. }
  destruct (collect_related a (truthy None) now' targets s) as [out s'] eqn:Ecol.
  destruct (collect_related_spec _ _ _ _ _ _ _ Hnd Ecol) as [Hok|(_ & _ & ?)];
    [|done].
  destruct out as [rs|x]; [by eexists|by destruct Hok as (_ & _ & ?)].
Qed.
End Structure.

(** ** Index entries name stored entities when ids are fresh *)

Lemma discard_type_elem (ty0 eid ty x : string) (ti : gmap string (gset string)) :
  x ∈ default ∅ (index_discard_type ty0 eid ti !! ty) →
  x ∈ default ∅ (ti !! ty) ∧ (ty = ty0 → x ≠ eid).
Proof.
  unfold index_discard_type.
  destruct (ti !! ty0) as [ids|] eqn:E.
  - destruct (decide (ty0 = ty)) as [->|Hty].
    + rewrite lookup_insert_eq, E. simpl.
      intros [Hin Hne%not_elem_of_singleton]%elem_of_difference. done.
    + rewrite lookup_insert_ne by done. intros Hin. split; [done|congruence].
  - intros Hin. split; [done|]. intros ? ?. subst. rewrite E in Hin.
    by apply not_elem_of_empty in Hin.
Qed.

Lemma discard_attr_elem (eid a v x : string) (item : string * string)
    (ai : gmap string (gmap string (gset string))) :
  x ∈ default ∅ (default ∅ (index_discard_attr eid ai item !! a) !! v) →
  x ∈ default ∅ (default ∅ (ai !! a) !! v) ∧ ((a, v) = item → x ≠ eid).
Proof.
  destruct item as [a0 v0]. unfold index_discard_attr.
  destruct (ai !! a0) as [by_value|] eqn:Ea.
  - destruct (by_value !! v0) as [ids|] eqn:Ev.
    + destruct (decide (a0 = a)) as [->|Ha].
      * rewrite lookup_insert_eq, Ea. simpl.
        destruct (decide (v0 = v)) as [->|Hv].
        -- rewrite lookup_insert_eq, Ev. simpl.
           intros [Hin Hne%not_elem_of_singleton]%elem_of_difference. done.
        -- rewrite lookup_insert_ne by done. intros Hin.
           split; [done|congruence].
      * rewrite lookup_insert_ne by done. intros Hin. split; [done|congruence].
    + intros Hin. split; [done|]. intros [= ? ?] ?. subst.
      rewrite Ea in Hin. simpl in Hin. rewrite Ev in Hin.
      by apply not_elem_of_empty in Hin.
  - intros Hin. split; [done|]. intros [= ? ?] ?. subst.
    rewrite Ea in Hin. simpl in Hin. rewrite lookup_empty in Hin.
    by apply not_elem_of_empty in Hin.
Qed.

Lemma discard_attrs_elem (eid a v x : string) (items : attrs)
    (ai : gmap string (gmap string (gset string))) :
  x ∈ default ∅ (default ∅ (foldl (index_discard_attr eid) ai items !! a) !! v) →
  x ∈ default ∅ (default ∅ (ai !! a) !! v) ∧ ((a, v) ∈ items → x ≠ eid).
Proof.
  revert ai. induction items as [|item items IH]; intros ai; simpl.
  - intros Hin. split; [done|]. intros H. by apply elem_of_nil in H.
  - intros [Hin Hrest]%IH. apply discard_attr_elem in Hin as [Hin Hitem].
    split; [done|]. intros [Heq|H]%elem_of_cons; auto.
Qed.

Lemma add_type_elem (ty0 eid ty x : string) (ti : gmap string (gset string)) :
  x ∈ default ∅ (index_add_type ty0 eid ti !! ty) →
  x ∈ default ∅ (ti !! ty) ∨ (x = eid ∧ ty = ty0).
Proof.
  unfold index_add_type. destruct (decide (ty0 = ty)) as [->|Hty].
  - rewrite lookup_insert_eq. simpl.
    intros [Hin|Hx%elem_of_singleton]%elem_of_union; [by left|by right].
  - rewrite lookup_insert_ne by done. by left.
Qed.

Lemma add_attr_elem (eid a v x : string) (item : string * string)
    (ai : gmap string (gmap string (gset string))) :
  x ∈ default ∅ (default ∅ (index_add_attr eid ai item !! a) !! v) →
  x ∈ default ∅ (default ∅ (ai !! a) !! v) ∨ (x = eid ∧ (a, v) = item).
Proof.
  destruct item as [a0 v0]. unfold index_add_attr.
  destruct (decide (a0 = a)) as [->|Ha]; [|rewrite lookup_insert_ne by done; by left].
  rewrite lookup_insert_eq. simpl.
  destruct (decide (v0 = v)) as [->|Hv]; [|rewrite lookup_insert_ne by done; by left].
  rewrite lookup_insert_eq. simpl.
  intros [Hin|Hx%elem_of_singleton]%elem_of_union; [by left|by right].
Qed.

Lemma add_attrs_elem (eid a v x : string) (items : attrs)
    (ai : gmap string (gmap string (gset string))) :
  x ∈ default ∅ (default ∅ (foldl (index_add_attr eid) ai items !! a) !! v) →
  x ∈ default ∅ (default ∅ (ai !! a) !! v) ∨ (x = eid ∧ (a, v) ∈ items).
Proof.
  revert ai. induction items as [|item items IH]; intros ai; simpl; [by left|].
  intros [Hin|[-> Hin]]%IH.
  - apply add_attr_elem in Hin as [Hin|[-> ->]]; [by left|].
    right. split; [done|apply list_elem_of_here].
  - right. split; [done|by apply list_elem_of_further].
Qed.

Lemma index_exact_sound (s : store) : index_exact s → index_sound s.
Proof.
  intros [Hty Hattr]. split.
  - intros ty ids x Hlook Hin.
    destruct (Hty ty x) as (e & He & _); [by rewrite Hlook|].
    unfold Dict.mem. by rewrite He.
  - intros a by_value v ids x Ha Hv Hin.
    destruct (Hattr a v x) as (e & He & _); [by rewrite Ha; simpl; rewrite Hv|].
    unfold Dict.mem. by rewrite He.
Qed.

Lemma index_exact_transfer (s s' : store) :
  entities s' = entities s →
  type_index s' = type_index s →
  attribute_index s' = attribute_index s →
  index_exact s → index_exact s'.
Proof. unfold index_exact. intros -> -> ->. done. Qed.

Lemma remove_relation_exact (rid : string) (now : datetime) (s : store) :
  index_exact s → index_exact (remove_relation rid now s).2.
Proof.
  apply index_exact_transfer;
    [apply entities_remove_relation|apply indexes_remove_relation..].
Qed.

Lemma remove_entity_exact (eid : string) (now : datetime) (s : store) :
  index_exact s → index_exact (remove_entity eid now s).2.
Proof.
  intros [Hty Hattr].
  destruct (Dict.get eid (entities s)) as [e|] eqn:Hget.
  2:{ unfold remove_entity. by rewrite Hget. }
  destruct (indexes_remove_entity eid now s e Hget) as [Hti Hai].
  unfold index_exact. rewrite Hti, Hai, entities_remove_entity. split.
  - intros ty x [Hin Hne]%discard_type_elem.
    destruct (Hty ty x Hin) as (e' & He' & Htype). exists e'. split; [|done].
    rewrite DictFacts.get_del_ne; [done|]. intros <-.
    rewrite Hget in He'. injection He' as <-. by apply Hne.
  - intros a v x [Hin Hne]%discard_attrs_elem.
    destruct (Hattr a v x Hin) as (e' & He' & Hav). exists e'. split; [|done].
    rewrite DictFacts.get_del_ne; [done|]. intros <-.
    rewrite Hget in He'. injection He' as <-. by apply Hne.
Qed.

Section Exactness.
Variable timestamp_str : datetime → string.

Lemma add_entity_exact (payload : entity_payload) (now : datetime) (s : store) :
  Dict.mem (entity_id_of timestamp_str payload now) (entities s) = false →
  index_exact s → index_exact (add_entity timestamp_str payload now s).2.
Proof.
  intros Hfresh Hexact. rewrite add_entity_shape.
  set (q := after_entity_capacity_check now s).
  assert (index_exact q ∧ Dict.get (entity_id_of timestamp_str payload now)
                                   (entities q) = None) as [[Hty Hattr] Hq].
  { unfold q, after_entity_capacity_check, _remove_least_important_entity.
    apply DictFacts.mem_false in Hfresh.
    destruct (_ >=? _); [|done]. destruct (py_min _ _); [|done]. split.
    - by apply remove_entity_exact.
    - rewrite entities_remove_entity. by apply get_del_None. }
  set (e := entity_of_payload timestamp_str payload now).
  change (entity_id_of timestamp_str payload now) with (e_id e) in Hq.
  unfold _update_entity_indexes, index_exact. store_simpl. split.
  - intros ty x [Hin|[-> ->]]%add_type_elem.
    + destruct (Hty ty x Hin) as (e' & He' & Htype). exists e'. split; [|done].
      rewrite DictFacts.get_set_ne; [done|]. intros <-. congruence.
    + exists e. split; [apply DictFacts.get_set_eq|done].
  - intros a v x [Hin|[-> Hin]]%add_attrs_elem.
    + destruct (Hattr a v x Hin) as (e' & He' & Hav). exists e'. split; [|done].
      rewrite DictFacts.get_set_ne; [done|]. intros <-. congruence.
    + exists e. split; [apply DictFacts.get_set_eq|done].
Qed.

Lemma add_relation_keeps_indexes (payload : relation_payload) (now : datetime)
    (s : store) :
  entities (add_relation timestamp_str payload now s).2 = entities s
  ∧ type_index (add_relation timestamp_str payload now s).2 = type_index s
  ∧ attribute_index (add_relation timestamp_str payload now s).2
    = attribute_index s.
Proof.
  pose proof (add_relation_shape timestamp_str payload now s) as Hshape.
  set (q := after_relation_capacity_check now s) in *.
  assert (entities q = entities s ∧ type_index q = type_index s
          ∧ attribute_index q = attribute_index s) as (He & Hti & Hai).
  { unfold q, after_relation_capacity_check, _remove_least_important_relation.
    destruct (_ >=? _); [|done]. destruct (py_min _ _) as [rid|]; [|done].
    split; [apply entities_remove_relation|apply indexes_remove_relation]. }
  destruct (add_relation timestamp_str payload now s) as [[rid|x] s'];
    cbv zeta in Hshape.
  - destruct Hshape as (src & tgt & _ & _ & _ & _ & _ & ->). by store_simpl.
  - destruct Hshape as (-> & _). done.
Qed.

Lemma run_op_exact (op : kg_op) (s : store) :
  fresh_op timestamp_str op s →
  index_exact s → index_exact (run_op timestamp_str op s).
Proof.
  destruct op; simpl; intros Hfresh Hexact.
  - by apply add_entity_exact.
  - destruct (add_relation_keeps_indexes payload now s) as (He & Hti & Hai).
    by eapply index_exact_transfer.
  - by apply remove_entity_exact.
  - by apply remove_relation_exact.
  - unfold _remove_least_important_entity.
    destruct (py_min _ _); [by apply remove_entity_exact|done].
  - unfold _remove_least_important_relation.
    destruct (py_min _ _); [by apply remove_relation_exact|done].
Qed.

(** X4. When no entity is inserted under an id that is stored at that
    moment, every id listed in the type index or in the attribute index
    belongs to a stored entity of that type, or with that attribute item,
    after any sequence of insertions, removals and evictions on an empty
    store. *)
Theorem index_entries_name_stored_entities
    (c : config) (now : datetime) (ops : list kg_op) :
  fresh_run timestamp_str ops (empty_store c now) →
  index_exact (run_ops timestamp_str ops (empty_store c now))
  ∧ index_sound (run_ops timestamp_str ops (empty_store c now)).
Proof.
  assert (index_exact (empty_store c now)) as Hinit.
  { split; simpl; intros; rewrite ?lookup_empty in *; simpl in *;
      rewrite ?lookup_empty in *; by apply not_elem_of_empty in H. }
  revert Hinit. generalize (empty_store c now). unfold run_ops.
  induction ops as [|op ops IH]; intros s Hexact; simpl.
  - intros _. split; [done|by apply index_exact_sound].
  - intros [Hfresh Hrest]. apply IH; [|done]. by apply run_op_exact.
Qed.
End Exactness.

Lemma index_entries_name_stored_entities_witness :
  index_sound
    (run_ops decimal_stamp
       [InsertEntity (entity_named "a" "A" "person" (1 # 10)) 1;
        InsertEntity (entity_named "b" "B" "person" (9 # 10)) 2;
        RemoveEntity "a" 3]
       store_empty).
Proof.
  apply (index_entries_name_stored_entities decimal_stamp (mk_config 2 1) 0).
  vm_compute. repeat split.
Defined.

(** ** The maintenance sweep *)

Lemma entities_remove_entities (eids : list string) (now : datetime) (s : store) :
  entities (foldl (λ s eid, (remove_entity eid now s).2) s eids)
  = foldl (λ d eid, Dict.del eid d) (entities s) eids.
Proof.
  revert s. induction eids as [|eid eids IH]; intros s; simpl; [done|].
  by rewrite IH, entities_remove_entity.
Qed.

Lemma relations_shrink_remove_entity (eid k : string) (now : datetime) (s : store)
    (r : relation) :
  Dict.get k (relations (remove_entity eid now s).2) = Some r →
  Dict.get k (relations s) = Some r.
Proof.
  destruct (Dict.get eid (entities s)) as [e|] eqn:Hget.
  - intros H. by destruct (remaining_after_remove_entity _ _ _ _ _ _ Hget H).
  - unfold remove_entity. by rewrite Hget.
Qed.

Lemma relations_shrink_remove_entities (eids : list string) (k : string)
    (now : datetime) (s : store) (r : relation) :
  Dict.get k (relations (foldl (λ s eid, (remove_entity eid now s).2) s eids))
  = Some r →
  Dict.get k (relations s) = Some r.
Proof.
  revert s. induction eids as [|eid eids IH]; intros s; simpl; [done|].
  intros H%IH. by eapply relations_shrink_remove_entity.
Qed.

Lemma key_of_filtered {V : Type} (P : string * V → bool) (k : string) (v : V)
    (d : Dict.t V) :
  Dict.get k d = Some v → P (k, v) = true →
  k ∈ Dict.keys (filter (λ item, P item) d).
Proof.
  intros Hget HP. apply (list_elem_of_fmap_2 fst _ (k, v)).
  apply list_elem_of_filter. split; [by rewrite HP|].
  by apply DictFacts.get_Some_elem.
Qed.

Lemma key_not_filtered {V : Type} (P : string * V → bool) (k : string) (v : V)
    (d : Dict.t V) :
  Dict.wf d → Dict.get k d = Some v → P (k, v) = false →
  k ∉ Dict.keys (filter (λ item, P item) d).
Proof.
  intros Hwf Hget HP ([k' v'] & Hk & Hin)%list_elem_of_fmap. simpl in Hk. subst k'.
  apply list_elem_of_filter in Hin as [HP' Hin].
  rewrite (DictFacts.elem_get _ _ _ Hwf Hin) in Hget. injection Hget as ->.
  rewrite HP in HP'. done.
Qed.

(** X5. After [cleanup] no stored entity has importance below 0.1 together
    with an access count of zero and no stored relation has importance
    below 0.1; what is left was stored before, unchanged; and an entity
    that has been read at least once, or whose importance is at least 0.1,
    is still stored. *)
Theorem cleanup_sweeps_negligible_items (now : datetime) (s : store) :
  let s' := cleanup now s in
  (∀ k e, Dict.get k (entities s') = Some e →
     Dict.get k (entities s) = Some e
     ∧ ((1 # 10 <= e_importance e)%Q ∨ e_access_count e ≠ 0))
  ∧ (∀ k r, Dict.get k (relations s') = Some r →
       Dict.get k (relations s) = Some r ∧ (1 # 10 <= r_importance r)%Q)
  ∧ (Dict.wf (entities s) →
     ∀ k e, Dict.get k (entities s) = Some e →
       (1 # 10 <= e_importance e)%Q ∨ e_access_count e ≠ 0 →
       Dict.get k (entities s') = Some e).
Proof.
  intros s'. unfold s', cleanup.
  set (eids := Dict.keys (filter (λ item, negligible_entity item) (entities s))).
  set (s1 := foldl (λ s eid, (remove_entity eid now s).2) s eids).
  set (rids := Dict.keys (filter (λ item, negligible_relation item) (relations s1))).
  assert (∀ k, Dict.get k (entities (foldl (λ s rid, (remove_relation rid now s).2)
                                           s1 rids))
               = if bool_decide (k ∈ eids) then None else Dict.get k (entities s))
    as Hent.
  { intros k. rewrite entities_remove_relations. unfold s1.
    rewrite entities_remove_entities. apply get_foldl_del. }
  assert (∀ k e, negligible_entity (k, e) = false ↔
                 (1 # 10 <= e_importance e)%Q ∨ e_access_count e ≠ 0) as Hneg.
  { intros k e. unfold negligible_entity. simpl.
    rewrite andb_false_iff, Qlt_bool_false, Z.eqb_neq. done. }
  split_and!.
  - intros k e. rewrite Hent. case_bool_decide as Hin; [done|].
    intros Hk. split; [done|]. apply (Hneg k).
    destruct (negligible_entity (k, e)) eqn:E; [|done].
    exfalso. apply Hin. by apply (key_of_filtered negligible_entity k e).
  - intros k r. rewrite relations_remove_relations, get_foldl_del.
    case_bool_decide as Hin; [done|]. intros Hk. split.
    + by eapply relations_shrink_remove_entities.
    + apply Qlt_bool_false.
      destruct (Qlt_bool (r_importance r) (1 # 10)) eqn:E; [|done].
      exfalso. apply Hin. by apply (key_of_filtered negligible_relation k r).
  - intros Hwf k e Hk Hkeep. rewrite Hent.
    rewrite bool_decide_eq_false_2; [done|].
    apply (key_not_filtered negligible_entity k e); [done|done|].
    by apply Hneg.
Qed.

(** ** Traversal: distances, walks and the relation-type filter *)

Lemma expand_level_succ (g : Graph.t) (thislevel : list string) (level : nat)
    (seen : list string) (found : list (string * nat)) (seen' : list string) :
  Graph.expand_level g thislevel level seen = (found, seen') →
  ∀ w l, (w, l) ∈ found → ∃ v, v ∈ thislevel ∧ w ∈ Graph.successors v g.
Proof.
  revert seen found seen'.
  induction thislevel as [|v rest IH]; intros seen found seen'; simpl.
  - intros [= <- <-] w l H. by apply elem_of_nil in H.
  - destruct (Graph.expand_node (Graph.successors v g) level seen)
      as [f1 seen1] eqn:E1.
    destruct (Graph.expand_level g rest level seen1) as [f2 seen2] eqn:E2.
    intros [= <- <-] w l [Hin|Hin]%elem_of_app.
    + exists v. split; [apply list_elem_of_here|].
      destruct (BfsFacts.expand_node_spec _ _ _ _ _ E1) as (_ & _ & Hsucc & _).
      apply Hsucc. apply list_elem_of_fmap. by exists (w, l).
    + destruct (IH _ _ _ E2 w l Hin) as (v' & Hv' & Hw).
      exists v'. split; [by apply list_elem_of_further|done].
Qed.

Lemma bfs_walk (g : Graph.t) (a : string) (depth : nat) (thislevel : list string)
    (level : nat) (seen : list string) :
  (∀ v, v ∈ thislevel → walk g a v level) →
  ∀ w l, (w, l) ∈ Graph.bfs g depth thislevel level seen →
    walk g a w l ∧ (level < l ≤ level + depth)%nat.
Proof.
  revert thislevel level seen.
  induction depth as [|depth IH]; intros thislevel level seen Hlevel w l; simpl.
  - intros H. by apply elem_of_nil in H.
  - destruct thislevel as [|v rest]; [intros H; by apply elem_of_nil in H|].
    destruct (Graph.expand_level g (v :: rest) (S level) seen)
      as [found seen'] eqn:E.
    destruct (BfsFacts.expand_level_spec _ _ _ _ _ _ E) as (_ & _ & _ & Hl).
    pose proof (expand_level_succ _ _ _ _ _ _ E) as Hsucc.
    assert (∀ x, x ∈ map fst found → walk g a x (S level)) as Hnext.
    { intros x ([x' l'] & -> & Hx)%list_elem_of_fmap. simpl.
      destruct (Hsucc x' l' Hx) as (u & Hu & Hxu).
      eapply walk_step; [by apply Hlevel|done]. }
    intros [Hin|Hin]%elem_of_app.
    + rewrite (Hl w l Hin). split; [|lia].
      apply Hnext. apply list_elem_of_fmap. by exists (w, l).
    + destruct (IH _ _ _ Hnext w l Hin) as [Hw Hb]. split; [done|lia].
Qed.

Lemma distances_walk (g : Graph.t) (a : string) (cutoff : Z)
    (targets : list (string * nat)) :
  Graph.single_source_shortest_path_length g a cutoff = Some targets →
  ∀ w l, (w, l) ∈ targets → walk g a w l ∧ (l ≤ Z.to_nat cutoff)%nat.
Proof.
  unfold Graph.single_source_shortest_path_length.
  destruct (Graph.has_node a g); [|done]. intros [= <-] w l.
  intros [[= -> ->]|Hin]%elem_of_cons.
  - split; [apply walk_here|lia].
  - destruct (bfs_walk g a (Z.to_nat cutoff) [a] 0 [a]) with (w := w) (l := l)
      as [Hw Hb]; [|done|split; [done|lia]].
    intros v ->%list_elem_of_singleton. apply walk_here.
Qed.

Lemma successor_at_distance_one (g : Graph.t) (a b : string) (cutoff : Z)
    (targets : list (string * nat)) :
  Graph.single_source_shortest_path_length g a cutoff = Some targets →
  1 ≤ cutoff → b ∈ Graph.successors a g → a ≠ b → (b, 1%nat) ∈ targets.
Proof.
  unfold Graph.single_source_shortest_path_length.
  destruct (Graph.has_node a g); [|done]. intros [= <-] Hcut Hsucc Hne.
  destruct (Z.to_nat cutoff) as [|depth] eqn:Ed; [lia|]. simpl.
  destruct (Graph.expand_node (Graph.successors a g) 1 [a]) as [found seen'] eqn:E.
  destruct (BfsFacts.expand_node_spec _ _ _ _ _ E) as (_ & _ & _ & _ & Hall).
  apply list_elem_of_further. rewrite app_nil_r. apply elem_of_app. left.
  apply Hall; [done|]. by intros ->%list_elem_of_singleton.
Qed.

Lemma strength_bounds (d : nat) :
  (1 ≤ d)%nat →
  (0 < 1 / inject_Z (Z.of_nat d + 1))%Q
  ∧ (1 / inject_Z (Z.of_nat d + 1) <= 1 # 2)%Q.
Proof.
  intros Hd. destruct (Z.of_nat d + 1) as [|p|p] eqn:E; try lia.
  unfold Qdiv, Qinv, Qmult, Qlt, Qle. simpl. lia.
Qed.

(** With a relation-type filter the loop stops at the first target that is
    not skipped. *)
Lemma collect_related_filtered (a : string) (now : datetime)
    (targets : list (string * nat)) (s : store) :
  collect_related a true now targets s
  = (if existsb (λ '(t, d), negb (String.eqb t a || negb (Dict.mem t (entities s)))
                            && negb (S d <? 2)%nat) targets
     then Raised TypeError else Returned [], s).
Proof.
  induction targets as [|[t d] targets IH]; simpl; [done|].
  destruct (String.eqb t a || negb (Dict.mem t (entities s))); simpl; [done|].
  by destruct (S d <? 2)%nat.
Qed.

(** X6. With a non-empty relation-type filter [find_related_entities] never
    returns an entity and never changes the store: it returns the empty
    list, or raises.  As soon as the entity has a different stored entity as
    a direct successor and [max_depth] is at least 1, it raises
    [TypeError]. *)
Theorem find_related_with_filter_raises
    (a : string) (types : list string) (depth : Z) (now : datetime) (s : store) :
  types ≠ [] →
  let out := find_related_entities a (Some types) depth now s in
  out.2 = s
  ∧ (out.1 = Returned [] ∨ out.1 = Raised TypeError ∨ out.1 = Raised NodeNotFound)
  ∧ (∀ b, a ≠ b → Dict.mem a (entities s) = true → Dict.mem b (entities s) = true →
          b ∈ Graph.successors a (graph s) → 1 ≤ depth →
          out.1 = Raised TypeError).
Proof.
  intros Htypes out. unfold out, find_related_entities.
  assert (truthy (Some types) = true) as -> by (by destruct types).
  destruct (Dict.mem a (entities s)) eqn:Ha; simpl negb; cbv iota.
  2:{ split_and!; [done|by left|]. intros; congruence. }
  destruct (Graph.single_source_shortest_path_length (graph s) a depth)
    as [targets|] eqn:Edist.
  2:{ split_and!; [done|by right; right|]. intros b Hab _ Hb Hsucc Hd.
      exfalso. unfold Graph.single_source_shortest_path_length in Edist.
      by rewrite (successors_has_node a b _ Hsucc) in Edist. }
  rewrite collect_related_filtered.
  destruct (existsb _ targets) eqn:Eex; simpl.
  - split_and!; [done|by right; left|done].
  - split_and!; [done|by left|]. intros b Hab _ Hb Hsucc Hd. exfalso.
    pose proof (successor_at_distance_one _ _ _ _ _ Edist Hd Hsucc Hab) as Hin.
    assert (existsb (λ '(t, d), negb (String.eqb t a || negb (Dict.mem t (entities s)))
                                && negb (S d <? 2)%nat) targets = true) as Hex.
    { apply existsb_exists. exists (b, 1%nat). split; [by apply list_elem_of_In|].
      rewrite Hb. simpl. rewrite orb_false_r.
      destruct (String.eqb_spec b a) as [->|]; done. }
    congruence.
Qed.

Lemma find_related_with_filter_raises_witness :
  find_related_entities "a" (Some ["owns"]) 2 5 store_owns
  = (Raised TypeError, store_owns).
Proof.
  destruct (find_related_with_filter_raises "a" ["owns"] 2 5 store_owns)
    as (Hs & _ & Hraise); [discriminate|].
  specialize (Hraise "b").
  destruct (find_related_entities "a" (Some ["owns"]) 2 5 store_owns) as [o s'].
  simpl in *. rewrite Hs, Hraise; [reflexivity|discriminate|..];
    vm_compute; first [reflexivity | apply list_elem_of_here | discriminate].
Defined.

(** X7. Every record returned by [find_related_entities] is the copy of a
    stored entity other than the start entity, reached from it by a walk of
    [relationship_distance] edges of the graph, with the distance between 1
    and [max_depth] and [relationship_strength] equal to
    [1 / (distance + 1)], hence in (0, 1/2]; the list is sorted by
    descending strength, nearest entities first. *)
Theorem find_related_results_are_walks
    (a : string) (types : option (list string)) (depth : Z) (now : datetime)
    (s s' : store) (rs : list related_entity) :
  find_related_entities a types depth now s = (Returned rs, s') →
  descending relationship_strength rs
  ∧ ∀ r, r ∈ rs →
      ∃ t e0,
        t ≠ a
        ∧ Dict.get t (entities s) = Some e0
        ∧ re_entity r = touch now e0
        ∧ (1 ≤ relationship_distance r ≤ Z.to_nat depth)%nat
        ∧ walk (graph s) a t (relationship_distance r)
        ∧ relationship_strength r
          = (1 / inject_Z (Z.of_nat (relationship_distance r) + 1))%Q
        ∧ (0 < relationship_strength r)%Q
        ∧ (relationship_strength r <= 1 # 2)%Q.
Proof.
  unfold find_related_entities.
  destruct (negb (Dict.mem a (entities s))).
  { intros [= <- <-]. split; [constructor|]. intros r H. by apply elem_of_nil in H. }
  destruct (Graph.single_source_shortest_path_length (graph s) a depth)
    as [targets|] eqn:Edist; [|done].
  destruct (BfsFacts.distances_spec _ _ _ _ Edist) as [Hnd _].
  pose proof (distances_walk _ _ _ _ Edist) as Hwalk.
  destruct (collect_related a (truthy types) now targets s) as [out s1] eqn:Ecol.
  destruct (collect_related_spec _ _ _ _ _ _ _ Hnd Ecol) as [Hok|(-> & _ & _)].
  2:{ intros [= <- <-]. split; [constructor|].
      intros r H. by apply elem_of_nil in H. }
  destruct out as [found|x]; [|done]. intros [= <- <-].
  destruct Hok as (_ & ks & _ & _ & Hfrom & _).
  split; [apply sort_desc_descending|].
  intros r Hr%elem_of_sort_desc.
  destruct (Hfrom r Hr) as (t & d & e0 & Hin & _ & Hne & Hd & Hget & ->).
  destruct (Hwalk t d Hin) as [Hw Hbound].
  destruct (strength_bounds d Hd) as [Hpos Hhalf].
  exists t, e0. simpl. split_and!; try done; lia.
Qed.

Lemma find_related_results_are_walks_witness :
  ∃ rs, (find_related_entities "a" None 2 5 store_owns).1 = Returned rs
        ∧ descending relationship_strength rs.
Proof.
  pose (out := find_related_entities "a" None 2 5 store_owns).
  assert (∃ rs, out = (Returned rs, out.2)) as [rs Hout].
  { vm_compute. eexists. reflexivity. }
  exists rs. fold out. rewrite Hout. split; [reflexivity|].
  exact (proj1 (find_related_results_are_walks "a" None 2 5 store_owns out.2 rs Hout)).
Defined.

(** ** Index lookups *)

Lemma fetch_all_complete (ids : list string) (now : datetime) (s : store)
    (k : string) (e0 : entity) :
  NoDup ids → k ∈ ids → Dict.get k (entities s) = Some e0 →
  touch now e0 ∈ (fetch_all ids now s).1.
Proof.
  revert s. induction ids as [|i ids IH]; intros s Hnd Hin Hget.
  - by apply elem_of_nil in Hin.
  - apply NoDup_cons in Hnd as [Hi Hnd]. simpl.
    destruct (Dict.get i (entities s)) as [ei|] eqn:E.
    + rewrite (get_entity_some _ _ _ _ E).
      destruct (fetch_all ids now _) as [es1 s1] eqn:F. simpl.
      apply elem_of_cons in Hin as [->|Hin].
      * rewrite E in Hget. injection Hget as <-. apply list_elem_of_here.
      * apply list_elem_of_further.
        replace es1 with (fetch_all ids now
          (with_entities (Dict.set i (touch now ei) (entities s)) s)).1
          by (by rewrite F).
        apply IH; [done|done|]. store_simpl.
        rewrite DictFacts.get_set_ne; [done|]. by intros ->.
    + rewrite (get_entity_none _ _ _ E).
      apply elem_of_cons in Hin as [->|Hin]; [congruence|]. by apply IH.
Qed.

(** X8. [find_entities_by_type] returns the slice [found[:limit]] of the
    copies of the indexed entities sorted by descending importance, at most
    [limit] of them for a limit of zero or more; every stored entity listed
    under the type is read (its access count goes up by one) whether or not
    the limit lets it through; an unknown type gives the empty list and
    leaves the store as it was. *)
Theorem find_entities_by_type_reads_all
    (ty : string) (limit : Z) (now : datetime) (s : store) :
  let out := find_entities_by_type ty limit now s in
  ∃ found,
    out.1 = py_slice_to limit found
    ∧ descending e_importance found
    ∧ (0 ≤ limit → (length out.1 ≤ Z.to_nat limit)%nat)
    ∧ (type_index s !! ty = None → found = [] ∧ out.2 = s)
    ∧ (∀ k e0, k ∈ default ∅ (type_index s !! ty) →
         Dict.get k (entities s) = Some e0 →
         touch now e0 ∈ found
         ∧ Dict.get k (entities out.2) = Some (touch now e0)).
Proof.
  intros out. unfold out, find_entities_by_type.
  destruct (type_index s !! ty) as [ids|] eqn:E.
  - destruct (fetch_all (elements ids) now s) as [es s'] eqn:F.
    exists (sort_desc e_importance es). simpl.
    destruct (fetch_all_spec _ _ _ _ _ (NoDup_elements ids) F) as [Htr _].
    split_and!; [done|apply sort_desc_descending| |done|].
    + intros Hl. rewrite py_slice_to_nonneg, length_take by done. lia.
    + intros k e0 Hk%elem_of_elements Hget. split.
      * apply elem_of_sort_desc.
        replace es with (fetch_all (elements ids) now s).1 by (by rewrite F).
        apply (fetch_all_complete _ _ _ k); [apply NoDup_elements|done|done].
      * destruct Htr as (_ & _ & Hread). rewrite Hread.
        rewrite bool_decide_eq_true_2 by done. by rewrite Hget.
  - exists []. simpl.
    assert (@py_slice_to entity limit [] = []) as Hnil.
    { unfold py_slice_to. by destruct (0 <=? limit); rewrite take_nil. }
    split_and!.
    + by rewrite Hnil.
    + constructor.
    + intros _. simpl. lia.
    + done.
    + intros k e0 Hk. by apply not_elem_of_empty in Hk.
Qed.

(** ** Graph-based inferences *)

Lemma find_related_strengths
    (a : string) (types : option (list string)) (depth : Z) (now : datetime)
    (s s' : store) (rs : list related_entity) :
  find_related_entities a types depth now s = (Returned rs, s') →
  ∀ r, r ∈ rs →
    (0 < relationship_strength r)%Q ∧ (relationship_strength r <= 1 # 2)%Q.
Proof.
  unfold find_related_entities.
  destruct (negb (Dict.mem a (entities s))).
  { intros [= <- <-] r H. by apply elem_of_nil in H. }
  destruct (Graph.single_source_shortest_path_length (graph s) a depth)
    as [targets|] eqn:Edist; [|done].
  destruct (BfsFacts.distances_spec _ _ _ _ Edist) as [Hnd _].
  destruct (collect_related a (truthy types) now targets s) as [out s1] eqn:Ecol.
  destruct (collect_related_spec _ _ _ _ _ _ _ Hnd Ecol) as [Hok|(-> & _ & _)].
  2:{ intros [= <- <-] r H. by apply elem_of_nil in H. }
  destruct out as [found|x]; [|done]. intros [= <- <-].
  destruct Hok as (_ & ks & _ & _ & Hfrom & _).
  intros r Hr%elem_of_sort_desc.
  destruct (Hfrom r Hr) as (t & d & e0 & _ & _ & _ & Hd & _ & ->).
  apply (strength_bounds d Hd).
Qed.

Lemma graph_inference_of_weak (src : entity_result) (related : related_entity) :
  (0 < relationship_strength related)%Q →
  (relationship_strength related <= 1 # 2)%Q →
  weak_graph_inference (graph_inference_of src related).
Proof.
  intros Hpos Hhalf. unfold graph_inference_of. eexists. split; [reflexivity|].
  simpl. split_and!; try done.
  apply Qle_trans with ((1 # 2) * (8 # 10))%Q.
  - apply Qmult_le_compat_r; [done|]. by compute.
  - by compute.
Qed.

Lemma reason_over_weak {L : CaseMapping}
    (query_results : list query_result) (depth : Z)
    (now : datetime) (kg kg' : store) (infs : list inference) :
  reason_over query_results depth now kg = (Returned infs, kg') →
  ∀ i, i ∈ infs → weak_graph_inference i.
Proof.
  revert kg kg' infs.
  induction query_results as [|qr rest IH]; intros kg kg' infs; simpl.
  - intros [= <- <-] i H. by apply elem_of_nil in H.
  - destruct (String.eqb (result_type qr) "entity"); [|apply IH].
    destruct (find_related_entities (result_id qr) None depth now kg)
      as [[related|x] kg1] eqn:Efind; [|done].
    destruct (reason_over rest depth now kg1) as [[more|x] kg2] eqn:Erest; [|done].
    intros [= <- <-] i [Hi|Hi]%elem_of_app; [|by eapply IH].
    destruct qr as [src|rel]; [|by apply elem_of_nil in Hi].
    apply list_elem_of_fmap in Hi as (r & -> & Hr).
    destruct (find_related_strengths _ _ _ _ _ _ _ Efind r Hr) as [Hpos Hhalf].
    by apply graph_inference_of_weak.
Qed.

Lemma weak_graph_inference_factors (i : inference) :
  weak_graph_inference i →
  _analyze_confidence_factors i
  = ["Lower confidence due to limited evidence";
     "Based on knowledge graph relationships"].
Proof.
  intros (g & -> & _ & _ & Hhalf & _ & Hty).
  unfold _analyze_confidence_factors. simpl. rewrite Hty. simpl.
  assert (Qlt_bool (8 # 10) (gi_confidence g) = false) as ->.
  { apply Qlt_bool_false. apply Qle_trans with (1 # 2)%Q; [done|by compute]. }
  assert (Qlt_bool (6 # 10) (gi_confidence g) = false) as ->.
  { apply Qlt_bool_false. apply Qle_trans with (1 # 2)%Q; [done|by compute]. }
  done.
Qed.

(** X9. Every inference that [_graph_reasoning] returns is graph-based with a
    confidence equal to the relationship strength, which lies in (0, 1/2],
    and a relevance of at most 0.4; [_analyze_confidence_factors] therefore
    always comments it as lower confidence, based on knowledge graph
    relationships. *)
Theorem graph_inferences_have_low_confidence {L : CaseMapping}
    (query_text : string) (depth : Z) (now : datetime) (kg kg' : store)
    (infs : list inference) :
  _graph_reasoning query_text depth now kg = (Returned infs, kg') →
  ∀ i, i ∈ infs →
    weak_graph_inference i
    ∧ _analyze_confidence_factors i
      = ["Lower confidence due to limited evidence";
         "Based on knowledge graph relationships"].
Proof.
  unfold _graph_reasoning. intros Hcall i Hi.
  pose proof (reason_over_weak _ _ _ _ _ _ Hcall i Hi) as Hweak.
  split; [done|by apply weak_graph_inference_factors].
Qed.

Lemma graph_inferences_have_low_confidence_witness :
  ∃ infs, (_graph_reasoning (L := ascii_text) "a" 2 5 store_owns).1 = Returned infs
          ∧ infs ≠ []
          ∧ ∀ i, i ∈ infs → weak_graph_inference i.
Proof.
  pose (out := _graph_reasoning (L := ascii_text) "a" 2 5 store_owns).
  assert (∃ i infs, out = (Returned (i :: infs), out.2)) as (i & infs & Hout).
  { vm_compute. do 2 eexists. reflexivity. }
  exists (i :: infs). fold out. rewrite Hout. split_and!; [reflexivity|done|].
  intros j Hj.
  exact (proj1 (graph_inferences_have_low_confidence "a" 2 5 store_owns out.2
                  (i :: infs) Hout j Hj)).
Defined.

(** ** Ranking of inferences *)

Lemma descending_lookup {A : Type} (key : A → Q) (xs : list A) (i j : nat) (x y : A) :
  descending key xs → (i < j)%nat →
  xs !! i = Some x → xs !! j = Some y → (key y <= key x)%Q.
Proof.
  unfold descending. intros Hs. revert i j.
  induction Hs as [|z xs Hs IH Hall]; intros i j Hij Hi Hj; [done|].
  destruct j as [|j]; [lia|]. destruct i as [|i]; simpl in *.
  - injection Hi as <-. rewrite Forall_forall in Hall. apply Hall.
    by eapply list_elem_of_lookup_2.
  - apply (IH i j); [lia|done|done].
Qed.

Lemma apply_rules_records {L : CaseMapping}
    (query_text : string) (rules : list rule) (i : inference) :
  i ∈ _apply_rules query_text rules →
  ∃ rl, rl ∈ rules
        ∧ existsb (λ premise, contains (lower premise) (lower query_text))
                  (rule_premises rl) = true
        ∧ i = ByRule (mk_rule_inference ("inference_" ++ rule_id rl)%string
                        "inference" (rule_conclusion rl) (rule_name rl)
                        (rule_confidence rl) (7 # 10) "rule_based").
Proof.
  unfold _apply_rules. induction rules as [|rl rules IH]; simpl.
  - intros H. by apply elem_of_nil in H.
  - intros [Hi|Hi]%elem_of_app.
    + destruct (existsb _ (rule_premises rl)) eqn:E; [|by apply elem_of_nil in Hi].
      apply list_elem_of_singleton in Hi. exists rl.
      split_and!; [apply list_elem_of_here|done|done].
    + destruct (IH Hi) as (rl' & Hin & Hrest). exists rl'.
      split; [by apply list_elem_of_further|done].
Qed.

(** X10. In a list that [infer] computes (the key was not cached) every
    rule-based inference stands before every graph-based inference: rule
    inferences carry relevance 0.7 and graph inferences at most 0.4. *)
Theorem rule_inferences_outrank_graph_inferences {L : CaseMapping}
    (q : string) (d : Z) (now : datetime) (en en' : engine) (rs : list inference)
    (i j : nat) (g : graph_inference) (r : rule_inference) :
  inference_cache en !! cache_key q d = None →
  infer q d now en = (Returned rs, en') →
  rs !! i = Some (ByGraph g) →
  rs !! j = Some (ByRule r) →
  (j < i)%nat ∧ ri_relevance r = (7 # 10)%Q ∧ (gi_relevance g <= 4 # 10)%Q.
Proof.
  intros Hmiss. unfold infer. rewrite Hmiss.
  destruct (_graph_reasoning q d now (knowledge_graph en))
    as [[graph_results|x] kg'] eqn:Egraph; [|done].
  intros [= <- <-] Hi Hj.
  set (merged := map Direct (query q 10 (knowledge_graph en))
                 ++ _apply_rules q (reasoning_rules en) ++ graph_results) in *.
  set (sorted := sort_desc inference_relevance (unique_by_id ∅ merged)) in *.
  rewrite py_slice_to_nonneg in Hi, Hj by lia.
  assert (∀ x, x ∈ take (Z.to_nat 10) sorted → x ∈ merged) as Hsub.
  { intros x Hx%elem_of_take_inv%elem_of_sort_desc. by eapply unique_by_id_subset. }
  assert (gi_relevance g <= 4 # 10)%Q as Hg.
  { assert (ByGraph g ∈ merged) as Hin
      by (apply Hsub; by eapply list_elem_of_lookup_2).
    apply elem_of_app in Hin as [Hin|Hin].
    { apply list_elem_of_fmap in Hin as (? & ? & _). discriminate. }
    apply elem_of_app in Hin as [Hin|Hin].
    { apply apply_rules_records in Hin as (? & _ & _ & ?). discriminate. }
    destruct (reason_over_weak _ _ _ _ _ _ Egraph _ Hin)
      as (g' & [= <-] & _ & _ & _ & Hrel & _). done. }
  assert (ri_relevance r = (7 # 10)%Q) as Hr.
  { assert (ByRule r ∈ merged) as Hin
      by (apply Hsub; by eapply list_elem_of_lookup_2).
    apply elem_of_app in Hin as [Hin|Hin].
    { apply list_elem_of_fmap in Hin as (? & ? & _). discriminate. }
    apply elem_of_app in Hin as [Hin|Hin].
    { apply apply_rules_records in Hin as (rl & _ & _ & [= ->]). done. }
    destruct (reason_over_weak _ _ _ _ _ _ Egraph _ Hin) as (? & ? & _).
    discriminate. }
  split_and!; [|done|done].
  destruct (decide (j < i)%nat) as [|Hge]; [done|]. exfalso.
  assert (i ≠ j) as Hne by (intros ->; congruence).
  assert (descending inference_relevance (take (Z.to_nat 10) sorted)) as Hdesc
    by apply descending_take, sort_desc_descending.
  pose proof (descending_lookup _ _ i j _ _ Hdesc ltac:(lia) Hi Hj) as Hle.
  simpl in Hle. rewrite Hr in Hle.
  assert ((7 # 10 <= 4 # 10)%Q) as Habs by (by eapply Qle_trans).
  by compute in Habs.
Qed.

Lemma rule_inferences_outrank_graph_inferences_witness :
  ∃ rs g r, (infer (L := ascii_text) "a" 2 5 engine_with_rule).1 = Returned rs
            ∧ rs !! 2%nat = Some (ByGraph g)
            ∧ rs !! 1%nat = Some (ByRule r)
            ∧ ri_relevance r = (7 # 10)%Q.
Proof.
  pose (out := infer (L := ascii_text) "a" 2 5 engine_with_rule).
  assert (∃ x r g rest, out = (Returned (x :: ByRule r :: ByGraph g :: rest), out.2))
    as (x & r & g & rest & Hout).
  { vm_compute. do 4 eexists. reflexivity. }
  exists (x :: ByRule r :: ByGraph g :: rest), g, r. fold out. rewrite Hout.
  split_and!; try reflexivity.
  apply (rule_inferences_outrank_graph_inferences (L := ascii_text)
           "a" 2 5 engine_with_rule out.2
           (x :: ByRule r :: ByGraph g :: rest) 2 1 g r).
  - vm_compute. reflexivity.
  - exact Hout.
  - reflexivity.
  - reflexivity.
Defined.

(** ** Insertion: what is stored and what is accepted *)

Section Insertion.
Variable timestamp_str : datetime → string.

Lemma entities_after_relation_capacity_check (now : datetime) (s : store) :
  entities (after_relation_capacity_check now s) = entities s
  ∧ type_index (after_relation_capacity_check now s) = type_index s
  ∧ attribute_index (after_relation_capacity_check now s) = attribute_index s.
Proof.
  unfold after_relation_capacity_check, _remove_least_important_relation.
  destruct (_ >=? _); [|done]. destruct (py_min _ _) as [rid|]; [|done].
  split; [apply entities_remove_relation|apply indexes_remove_relation].
Qed.

(** X11. [add_entity] stores the record built from the payload and its
    defaults under the returned id: a missing or empty id is replaced by
    ["entity_" + timestamp], any other id is kept; the record is found under
    that id, its id is listed under its type and under each of its attribute
    items, the graph has the node, and a first [get_entity] returns the
    record with an access count of 1. *)
Theorem add_entity_then_get_entity
    (payload : entity_payload) (now now' : datetime) (s : store) :
  let out := add_entity timestamp_str payload now s in
  let e := entity_of_payload timestamp_str payload now in
  out.1 = e_id e
  ∧ (∀ i, ep_id payload = Some i → i ≠ "" → out.1 = i)
  ∧ (ep_id payload = None ∨ ep_id payload = Some "" →
     out.1 = ("entity_" ++ timestamp_str now)%string)
  ∧ Dict.get out.1 (entities out.2) = Some e
  ∧ e_id e ∈ default ∅ (type_index out.2 !! e_type e)
  ∧ (∀ a v, (a, v) ∈ e_attributes e →
       e_id e ∈ default ∅ (default ∅ (attribute_index out.2 !! a) !! v))
  ∧ Graph.has_node out.1 (graph out.2) = true
  ∧ (get_entity out.1 now' out.2).1 = Some (touch now' e)
  ∧ e_access_count (touch now' e) = 1
  ∧ Dict.get out.1 (entities (get_entity out.1 now' out.2).2) = Some (touch now' e).
Proof.
  intros out e. unfold out. rewrite add_entity_shape. fold e.
  set (q := after_entity_capacity_check now s).
  unfold _update_entity_indexes. store_simpl.
  assert (Dict.get (e_id e) (Dict.set (e_id e) e (entities q)) = Some e) as Hget
    by apply DictFacts.get_set_eq.
  split_and!.
  - done.
  - intros i Hi Hne. unfold e, entity_of_payload, entity_id_of. simpl.
    rewrite Hi. by destruct i.
  - intros [Hi|Hi]; unfold e, entity_of_payload, entity_id_of; simpl; by rewrite Hi.
  - done.
  - apply add_type_adds.
  - intros a v Hav. by apply add_attrs_add.
  - rewrite has_node_add_node_iff. by rewrite String.eqb_refl.
  - unfold get_entity. store_simpl. by rewrite Hget.
  - done.
  - unfold get_entity. store_simpl. rewrite Hget. store_simpl.
    apply DictFacts.get_set_eq.
Qed.

(** X12. [add_relation] accepts a payload exactly when its source and its
    target are stored entities; it never changes the Entity map or the
    indexes; an accepted payload is stored under ["rel_" + timestamp] with
    the defaults "related_to", 0.5, 1.0 and not bidirectional for missing
    keys, [get_relation] finds it, and the graph has its edge from source to
    target. *)
Theorem add_relation_accepts_live_endpoints
    (payload : relation_payload) (now : datetime) (s : store) :
  let out := add_relation timestamp_str payload now s in
  let rid := ("rel_" ++ timestamp_str now)%string in
  out.1 = (if is_entity (rp_source payload) s && is_entity (rp_target payload) s
           then Returned rid else Raised ValueError)
  ∧ entities out.2 = entities s
  ∧ type_index out.2 = type_index s
  ∧ attribute_index out.2 = attribute_index s
  ∧ (∀ src tgt, rp_source payload = Some src → rp_target payload = Some tgt →
       out.1 = Returned rid →
       let rel := relation_of_payload timestamp_str payload now src tgt in
       get_relation rid out.2 = Some rel
       ∧ Graph.edge src tgt rid (graph out.2) = Some rel
       ∧ r_type rel = default "related_to" (rp_type payload)
       ∧ r_importance rel = default (5 # 10)%Q (rp_importance payload)
       ∧ r_confidence rel = default 1%Q (rp_confidence payload)
       ∧ r_bidirectional rel = default false (rp_bidirectional payload)).
Proof.
  intros out rid.
  pose proof (add_relation_shape timestamp_str payload now s) as Hshape.
  destruct (entities_after_relation_capacity_check now s) as (He & Hti & Hai).
  set (q := after_relation_capacity_check now s) in *.
  assert (∀ o, is_entity o q = is_entity o s) as Hsame.
  { intros [x|]; simpl; [by rewrite He|done]. }
  fold out in Hshape. destruct out as [[rid'|x] s'] eqn:Eout; cbv zeta in Hshape.
  - destruct Hshape as (src & tgt & Hsrc & Htgt & Hs & Ht & -> & ->).
    cbn [fst snd]. rewrite Hsrc, Htgt. cbn [is_entity].
    rewrite <-He, Hs, Ht. cbn [andb]. store_simpl.
    split_and!; try done.
    intros src' tgt' [= <-] [= <-] _. cbv zeta.
    set (rel := relation_of_payload timestamp_str payload now src tgt).
    change rid with (r_id rel).
    split_and!; try done.
    + unfold get_relation. store_simpl. apply DictFacts.get_set_eq.
    + destruct (r_bidirectional rel).
      * rewrite GraphFacts.edge_add_edge_ne.
        -- apply GraphFacts.edge_add_edge_eq.
        -- intros H. assert (r_id (reverse_of rel) = r_id rel) as H3 by congruence.
           by apply reverse_id_neq in H3.
      * apply GraphFacts.edge_add_edge_eq.
  - destruct Hshape as (-> & -> & Hbad). cbn [fst snd].
    rewrite !Hsame in Hbad. rewrite Hbad. split_and!; try done.
Qed.
End Insertion.

(** ** Eviction order *)

Lemma min_by_first {A : Type} (key : A → Q) (best : A) (xs : list A) :
  ∃ before after,
    best :: xs = before ++ min_by key best xs :: after
    ∧ (∀ x, x ∈ before → (key (min_by key best xs) < key x)%Q)
    ∧ (∀ x, x ∈ after → (key (min_by key best xs) <= key x)%Q).
Proof.
  revert best. induction xs as [|y xs IH]; intros best; simpl.
  - exists [], []. split_and!; [done| |]; intros x H; by apply elem_of_nil in H.
  - destruct (Qlt_bool (key y) (key best)) eqn:E.
    + apply Qlt_bool_true in E.
      destruct (IH y) as (before & after & Heq & Hb & Ha).
      remember (min_by key y xs) as m eqn:Em. clear Em.
      assert ((key m <= key y)%Q) as Hmy.
      { destruct before as [|b before]; simpl in Heq.
        - injection Heq as Hm _. subst m. apply Qle_refl.
        - injection Heq as Hm _. subst b. apply Qlt_le_weak, Hb, list_elem_of_here. }
      exists (best :: before), after. split_and!.
      * simpl. by rewrite Heq.
      * intros x [Hx|Hx]%elem_of_cons; [subst x|by apply Hb].
        by apply Qle_lt_trans with (key y).
      * done.
    + apply Qlt_bool_false in E.
      destruct (IH best) as (before & after & Heq & Hb & Ha).
      remember (min_by key best xs) as m eqn:Em. clear Em.
      destruct before as [|b before]; simpl in Heq.
      * injection Heq as Hm Hxs. subst m xs. exists [], (y :: after). split_and!.
        -- done.
        -- intros x H. by apply elem_of_nil in H.
        -- intros x [Hx|Hx]%elem_of_cons; [by subst x|by apply Ha].
      * injection Heq as Hm Hxs. subst b xs.
        exists (best :: y :: before), after. split_and!.
        -- done.
        -- intros x [Hx|Hx]%elem_of_cons; [subst x; apply Hb, list_elem_of_here|].
           apply elem_of_cons in Hx as [Hx|Hx].
           ++ subst x. apply Qlt_le_trans with (key best); [|done].
              apply Hb, list_elem_of_here.
           ++ by apply Hb, list_elem_of_further.
        -- done.
Qed.

(** X13. Entity eviction removes the first entity, in insertion order, whose
    score [importance * (1 + 0.1 * access_count)], as binary64 arithmetic
    gives it, is minimal: every entity
    stored before the victim has a strictly larger score, every entity
    stored after it a score at least as large.  An empty store is left as
    it is. *)
Theorem eviction_takes_first_minimal_entity (now : datetime) (s : store) :
  (entities s = [] → _remove_least_important_entity now s = s)
  ∧ (entities s ≠ [] →
     ∃ victim before after,
       Dict.keys (entities s) = before ++ victim :: after
       ∧ (∀ k, k ∈ before → (entity_key s victim < entity_key s k)%Q)
       ∧ (∀ k, k ∈ after → (entity_key s victim <= entity_key s k)%Q)
       ∧ _remove_least_important_entity now s = (remove_entity victim now s).2
       ∧ entities (_remove_least_important_entity now s)
         = Dict.del victim (entities s)).
Proof.
  unfold _remove_least_important_entity. split.
  - by intros ->.
  - intros Hne. destruct (Dict.keys (entities s)) as [|k0 ks] eqn:Ek.
    { destruct (entities s); [done|discriminate]. }
    simpl. destruct (min_by_first (entity_key s) k0 ks)
      as (before & after & Heq & Hb & Ha).
    exists (min_by (entity_key s) k0 ks), before, after.
    split_and!; try done. apply entities_remove_entity.
Qed.

Section RelationEviction.
Variable timestamp_str : datetime → string.

(** X14. When the Relation map is full and the payload names two stored
    entities, [add_relation] first evicts one relation of minimal importance
    and then stores the new record; when the new id is not the id of a
    surviving relation the relation count is the same after the call as
    before it. *)
Theorem add_relation_at_capacity_evicts_minimum
    (payload : relation_payload) (now : datetime) (s : store) (src tgt : string) :
  Dict.wf (relations s) →
  relations s ≠ [] →
  max_relations (cfg s) ≤ Z.of_nat (length (relations s)) →
  rp_source payload = Some src → rp_target payload = Some tgt →
  Dict.mem src (entities s) = true → Dict.mem tgt (entities s) = true →
  let out := add_relation timestamp_str payload now s in
  let rel := relation_of_payload timestamp_str payload now src tgt in
  ∃ victim evicted,
    Dict.get victim (relations s) = Some evicted
    ∧ (∀ k r, Dict.get k (relations s) = Some r →
         (r_importance evicted <= r_importance r)%Q)
    ∧ out.1 = Returned (r_id rel)
    ∧ relations out.2 = Dict.set (r_id rel) rel (Dict.del victim (relations s))
    ∧ S (length (Dict.del victim (relations s))) = length (relations s)
    ∧ (Dict.get (r_id rel) (Dict.del victim (relations s)) = None →
       length (relations out.2) = length (relations s)).
Proof.
  intros Hwf Hne Hcap Hsrc Htgt Hs Ht out rel.
  destruct (py_min (relation_key s) (Dict.keys (relations s))) as [victim|] eqn:Emin.
  2:{ destruct (relations s); [done|discriminate]. }
  destruct (py_min_spec _ _ _ Emin) as [Hin Hmin].
  destruct (Dict.get victim (relations s)) as [evicted|] eqn:Ev.
  2:{ by apply DictFacts.get_None_notin in Ev. }
  assert (after_relation_capacity_check now s = (remove_relation victim now s).2)
    as Hq.
  { unfold after_relation_capacity_check, _remove_least_important_relation.
    destruct (Z.geb_spec (Z.of_nat (length (relations s))) (max_relations (cfg s)));
      [|lia]. by rewrite Emin. }
  pose proof (add_relation_shape timestamp_str payload now s) as Hshape.
  rewrite Hq in Hshape. cbv zeta in Hshape. fold out in Hshape.
  rewrite entities_remove_relation, relations_remove_relation in Hshape.
  assert (S (length (Dict.del victim (relations s))) = length (relations s)) as Hlen.
  { apply DictFacts.length_del; [done|]. by apply DictFacts.mem_true. }
  exists victim, evicted.
  destruct out as [[rid|x] s'].
  - destruct Hshape as (src' & tgt' & Hsrc' & Htgt' & _ & _ & -> & ->).
    rewrite Hsrc in Hsrc'. rewrite Htgt in Htgt'.
    injection Hsrc' as <-. injection Htgt' as <-. fold rel.
    store_simpl. split_and!; try done.
    + intros k r Hk.
      assert (k ∈ Dict.keys (relations s)) as Hkin.
      { destruct (decide (k ∈ Dict.keys (relations s))) as [|Hn]; [done|].
        apply DictFacts.get_None_notin in Hn. congruence. }
      specialize (Hmin k Hkin). unfold relation_key in Hmin.
      by rewrite Ev, Hk in Hmin.
    + intros Hfresh. rewrite DictFacts.length_set.
      apply DictFacts.mem_false in Hfresh. rewrite Hfresh. done.
  - destruct Hshape as (_ & _ & Hbad). exfalso.
    rewrite Hsrc, Htgt in Hbad. simpl in Hbad.
    rewrite entities_remove_relation, Hs, Ht in Hbad. done.
Qed.
End RelationEviction.

Lemma add_relation_at_capacity_evicts_minimum_witness :
  (add_relation decimal_stamp (relation_between "b" "a" "likes" false) 7
                store_owns).1
  = Returned
      (r_id (relation_of_payload decimal_stamp
               (relation_between "b" "a" "likes" false) 7 "b" "a")).
Proof.
  destruct (add_relation_at_capacity_evicts_minimum decimal_stamp
              (relation_between "b" "a" "likes" false) 7 store_owns "b" "a")
    as (victim & evicted & _ & _ & Hret & _).
  - apply (bool_decide_unpack _). vm_compute. exact I.
  - vm_compute. discriminate.
  - vm_compute. discriminate.
  - reflexivity.
  - reflexivity.
  - vm_compute. reflexivity.
  - vm_compute. reflexivity.
  - exact Hret.
Defined.

(** ** Distinct keys and capacity bounds *)

Lemma length_del_le {V : Type} (k : string) (d : Dict.t V) :
  (length (Dict.del k d) ≤ length d)%nat.
Proof.
  induction d as [|[k' v'] d IH]; simpl; [done|].
  destruct (String.eqb k k'); simpl; lia.
Qed.

Lemma length_foldl_del_le {V : Type} (ks : list string) (d : Dict.t V) :
  (length (foldl (λ d k, Dict.del k d) d ks) ≤ length d)%nat.
Proof.
  revert d. induction ks as [|k ks IH]; intros d; simpl; [done|].
  etrans; [apply IH|apply length_del_le].
Qed.

Lemma wf_foldl_del {V : Type} (ks : list string) (d : Dict.t V) :
  Dict.wf d → Dict.wf (foldl (λ d k, Dict.del k d) d ks).
Proof.
  revert d. induction ks as [|k ks IH]; intros d H; simpl; [done|].
  apply IH. by apply DictFacts.wf_del.
Qed.

Lemma wf_add_node (n : string) (g : Graph.t) :
  Dict.wf g → Dict.wf (Graph.add_node n g).
Proof.
  intros H. unfold Graph.add_node. destruct (Dict.mem n g); [done|].
  by apply DictFacts.wf_set.
Qed.

Lemma wf_add_edge (u v key : string) (d : relation) (g : Graph.t) :
  Dict.wf g → Dict.wf (Graph.add_edge u v key d g).
Proof.
  intros H. unfold Graph.add_edge. apply DictFacts.wf_set.
  by do 2 apply wf_add_node.
Qed.

Lemma wf_remove_edge (u v key : string) (g : Graph.t) :
  Dict.wf g → Dict.wf (Graph.remove_edge u v key g).
Proof.
  intros H. unfold Graph.remove_edge.
  destruct (Dict.get u g) as [nbrs|]; [|done].
  destruct (Dict.get v nbrs) as [keydict|]; [|done].
  by apply DictFacts.wf_set.
Qed.

Lemma wf_remove_node (n : string) (g : Graph.t) :
  Dict.wf g → Dict.wf (Graph.remove_node n g).
Proof.
  intros H. unfold Graph.remove_node, Dict.wf, Dict.keys.
  rewrite map_map.
  rewrite (map_ext _ fst) by (by intros [u nbrs]).
  by apply DictFacts.wf_del.
Qed.

Lemma cfg_remove_relation (rid : string) (now : datetime) (s : store) :
  cfg (remove_relation rid now s).2 = cfg s.
Proof. unfold remove_relation. by destruct (Dict.get rid (relations s)). Qed.

Lemma cfg_remove_entity (eid : string) (now : datetime) (s : store) :
  cfg (remove_entity eid now s).2 = cfg s.
Proof.
  unfold remove_entity. destruct (Dict.get eid (entities s)) as [e|]; [|done].
  store_simpl.
  match goal with |- context [Graph.has_node ?n ?g] =>
    destruct (Graph.has_node n g) end;
    store_simpl; by rewrite cfg_remove_relations.
Qed.

Lemma graph_wf_remove_relation (rid : string) (now : datetime) (s : store) :
  Dict.wf (graph s) → Dict.wf (graph (remove_relation rid now s).2).
Proof.
  intros H. unfold remove_relation.
  destruct (Dict.get rid (relations s)) as [rel|]; [|done]. store_simpl.
  repeat match goal with
         | |- context [if ?b then _ else _] => destruct b
         end; repeat apply wf_remove_edge; done.
Qed.

Lemma graph_wf_remove_relations (rids : list string) (now : datetime) (s : store) :
  Dict.wf (graph s) →
  Dict.wf (graph (foldl (λ s rid, (remove_relation rid now s).2) s rids)).
Proof.
  revert s. induction rids as [|rid rids IH]; intros s H; simpl; [done|].
  apply IH. by apply graph_wf_remove_relation.
Qed.

Lemma graph_wf_remove_entity (eid : string) (now : datetime) (s : store) :
  Dict.wf (graph s) → Dict.wf (graph (remove_entity eid now s).2).
Proof.
  intros H. unfold remove_entity.
  destruct (Dict.get eid (entities s)) as [e|]; [|done]. store_simpl.
  set (s2 := foldl (λ s rid, (remove_relation rid now s).2) _ _).
  assert (Dict.wf (graph s2)) as H2 by (by apply graph_wf_remove_relations).
  destruct (Graph.has_node eid (graph s2)); store_simpl; [|done].
  by apply wf_remove_node.
Qed.

Lemma relations_after_remove_entity (eid : string) (now : datetime) (s : store) :
  ∃ rids, relations (remove_entity eid now s).2
          = foldl (λ d rid, Dict.del rid d) (relations s) rids.
Proof.
  destruct (Dict.get eid (entities s)) as [e|] eqn:Hget.
  - eexists. by apply (relations_remove_entity eid now s e).
  - exists []. unfold remove_entity. by rewrite Hget.
Qed.

Lemma remove_relation_sized (rid : string) (now : datetime) (s : store) :
  distinct_keys s ∧ within_capacity s →
  distinct_keys (remove_relation rid now s).2
  ∧ within_capacity (remove_relation rid now s).2.
Proof.
  intros [(He & Hr & Hg) [Hce Hcr]]. unfold distinct_keys, within_capacity.
  rewrite cfg_remove_relation, entities_remove_relation, relations_remove_relation.
  split_and!; try done.
  - by apply DictFacts.wf_del.
  - by apply graph_wf_remove_relation.
  - pose proof (length_del_le rid (relations s)). lia.
Qed.

Lemma remove_entity_sized (eid : string) (now : datetime) (s : store) :
  distinct_keys s ∧ within_capacity s →
  distinct_keys (remove_entity eid now s).2
  ∧ within_capacity (remove_entity eid now s).2.
Proof.
  intros [(He & Hr & Hg) [Hce Hcr]]. unfold distinct_keys, within_capacity.
  destruct (relations_after_remove_entity eid now s) as [rids ->].
  rewrite cfg_remove_entity, entities_remove_entity.
  split_and!.
  - by apply DictFacts.wf_del.
  - by apply wf_foldl_del.
  - by apply graph_wf_remove_entity.
  - pose proof (length_del_le eid (entities s)). lia.
  - pose proof (length_foldl_del_le rids (relations s)). lia.
Qed.

Lemma py_min_none {A : Type} (key : A → Q) (xs : list A) :
  py_min key xs = None → xs = [].
Proof. by destruct xs. Qed.

(** After its capacity check an insertion has room for one more item. *)
Lemma entity_capacity_check_room (now : datetime) (s : store) :
  distinct_keys s ∧ within_capacity s →
  let q := after_entity_capacity_check now s in
  (distinct_keys q ∧ within_capacity q)
  ∧ cfg q = cfg s
  ∧ Z.of_nat (length (entities q)) + 1 ≤ Z.max 1 (max_entities (cfg s)).
Proof.
  intros Hinv q. unfold q, after_entity_capacity_check.
  destruct Hinv as [(He & Hr & Hg) [Hce Hcr]].
  destruct (Z.geb_spec (Z.of_nat (length (entities s))) (max_entities (cfg s))).
  - unfold _remove_least_important_entity.
    destruct (py_min (entity_key s) (Dict.keys (entities s))) as [victim|] eqn:E.
    + split; [by apply remove_entity_sized|].
      split; [apply cfg_remove_entity|].
      rewrite entities_remove_entity.
      apply py_min_spec in E as [Hin _]. apply DictFacts.mem_true in Hin.
      pose proof (DictFacts.length_del victim (entities s) He Hin). lia.
    + split; [done|]. split; [done|].
      apply py_min_none in E. destruct (entities s); [simpl; lia|done].
  - split; [done|]. split; [done|]. lia.
Qed.

Lemma relation_capacity_check_room (now : datetime) (s : store) :
  distinct_keys s ∧ within_capacity s →
  let q := after_relation_capacity_check now s in
  (distinct_keys q ∧ within_capacity q)
  ∧ cfg q = cfg s
  ∧ Z.of_nat (length (relations q)) + 1 ≤ Z.max 1 (max_relations (cfg s)).
Proof.
  intros Hinv q. unfold q, after_relation_capacity_check.
  destruct Hinv as [(He & Hr & Hg) [Hce Hcr]].
  destruct (Z.geb_spec (Z.of_nat (length (relations s))) (max_relations (cfg s))).
  - unfold _remove_least_important_relation.
    destruct (py_min (relation_key s) (Dict.keys (relations s))) as [victim|] eqn:E.
    + split; [by apply remove_relation_sized|].
      split; [apply cfg_remove_relation|].
      rewrite relations_remove_relation.
      apply py_min_spec in E as [Hin _]. apply DictFacts.mem_true in Hin.
      pose proof (DictFacts.length_del victim (relations s) Hr Hin). lia.
    + split; [done|]. split; [done|].
      apply py_min_none in E. destruct (relations s); [simpl; lia|done].
  - split; [done|]. split; [done|]. lia.
Qed.

Lemma evict_entity_sized (now : datetime) (s : store) :
  distinct_keys s ∧ within_capacity s →
  distinct_keys (_remove_least_important_entity now s)
  ∧ within_capacity (_remove_least_important_entity now s).
Proof.
  unfold _remove_least_important_entity.
  destruct (py_min _ _); [apply remove_entity_sized|done].
Qed.

Lemma evict_relation_sized (now : datetime) (s : store) :
  distinct_keys s ∧ within_capacity s →
  distinct_keys (_remove_least_important_relation now s)
  ∧ within_capacity (_remove_least_important_relation now s).
Proof.
  unfold _remove_least_important_relation.
  destruct (py_min _ _); [apply remove_relation_sized|done].
Qed.

Lemma length_set_le {V : Type} (k : string) (v : V) (d : Dict.t V) :
  (length (Dict.set k v d) ≤ S (length d))%nat.
Proof. rewrite DictFacts.length_set. destruct (Dict.mem k d); lia. Qed.

Section Capacity.
Variable timestamp_str : datetime → string.

Lemma add_entity_sized (payload : entity_payload) (now : datetime) (s : store) :
  distinct_keys s ∧ within_capacity s →
  distinct_keys (add_entity timestamp_str payload now s).2
  ∧ within_capacity (add_entity timestamp_str payload now s).2.
Proof.
  intros Hinv. rewrite add_entity_shape.
  destruct (entity_capacity_check_room now s Hinv)
    as ([(He & Hr & Hg) [Hce Hcr]] & Hcfg & Hroom).
  set (q := after_entity_capacity_check now s) in *.
  set (e := entity_of_payload timestamp_str payload now).
  unfold _update_entity_indexes, distinct_keys, within_capacity. store_simpl.
  split_and!; try done.
  - by apply DictFacts.wf_set.
  - by apply wf_add_node.
  - pose proof (length_set_le (e_id e) e (entities q)). rewrite Hcfg. lia.
Qed.

Lemma add_relation_sized (payload : relation_payload) (now : datetime) (s : store) :
  distinct_keys s ∧ within_capacity s →
  distinct_keys (add_relation timestamp_str payload now s).2
  ∧ within_capacity (add_relation timestamp_str payload now s).2.
Proof.
  intros Hinv.
  pose proof (add_relation_shape timestamp_str payload now s) as Hshape.
  destruct (relation_capacity_check_room now s Hinv)
    as ([(He & Hr & Hg) [Hce Hcr]] & Hcfg & Hroom).
  set (q := after_relation_capacity_check now s) in *.
  destruct (add_relation timestamp_str payload now s) as [[rid|x] s'];
    cbv zeta in Hshape.
  2:{ destruct Hshape as (-> & _). done. }
  destruct Hshape as (src & tgt & _ & _ & _ & _ & -> & ->).
  set (rel := relation_of_payload timestamp_str payload now src tgt).
  unfold distinct_keys, within_capacity. store_simpl.
  split_and!; try done.
  - by apply DictFacts.wf_set.
  - destruct (r_bidirectional rel); repeat apply wf_add_edge; done.
  - pose proof (length_set_le (r_id rel) rel (relations q)). rewrite Hcfg. lia.
Qed.

Lemma run_op_sized (op : kg_op) (s : store) :
  distinct_keys s ∧ within_capacity s →
  distinct_keys (run_op timestamp_str op s)
  ∧ within_capacity (run_op timestamp_str op s).
Proof.
  destruct op; simpl.
  - apply add_entity_sized.
  - apply add_relation_sized.
  - apply remove_entity_sized.
  - apply remove_relation_sized.
  - apply evict_entity_sized.
  - apply evict_relation_sized.
Qed.

Lemma reachable_sized (c : config) (now : datetime) (ops : list kg_op) :
  distinct_keys (run_ops timestamp_str ops (empty_store c now))
  ∧ within_capacity (run_ops timestamp_str ops (empty_store c now)).
Proof.
  assert (distinct_keys (empty_store c now)
          ∧ within_capacity (empty_store c now)) as Hinit.
  { split; [split_and!; apply NoDup_nil_2|]. split; simpl; lia. }
  revert Hinit. generalize (empty_store c now). unfold run_ops.
  induction ops as [|op ops IH]; intros s Hinv; simpl; [apply Hinv|].
  apply IH. by apply run_op_sized.
Qed.

Lemma cfg_run_ops (ops : list kg_op) (s : store) :
  cfg (run_ops timestamp_str ops s) = cfg s.
Proof.
  revert s. unfold run_ops.
  induction ops as [|op ops IH]; intros s; cbn [foldl]; [done|].
  rewrite IH. destruct op; cbn [run_op].
  - rewrite add_entity_shape. unfold _update_entity_indexes. store_simpl.
    unfold after_entity_capacity_check, _remove_least_important_entity.
    destruct (_ >=? _); [|done].
    destruct (py_min _ _); [apply cfg_remove_entity|done].
  - pose proof (add_relation_shape timestamp_str payload now s) as Hshape.
    assert (cfg (after_relation_capacity_check now s) = cfg s) as Hq.
    { unfold after_relation_capacity_check, _remove_least_important_relation.
      destruct (_ >=? _); [|done].
      destruct (py_min _ _); [apply cfg_remove_relation|done]. }
    destruct (add_relation timestamp_str payload now s) as [[rid|x] s'];
      cbv zeta in Hshape.
    + by destruct Hshape as (src & tgt & _ & _ & _ & _ & _ & ->).
    + by destruct Hshape as (-> & _).
  - apply cfg_remove_entity.
  - apply cfg_remove_relation.
  - unfold _remove_least_important_entity.
    destruct (py_min _ _); [apply cfg_remove_entity|done].
  - unfold _remove_least_important_relation.
    destruct (py_min _ _); [apply cfg_remove_relation|done].
Qed.

(** X15. Capacity: after any sequence of insertions, removals and evictions
    on an empty store the Entity map holds at most [max_entities] records and
    the Relation map at most [max_relations]; a configured limit below one
    behaves as a limit of one. *)
Theorem capacity_is_respected
    (c : config) (now : datetime) (ops : list kg_op) :
  let s := run_ops timestamp_str ops (empty_store c now) in
  Z.of_nat (length (entities s)) ≤ Z.max 1 (max_entities c)
  ∧ Z.of_nat (length (relations s)) ≤ Z.max 1 (max_relations c).
Proof.
  intros s. destruct (reachable_sized c now ops) as [_ Hcap].
  fold s in Hcap. unfold within_capacity in Hcap.
  unfold s in Hcap at 2 4. by rewrite cfg_run_ops in Hcap.
Qed.
End Capacity.

(** ** Statistics *)

Lemma length_keys {V : Type} (d : Dict.t V) : length (Dict.keys d) = length d.
Proof. unfold Dict.keys. apply length_map. Qed.

Section Statistics.
Variable timestamp_str : datetime → string.
Variable isoformat : datetime → string.

(** X16. After any sequence of insertions, removals and evictions on an
    empty store, [get_statistics] reports as many graph nodes as entities,
    and its two totals are within the configured limits. *)
Theorem statistics_count_nodes_as_entities
    (c : config) (now : datetime) (ops : list kg_op) :
  let st := get_statistics isoformat
              (run_ops timestamp_str ops (empty_store c now)) in
  graph_nodes st = total_entities st
  ∧ Z.of_nat (total_entities st) ≤ Z.max 1 (max_entities c)
  ∧ Z.of_nat (total_relations st) ≤ Z.max 1 (max_relations c).
Proof.
  set (s := run_ops timestamp_str ops (empty_store c now)).
  destruct (reachable_sized timestamp_str c now ops) as [(He & _ & Hg) [Hce Hcr]].
  destruct (reachable_structure timestamp_str c now ops) as [_ Hnodes].
  fold s in He, Hg, Hce, Hcr, Hnodes.
  unfold s in Hce at 2, Hcr at 2. rewrite cfg_run_ops in Hce, Hcr.
  cbn [get_statistics graph_nodes total_entities total_relations].
  split_and!; [|done|done].
  rewrite <-(length_keys (graph s)), <-(length_keys (entities s)).
  apply Permutation_length, NoDup_Permutation; [done|done|].
  intros k. rewrite <-!DictFacts.mem_true.
  change (Dict.mem k (graph s)) with (Graph.has_node k (graph s)).
  by rewrite Hnodes.
Qed.
End Statistics.

(** ** Lookups on stores built by the operations *)

Section Lookups.
Context {L : CaseMapping}.
Variable timestamp_str : datetime → string.

Lemma reachable_indexed (c : config) (now : datetime) (ops : list kg_op) :
  keyed (run_ops timestamp_str ops (empty_store c now))
  ∧ index_complete (run_ops timestamp_str ops (empty_store c now)).
Proof.
  assert (keyed (empty_store c now) ∧ index_complete (empty_store c now)) as Hinit.
  { split; intros k e H; discriminate. }
  revert Hinit. generalize (empty_store c now). unfold run_ops.
  induction ops as [|op ops IH]; intros s Hinv; cbn [foldl]; [apply Hinv|].
  apply IH. by apply run_op_invariant.
Qed.

(** X17. On a store built by insertions, removals and evictions,
    [find_entities_by_attribute] misses no stored entity: every entity whose
    attributes hold the item [(name, value)] is read and is in the list that
    the limit is then applied to; that list is sorted by descending
    importance and every entry is the fresh copy of an entity stored under
    its id. *)
Theorem find_entities_by_attribute_finds_stored
    (c : config) (now : datetime) (ops : list kg_op)
    (a v : string) (limit : Z) (now' : datetime) :
  let s := run_ops timestamp_str ops (empty_store c now) in
  let out := find_entities_by_attribute a v limit now' s in
  ∃ found,
    out.1 = py_slice_to limit found
    ∧ descending e_importance found
    ∧ (∀ k e0, Dict.get k (entities s) = Some e0 → (a, v) ∈ e_attributes e0 →
         touch now' e0 ∈ found
         ∧ Dict.get k (entities out.2) = Some (touch now' e0))
    ∧ (∀ e, e ∈ found →
         ∃ e0, Dict.get (e_id e) (entities s) = Some e0 ∧ e = touch now' e0).
Proof.
  intros s out. destruct (reachable_indexed c now ops) as [Hkeyed Hcomplete].
  fold s in Hkeyed, Hcomplete.
  assert (@py_slice_to entity limit [] = []) as Hnil.
  { unfold py_slice_to. by destruct (0 <=? limit); rewrite take_nil. }
  assert (∀ k e0, Dict.get k (entities s) = Some e0 → (a, v) ∈ e_attributes e0 →
            k ∈ default ∅ (default ∅ (attribute_index s !! a) !! v)) as Hlisted.
  { intros k e0 Hget Hav. destruct (Hcomplete k e0 Hget) as [_ Hattrs].
    rewrite <-(Hkeyed k e0 Hget). by apply Hattrs. }
  unfold out, find_entities_by_attribute.
  destruct (attribute_index s !! a) as [by_value|] eqn:Ea.
  2:{ exists []. cbn [fst snd]. split_and!; [by rewrite Hnil|constructor| |].
      - intros k e0 Hget Hav. specialize (Hlisted k e0 Hget Hav).
        cbn [default from_option id] in Hlisted.
        rewrite lookup_empty in Hlisted. by apply not_elem_of_empty in Hlisted.
      - intros e H. by apply elem_of_nil in H. }
  cbn [default from_option id] in Hlisted.
  destruct (by_value !! v) as [ids|] eqn:Ev.
  2:{ exists []. cbn [fst snd]. split_and!; [by rewrite Hnil|constructor| |].
      - intros k e0 Hget Hav. specialize (Hlisted k e0 Hget Hav).
        by apply not_elem_of_empty in Hlisted.
      - intros e H. by apply elem_of_nil in H. }
  cbn [default from_option id] in Hlisted.
  destruct (fetch_all (elements ids) now' s) as [es s'] eqn:F.
  exists (sort_desc e_importance es). cbn [fst snd].
  destruct (fetch_all_spec _ _ _ _ _ (NoDup_elements ids) F) as [Htr Hes].
  split_and!; [done|apply sort_desc_descending| |].
  - intros k e0 Hget Hav. specialize (Hlisted k e0 Hget Hav).
    apply elem_of_elements in Hlisted. split.
    + apply elem_of_sort_desc.
      replace es with (fetch_all (elements ids) now' s).1 by (by rewrite F).
      apply (fetch_all_complete _ _ _ k); [apply NoDup_elements|done|done].
    + destruct Htr as (_ & _ & Hread). rewrite Hread.
      rewrite bool_decide_eq_true_2 by done. by rewrite Hget.
  - intros e He%elem_of_sort_desc.
    destruct (Hes e He) as (k & e0 & _ & Hget & ->).
    exists e0. split; [|done]. cbn [touch e_id]. by rewrite (Hkeyed k e0 Hget).
Qed.

(** X18. On a store built by insertions, removals and evictions, every
    relation record returned by [query] carries the names of two stored
    entities: its source and its target are in the Entity map and
    [source_name] and [target_name] are their names, the placeholder for a
    missing endpoint is not used. *)
Theorem query_names_stored_endpoints
    (c : config) (now : datetime) (ops : list kg_op) (text : string) (limit : Z) :
  let s := run_ops timestamp_str ops (empty_store c now) in
  ∀ rr, RelationResult rr ∈ query text limit s →
    ∃ r src tgt,
      Dict.get (rr_id rr) (relations s) = Some r
      ∧ rr_source rr = r_source r ∧ rr_target rr = r_target r
      ∧ Dict.get (rr_source rr) (entities s) = Some src
      ∧ Dict.get (rr_target rr) (entities s) = Some tgt
      ∧ rr_source_name rr = e_name src
      ∧ rr_target_name rr = e_name tgt.
Proof.
  intros s rr Hin.
  destruct (reachable_sized timestamp_str c now ops) as [(_ & Hwr & _) _].
  destruct (reachable_structure timestamp_str c now ops) as [Hlive _].
  fold s in Hwr, Hlive.
  unfold query in Hin.
  apply elem_of_py_slice_to, elem_of_sort_desc, elem_of_app in Hin.
  destruct Hin as [Hin|Hin].
  { unfold search_entities in Hin.
    apply list_elem_of_In, in_flat_map in Hin as (e & _ & Hin).
    destruct (Qlt_bool 0 _); simpl in Hin; [|done].
    by destruct Hin as [Hin|[]]. }
  unfold search_relations in Hin.
  apply list_elem_of_In, in_flat_map in Hin as (r & Hr & Hin).
  destruct (Qlt_bool 0 _); simpl in Hin; [|done].
  destruct Hin as [Hin|[]]. injection Hin as <-.
  apply list_elem_of_In, DictFacts.elem_values_get in Hr as [k Hk].
  apply (DictFacts.elem_get _ _ _ Hwr) in Hk.
  destruct (Hlive k r Hk) as (Hid & Hs & Ht).
  unfold Dict.mem in Hs, Ht.
  destruct (Dict.get (r_source r) (entities s)) as [src|] eqn:Es; [|done].
  destruct (Dict.get (r_target r) (entities s)) as [tgt|] eqn:Et; [|done].
  exists r, src, tgt. unfold relation_hit, endpoint_name.
  cbn [rr_id rr_source rr_target rr_source_name rr_target_name].
  rewrite Es, Et, Hid. by split_and!.
Qed.
End Lookups.

Lemma query_names_stored_endpoints_witness :
  let s := run_ops decimal_stamp
             [InsertEntity (entity_named "a" "A" "person" (1 # 10)) 1;
              InsertEntity (entity_named "b" "B" "person" (9 # 10)) 2;
              InsertRelation (relation_between "a" "b" "owns" true) 3]
             (empty_store (mk_config 2 1) 0) in
  ∃ rr src tgt,
    RelationResult rr ∈ query (L := ascii_text) "owns" 1 s
    ∧ Dict.get (rr_source rr) (entities s) = Some src
    ∧ Dict.get (rr_target rr) (entities s) = Some tgt
    ∧ rr_source_name rr = e_name src
    ∧ rr_target_name rr = e_name tgt.
Proof.
  intros s.
  assert (∃ rr, query (L := ascii_text) "owns" 1 s = [RelationResult rr]) as [rr Hq].
  { vm_compute. eexists. reflexivity. }
  assert (RelationResult rr ∈ query (L := ascii_text) "owns" 1 s) as Hin.
  { rewrite Hq. apply list_elem_of_here. }
  destruct (query_names_stored_endpoints decimal_stamp (mk_config 2 1) 0 _
              "owns" 1 rr Hin)
    as (r & src & tgt & _ & _ & _ & Hsrc & Htgt & Hsn & Htn).
  exists rr, src, tgt. split_and!; done.
Defined.

(** ** Rules without a usable premise *)

Lemma contains_empty (hay : string) : contains "" hay = true.
Proof. by destruct hay. Qed.

Section RulePremises.
Context {L : CaseMapping}.
Variable timestamp_str : datetime → string.

(** X19. A rule registered by [add_rule] adds at most one record, after
    those of the earlier rules, to what [_apply_rules] returns.  A rule
    registered without premises, or with an empty list of premises, never
    fires; a rule that has the empty string among its premises fires for
    every query, with its conclusion, its confidence and relevance 0.7. *)
Theorem rule_premise_edge_cases
    (payload : rule_payload) (now : datetime) (en : engine) (q : string) :
  let en' := add_rule timestamp_str payload now en in
  let before := _apply_rules q (reasoning_rules en) in
  let record :=
    ByRule (mk_rule_inference
              ("inference_"
                 ++ default ("rule_" ++ timestamp_str now) (lp_id payload))%string
              "inference" (default "" (lp_conclusion payload))
              (default "" (lp_name payload))
              (default 1%Q (lp_confidence payload)) (7 # 10) "rule_based") in
  (_apply_rules q (reasoning_rules en') = before
   ∨ _apply_rules q (reasoning_rules en') = before ++ [record])
  ∧ (default [] (lp_premises payload) = [] →
     _apply_rules q (reasoning_rules en') = before)
  ∧ ("" ∈ default [] (lp_premises payload) →
     _apply_rules q (reasoning_rules en') = before ++ [record]).
Proof.
  intros en' before record. unfold en', before, add_rule, _apply_rules.
  cbn [reasoning_rules]. rewrite flat_map_app. cbn [flat_map].
  cbn [rule_premises rule_id rule_conclusion rule_name rule_confidence].
  rewrite app_nil_r. fold record.
  split_and!.
  - destruct (existsb _ _); [by right|left; by rewrite app_nil_r].
  - intros ->. cbn [existsb]. by rewrite app_nil_r.
  - intros Hin.
    assert (existsb (λ premise, contains (lower premise) (lower q))
                    (default [] (lp_premises payload)) = true) as ->; [|done].
    apply existsb_exists. exists "". split; [by apply list_elem_of_In|].
    rewrite lower_empty. apply contains_empty.
Qed.
End RulePremises.

(** ** Import: failures and the rebuilt graph *)

Lemma load_items_app {J V : Type} (parse : J → option V)
    (pre post : Dict.t J) (acc acc' : Dict.t V) :
  load_items parse pre acc = (true, acc') →
  load_items parse (pre ++ post) acc = load_items parse post acc'.
Proof.
  revert acc. induction pre as [|[k j] pre IH]; intros acc; simpl.
  - by intros [= ->].
  - destruct (parse j); [apply IH|done].
Qed.

Lemma load_items_keys {J V : Type} (parse : J → option V)
    (items : Dict.t J) (acc acc' : Dict.t V) (b : bool) (k : string) :
  load_items parse items acc = (b, acc') →
  Dict.mem k acc' = true → Dict.mem k acc = true ∨ k ∈ Dict.keys items.
Proof.
  revert acc. induction items as [|[k' j] items IH]; intros acc; simpl.
  - intros [= _ ->]. by left.
  - destruct (parse j) as [v|].
    + intros Hload Hk. destruct (IH _ Hload Hk) as [Hacc|Hin].
      * rewrite mem_set in Hacc.
        destruct (String.eqb_spec k' k) as [->|_];
          [right; apply list_elem_of_here|by left].
      * right. by apply list_elem_of_further.
    + intros [= _ ->]. by left.
Qed.

Lemma edge_add_nodes (ks : list string) (g : Graph.t) (u v k : string) :
  Graph.edge u v k (foldl (λ g n, Graph.add_node n g) g ks) = Graph.edge u v k g.
Proof.
  revert g. induction ks as [|n ks IH]; intros g; cbn [foldl]; [done|].
  by rewrite IH, GraphFacts.edge_add_node.
Qed.

Lemma has_node_add_nodes (ks : list string) (g : Graph.t) (k : string) :
  Graph.has_node k (foldl (λ g n, Graph.add_node n g) g ks) = true
  ↔ k ∈ ks ∨ Graph.has_node k g = true.
Proof.
  revert g. induction ks as [|n ks IH]; intros g; cbn [foldl].
  - split; [by right|]. intros [H|H]; [by apply elem_of_nil in H|done].
  - rewrite IH, has_node_add_node_iff, elem_of_cons, orb_true_iff.
    destruct (String.eqb_spec n k) as [->|Hne].
    + split; intros _; [by left; left|by right; left].
    + split.
      * intros [Hk|[Hk|Hk]]; [by left; right|done|by right].
      * intros [[Hk|Hk]|Hk]; [done|by left|by right; right].
Qed.

Lemma edges_of_records (all rs : list relation) (g : Graph.t) :
  (∀ r, r ∈ rs → r ∈ all) →
  (∀ u v k r, Graph.edge u v k g = Some r →
     r ∈ all ∧ u = r_source r ∧ v = r_target r ∧ k = r_id r) →
  ∀ u v k r,
    Graph.edge u v k
      (foldl (λ g r, Graph.add_edge (r_source r) (r_target r) (r_id r) r g) g rs)
    = Some r →
    r ∈ all ∧ u = r_source r ∧ v = r_target r ∧ k = r_id r.
Proof.
  revert g. induction rs as [|r0 rs IH]; intros g Hsub Hg; cbn [foldl]; [done|].
  apply IH.
  - intros r Hr. by apply Hsub, list_elem_of_further.
  - intros u v k r.
    destruct (decide ((r_source r0, r_target r0, r_id r0) = (u, v, k)))
      as [Heq|Hne].
    + injection Heq as <- <- <-. rewrite GraphFacts.edge_add_edge_eq.
      intros [= <-]. split_and!; try done. apply Hsub, list_elem_of_here.
    + rewrite GraphFacts.edge_add_edge_ne by done. apply Hg.
Qed.

Lemma edge_kept (rs : list relation) (g : Graph.t) (u v k : string) :
  is_Some (Graph.edge u v k g) →
  is_Some (Graph.edge u v k
             (foldl (λ g r, Graph.add_edge (r_source r) (r_target r) (r_id r) r g)
                    g rs)).
Proof.
  revert g. induction rs as [|r0 rs IH]; intros g Hg; cbn [foldl]; [done|].
  apply IH.
  destruct (decide ((r_source r0, r_target r0, r_id r0) = (u, v, k)))
    as [Heq|Hne].
  - injection Heq as <- <- <-. by rewrite GraphFacts.edge_add_edge_eq.
  - by rewrite GraphFacts.edge_add_edge_ne.
Qed.

Lemma records_have_edges (rs : list relation) (g : Graph.t) (r : relation) :
  r ∈ rs →
  is_Some (Graph.edge (r_source r) (r_target r) (r_id r)
             (foldl (λ g r, Graph.add_edge (r_source r) (r_target r) (r_id r) r g)
                    g rs)).
Proof.
  revert g. induction rs as [|r0 rs IH]; intros g Hin; cbn [foldl].
  - by apply elem_of_nil in Hin.
  - apply elem_of_cons in Hin as [->|Hin]; [|by apply IH].
    apply edge_kept. by rewrite GraphFacts.edge_add_edge_eq.
Qed.

Lemma has_node_add_edges (rs : list relation) (g : Graph.t) (k : string) :
  Graph.has_node k
    (foldl (λ g r, Graph.add_edge (r_source r) (r_target r) (r_id r) r g) g rs)
  = true
  ↔ Graph.has_node k g = true ∨ ∃ r, r ∈ rs ∧ (k = r_source r ∨ k = r_target r).
Proof.
  revert g. induction rs as [|r0 rs IH]; intros g; cbn [foldl].
  - split; [by left|]. intros [H|(r & H & _)]; [done|by apply elem_of_nil in H].
  - rewrite IH, has_node_add_edge, !orb_true_iff. split.
    + intros [[[Hs|Ht]|Hg]|(r & Hr & Hk)].
      * right. exists r0. split; [apply list_elem_of_here|].
        left. symmetry. by apply String.eqb_eq.
      * right. exists r0. split; [apply list_elem_of_here|].
        right. symmetry. by apply String.eqb_eq.
      * by left.
      * right. exists r. split; [by apply list_elem_of_further|done].
    + intros [Hg|(r & Hr & Hk)]; [by left; right|].
      apply elem_of_cons in Hr as [Hr|Hr]; [subst r|right; by exists r].
      left. left. destruct Hk as [Hk|Hk]; subst k; [left|right];
        apply String.eqb_refl.
Qed.

Section Loading.
Variable fromisoformat : string → option datetime.

(** X20. [from_dict] does not roll back: when the timestamp of an entity
    fails to parse, the call raises [ValueError] and leaves the Entity map
    holding only the entities that precede the bad one in the input, under
    ids of the input, while the Relation map, the graph and both indexes are
    those from before the call. *)
Theorem from_dict_failure_is_not_rolled_back
    (data : export) (s : store) (pre post : Dict.t entity_json)
    (k : string) (j : entity_json) (es : Dict.t entity) :
  x_entities data = Some (pre ++ (k, j) :: post) →
  load_items (entity_of_json fromisoformat) pre [] = (true, es) →
  entity_of_json fromisoformat j = None →
  let out := from_dict fromisoformat data s in
  out.1 = Raised ValueError
  ∧ entities out.2 = es
  ∧ (∀ k', Dict.mem k' es = true → k' ∈ Dict.keys pre)
  ∧ relations out.2 = relations s
  ∧ graph out.2 = graph s
  ∧ type_index out.2 = type_index s
  ∧ attribute_index out.2 = attribute_index s.
Proof.
  intros Hdata Hpre Hbad out. unfold out, from_dict.
  rewrite Hdata. cbn [default from_option id].
  rewrite (load_items_app _ pre _ [] es Hpre). cbn [load_items].
  rewrite Hbad. store_simpl. split_and!; try done.
  intros k' Hk'. by destruct (load_items_keys _ _ _ _ _ k' Hpre Hk').
Qed.

(** X21. When [from_dict] returns, the graph is rebuilt from the loaded
    records alone: every edge is the edge of a loaded relation, from its
    source to its target under its id; every loaded relation has such an
    edge; the nodes are the loaded entity ids and the endpoints of the
    loaded relations.  The reverse edge that [add_relation] adds for a
    bidirectional relation is therefore not restored. *)
Theorem from_dict_rebuilds_graph_from_records
    (data : export) (s s' : store) :
  from_dict fromisoformat data s = (Returned tt, s') →
  (∀ u v key r, Graph.edge u v key (graph s') = Some r →
     r ∈ Dict.values (relations s')
     ∧ u = r_source r ∧ v = r_target r ∧ key = r_id r)
  ∧ (∀ r, r ∈ Dict.values (relations s') →
       is_Some (Graph.edge (r_source r) (r_target r) (r_id r) (graph s')))
  ∧ (∀ k, Graph.has_node k (graph s') = true
          ↔ Dict.mem k (entities s') = true
            ∨ ∃ r, r ∈ Dict.values (relations s')
                   ∧ (k = r_source r ∨ k = r_target r)).
Proof.
  unfold from_dict.
  destruct (load_items (entity_of_json fromisoformat) _ _) as [[] es]; [|done].
  destruct (load_items (relation_of_json fromisoformat) _ _) as [[] rs]; [|done].
  intros [= <-]. unfold rebuild_graph. store_simpl. split_and!.
  - apply edges_of_records; [done|].
    intros u v k r. rewrite edge_add_nodes. done.
  - intros r Hr. by apply records_have_edges.
  - intros k. rewrite has_node_add_edges, has_node_add_nodes.
    rewrite <-DictFacts.mem_true. split.
    + intros [[H|H]|H]; [by left|done|by right].
    + intros [H|H]; [by left; left|by right].
Qed.
End Loading.

Lemma from_dict_failure_is_not_rolled_back_witness :
  let data :=
    mk_export (Some [("a", mk_entity_json "a" "A" "person" [] "" (1 # 2)
                             "yesterday" "1" 0 1)])
              None None None None in
  (from_dict decimal_parse data store_owns).1 = Raised ValueError
  ∧ entities (from_dict decimal_parse data store_owns).2 = []
  ∧ relations (from_dict decimal_parse data store_owns).2 = relations store_owns.
Proof.
  intros data.
  destruct (from_dict_failure_is_not_rolled_back decimal_parse data store_owns
              [] [] "a"
              (mk_entity_json "a" "A" "person" [] "" (1 # 2) "yesterday" "1" 0 1)
              [])
    as (Hraise & Hent & _ & Hrel & _).
  - reflexivity.
  - reflexivity.
  - vm_compute. reflexivity.
  - split_and!; [exact Hraise|exact Hent|exact Hrel].
Defined.

Lemma from_dict_rebuilds_graph_from_records_witness :
  is_Some (Graph.edge "b" "a" "reverse_rel_3" (graph store_owns))
  ∧ to_dict decimal_stamp store_owns = Returned (exported store_owns)
  ∧ ∃ s', from_dict decimal_parse (exported store_owns) store_empty
          = (Returned tt, s')
          ∧ relations s' = relations store_owns
          ∧ Graph.edge "b" "a" "reverse_rel_3" (graph s') = None.
Proof.
  split; [vm_compute; by eexists|].
  split; [vm_compute; reflexivity|].
  pose (out := from_dict decimal_parse (exported store_owns) store_empty).
  assert (out = (Returned tt, out.2)) as Hout by (vm_compute; reflexivity).
  exists out.2. split; [exact Hout|]. split; [vm_compute; reflexivity|].
  destruct (from_dict_rebuilds_graph_from_records decimal_parse _ _ _ Hout)
    as (Hedges & _ & _).
  destruct (Graph.edge "b" "a" "reverse_rel_3" (graph out.2)) as [r|] eqn:E;
    [|done].
  exfalso. destruct (Hedges _ _ _ _ E) as (Hr & _ & _ & Hid).
  revert Hr. vm_compute. intros Hr.
  apply elem_of_cons in Hr as [->|Hr]; [discriminate Hid|].
  by apply elem_of_nil in Hr.
Defined.

(** ** Removing one relation *)

Lemma edge_after_drop (u v k : string) (g : Graph.t) :
  Graph.edge u v k
    (if Graph.has_edge u v k g then Graph.remove_edge u v k g else g) = None.
Proof.
  destruct (Graph.has_edge u v k g) eqn:E.
  - apply GraphFacts.edge_remove_edge_eq.
  - rewrite GraphFacts.has_edge_edge in E. apply bool_decide_eq_false in E.
    destruct (Graph.edge u v k g); [|done]. exfalso. apply E. by eexists.
Qed.

Lemma edge_after_drop_ne (u v k u' v' k' : string) (g : Graph.t) :
  (u, v, k) ≠ (u', v', k') →
  Graph.edge u' v' k'
    (if Graph.has_edge u v k g then Graph.remove_edge u v k g else g)
  = Graph.edge u' v' k' g.
Proof.
  intros Hne. destruct (Graph.has_edge u v k g); [|done].
  by apply GraphFacts.edge_remove_edge_ne.
Qed.

(** X22. [remove_relation] on an id that is not stored returns [False] and
    changes nothing.  On a stored id it returns [True] and removes that
    record, its edge and the reverse edge keyed ["reverse_" + id]; every
    other relation, every other edge, the nodes and the entities stay as
    they were. *)
Theorem remove_relation_removes_record_and_edges
    (rid : string) (now : datetime) (s : store) :
  let out := remove_relation rid now s in
  (Dict.get rid (relations s) = None → out = (false, s))
  ∧ (∀ rel, Dict.get rid (relations s) = Some rel →
       let reverse_id := ("reverse_" ++ rid)%string in
       out.1 = true
       ∧ Dict.get rid (relations out.2) = None
       ∧ (∀ k, k ≠ rid → Dict.get k (relations out.2) = Dict.get k (relations s))
       ∧ entities out.2 = entities s
       ∧ Graph.edge (r_source rel) (r_target rel) rid (graph out.2) = None
       ∧ Graph.edge (r_target rel) (r_source rel) reverse_id (graph out.2) = None
       ∧ (∀ u v k,
            (u, v, k) ≠ (r_source rel, r_target rel, rid) →
            (u, v, k) ≠ (r_target rel, r_source rel, reverse_id) →
            Graph.edge u v k (graph out.2) = Graph.edge u v k (graph s))
       ∧ (∀ k, Graph.has_node k (graph out.2) = Graph.has_node k (graph s))).
Proof.
  intros out. split.
  - intros Hnone. unfold out, remove_relation. by rewrite Hnone.
  - intros rel Hget reverse_id.
    assert (∀ k, Graph.has_node k (graph out.2) = Graph.has_node k (graph s))
      as Hnodes by (intros k; apply has_node_remove_relation).
    assert (relations out.2 = Dict.del rid (relations s)) as Hrel
      by apply relations_remove_relation.
    assert (entities out.2 = entities s) as Hent
      by apply entities_remove_relation.
    rewrite Hrel. unfold out, remove_relation in *. rewrite Hget in *.
    store_simpl. fold reverse_id.
    split_and!; try done.
    + apply DictFacts.get_del_eq.
    + intros k Hk. by apply DictFacts.get_del_ne.
    + rewrite edge_after_drop_ne; [apply edge_after_drop|].
      intros [= _ _ H]. by apply reverse_id_neq in H.
    + apply edge_after_drop.
    + intros u v k H1 H2.
      rewrite edge_after_drop_ne by done. by rewrite edge_after_drop_ne.
Qed.
